(** * FolioFox automation scripts: a shallow embedding and its properties

    The development follows the Python sources of the repository:

    - [scripts/automation/download_queue/retry_manager.py]
    - [scripts/automation/download_queue/advanced_queue_manager.py]
    - [scripts/automation/indexer_health/failover_manager.py]
    - [scripts/automation/book_processing/duplicate_detector.py]
    - [scripts/automation/system_maintenance/database_optimizer.py]

    Conventions of the embedding.

    - A Python [str] is a [list ascii]; the model covers 7-bit text, on
      which [unicodedata.normalize('NFKD', _)] is the identity and
      [str.lower]/[str.upper] act on the 26 Latin letters only.
    - The floats of the retry delay and of the download percentage are
      IEEE 754 binary64 numbers: rationals rounded to nearest, ties to
      even, after every operation, with the infinities and the exceptions
      of Python's arithmetic (module [Float]).  Elsewhere (the scores of
      the load balancer, the response-time means of the failover manager,
      the similarities of the duplicate detector) a float is the rational
      it stands for.  [int(x)] truncates toward zero.
    - [datetime] values are integers counting microseconds.
    - [random.random], the clock, the network and the outcome of SQL
      statements are inputs of the functions that consult them.
    - The download directory is the set of the names of its files, on a
      file system that tells names apart by their characters.
    - A [dict] whose iteration order matters is an association list; other
      dictionaries and sets are [gmap]/[gset]. *)

From Stdlib Require Import ZArith QArith Qround Qpower Qabs Qminmax Lqa Ascii String DecimalString List Bool Lia Permutation Sorted.
From stdpp Require Import gmap strings list fin_maps.

Import ListNotations.
Local Open Scope Z_scope.

(** ** Python primitives on text *)

Module Py.

Definition str := list ascii.

(** A string literal of the source, as a [str]. *)
Definition lit (s : string) : str := list_ascii_of_string s.

Definition code (c : ascii) : N := N_of_ascii c.

Definition in_range (lo hi : N) (c : ascii) : bool :=
  (N.leb lo (code c) && N.leb (code c) hi)%bool.

(** [\s] of [re] on [str], and the characters [str.strip()] removes:
    TAB, LF, VT, FF, CR, the separators FS..US, and the blank. *)
Definition is_space (c : ascii) : bool :=
  (in_range 9 13 c || in_range 28 32 c)%bool.

Definition is_digit (c : ascii) : bool := in_range 48 57 c.
Definition is_upper (c : ascii) : bool := in_range 65 90 c.
Definition is_lower (c : ascii) : bool := in_range 97 122 c.

(** [\w] of [re]: letters, digits and the underscore. *)
Definition is_word (c : ascii) : bool :=
  (is_digit c || is_upper c || is_lower c || N.eqb (code c) 95)%bool.

Definition lower_char (c : ascii) : ascii :=
  if is_upper c then ascii_of_N (code c + 32) else c.

Definition upper_char (c : ascii) : ascii :=
  if is_lower c then ascii_of_N (code c - 32) else c.

(** Text whose characters are all 7-bit. *)
Definition ascii_text (s : str) : bool :=
  forallb (fun c => N.ltb (code c) 128) s.

(** [s.lower()] and [s.upper()] as they are on 7-bit text, where they map
    the 26 Latin letters one by one.  On other text Python's case mappings
    are not character-wise (the upper case of one letter can be two, the
    lower case of a letter can depend on its position), and statements
    that rest on these two functions being character-wise are made for
    [ascii_text] only. *)
Definition lower (s : str) : str := map lower_char s.
Definition upper (s : str) : str := map upper_char s.

Definition ascii_eqb (a b : ascii) : bool := Ascii.eqb a b.

(** [s.startswith(p)]. *)
Fixpoint startswith (p s : str) : bool :=
  match p, s with
  | [], _ => true
  | _ :: _, [] => false
  | a :: p', b :: s' => (ascii_eqb a b && startswith p' s')%bool
  end.

(** [p in s] for strings. *)
Fixpoint contains (p s : str) : bool :=
  (startswith p s ||
   match s with
   | [] => false
   | _ :: s' => contains p s'
   end)%bool.

(** [any(p in s for p in ps)]. *)
Definition any_contains (ps : list str) (s : str) : bool :=
  existsb (fun p => contains p s) ps.

(** Truthiness of a string: [not s] holds of the empty string. *)
Definition truthy (s : str) : bool :=
  match s with [] => false | _ :: _ => true end.

(** [s.lstrip()], [s.rstrip()], [s.strip()]. *)
Fixpoint lstrip (s : str) : str :=
  match s with
  | [] => []
  | c :: s' => if is_space c then lstrip s' else s
  end.

Definition rstrip (s : str) : str := rev (lstrip (rev s)).

Definition strip (s : str) : str := rstrip (lstrip s).

(** [re.sub(r'\s+', ' ', s)]: every maximal run of white space becomes
    one blank. *)
Fixpoint collapse_from (in_run : bool) (s : str) : str :=
  match s with
  | [] => []
  | c :: s' =>
      if is_space c
      then (if in_run then collapse_from true s'
            else " "%char :: collapse_from true s')
      else c :: collapse_from false s'
  end.

Definition collapse_ws (s : str) : str := collapse_from false s.

(** [str(n)], as in an f-string, for an integer. *)
Definition str_of_int (n : Z) : str := lit (NilZero.string_of_int (Z.to_int n)).

(** [int(x)] on a finite float of value [x]: truncation toward zero. *)
Definition int_of_float (x : Q) : Z := Z.quot (Qnum x) (Zpos (Qden x)).

(** What the evaluation of an expression ends with: its value, or the
    class of the exception it raises and [str(e)]. *)
Inductive raising (A : Type) :=
| Returns (a : A)
| Raises (exception message : str).

Arguments Returns {A} a.
Arguments Raises {A} exception message.

Definition bind {A B : Type} (x : raising A) (k : A -> raising B) : raising B :=
  match x with
  | Returns a => k a
  | Raises exception message => Raises exception message
  end.

Notation "x <- e ;; k" := (bind e (fun x => k))
  (at level 20, e at level 99, k at level 200).

End Py.

(** ** Python's [float]: IEEE 754 binary64 *)

Module Float.
Import Py.

Definition pow2 (k : Z) : Q := Qpower 2 k.

(** The nearest integer, ties to the even one. *)
Definition round_half_even (x : Q) : Z :=
  let f := Qfloor x in
  match Qcompare (x - inject_Z f) (1 # 2) with
  | Lt => f
  | Gt => f + 1
  | Eq => if Z.even f then f else f + 1
  end.

(** The exponent of the smallest subnormal number. *)
Definition emin : Z := -1074.

(** For [0 < q], the [k] with [2^k <= q < 2^(k+1)]. *)
Definition binade (q : Q) : Z :=
  let k := Z.log2 (Qnum q) - Z.log2 (Zpos (Qden q)) in
  if Qle_bool (pow2 k) q then k else k - 1.

(** The floats around [q] are the multiples of [2^grid_exponent q]:
    53 significant bits, and the subnormal spacing at the bottom. *)
Definition grid_exponent (q : Q) : Z := Z.max (binade q - 52) emin.

Definition round_pos (q : Q) : Q :=
  let e := grid_exponent q in
  Qred (inject_Z (round_half_even (q / pow2 e)) * pow2 e).

(** Rounding to nearest, ties to even, before the range is looked at. *)
Definition fl (q : Q) : Q :=
  match Qcompare q 0 with
  | Eq => 0
  | Gt => round_pos q
  | Lt => Qred (- round_pos (- q))
  end.

(** A float: a finite value (a rational that [fl] leaves alone), an
    infinity or a NaN.  The sign of zero is not represented. *)
Inductive float :=
| Finite (q : Q)
| Infinity (negative : bool)
| NaN.

Definition is_negative (q : Q) : bool :=
  match Qcompare q 0 with
  | Lt => true
  | _ => false
  end.

(** The float of a real result: the rounded value, or an infinity once its
    magnitude reaches [2^1024]. *)
Definition rounded (q : Q) : float :=
  let r := fl q in
  if Qle_bool (pow2 1024) (Qabs r) then Infinity (is_negative q) else Finite r.

(** A decimal literal of the source, such as [0.8]. *)
Definition literal (q : Q) : float := rounded q.

(** The conversion of an [int] operand in mixed arithmetic. *)
Definition of_int (n : Z) : raising float :=
  match rounded (inject_Z n) with
  | Finite r => Returns (Finite r)
  | _ => Raises (lit "OverflowError") (lit "int too large to convert to float")
  end.

(** [x * y]; an overflow gives an infinity and raises nothing. *)
Definition mul (x y : float) : float :=
  match x, y with
  | NaN, _ | _, NaN => NaN
  | Finite a, Finite b => rounded (a * b)
  | Infinity s, Infinity t => Infinity (xorb s t)
  | Infinity s, Finite b | Finite b, Infinity s =>
      if Qeq_bool b 0 then NaN else Infinity (xorb s (is_negative b))
  end.

(** [x + y], [-x] and [x - y]. *)
Definition add (x y : float) : float :=
  match x, y with
  | NaN, _ | _, NaN => NaN
  | Finite a, Finite b => rounded (a + b)
  | Infinity s, Infinity t => if Bool.eqb s t then Infinity s else NaN
  | Infinity s, Finite _ | Finite _, Infinity s => Infinity s
  end.

Definition opp (x : float) : float :=
  match x with
  | Finite a => Finite (- a)
  | Infinity s => Infinity (negb s)
  | NaN => NaN
  end.

Definition sub (x y : float) : float := add x (opp y).

(** [a / b] on two [int]s: the quotient, rounded once. *)
Definition true_divide (a b : Z) : raising float :=
  if b =? 0
  then Raises (lit "ZeroDivisionError") (lit "division by zero")
  else
    match rounded (inject_Z a / inject_Z b) with
    | Finite r => Returns (Finite r)
    | _ => Raises (lit "OverflowError")
             (lit "integer division result too large for a float")
    end.

(** [x ** n] for an [int] exponent: the exponent is converted to a float,
    and a result out of range raises.  The power of a finite base is taken
    as the correctly rounded one, which it is for the base [2.0]. *)
Definition pow (x : float) (n : Z) : raising float :=
  w <- of_int n ;;
  match w with
  | Finite w =>
      let n := Qfloor w in
      if n =? 0 then Returns (Finite 1)
      else
        match x with
        | NaN => Returns NaN
        | Infinity s =>
            Returns (if 0 <? n then Infinity (s && Z.odd n) else Finite 0)
        | Finite b =>
            if Qeq_bool b 0
            then (if n <? 0
                  then Raises (lit "ZeroDivisionError")
                         (lit "0.0 cannot be raised to a negative power")
                  else Returns (Finite 0))
            else
              match rounded (Qpower b n) with
              | Finite r => Returns (Finite r)
              | _ => Raises (lit "OverflowError")
                       (lit "(34, 'Numerical result out of range')")
              end
        end
  | _ => Returns NaN
  end.

(** [int(x)]. *)
Definition int_of (x : float) : raising Z :=
  match x with
  | Finite q => Returns (int_of_float q)
  | Infinity _ => Raises (lit "OverflowError")
                    (lit "cannot convert float infinity to integer")
  | NaN => Raises (lit "ValueError")
             (lit "cannot convert float NaN to integer")
  end.

(** [n < x] for an [int] and a float; the comparison is exact. *)
Definition int_lt (n : Z) (x : float) : bool :=
  match x with
  | Finite q =>
      match Qcompare (inject_Z n) q with
      | Lt => true
      | _ => false
      end
  | Infinity s => negb s
  | NaN => false
  end.

End Float.

(** ** [retry_manager.py] *)

Module RetryManager.
Import Py Float.

Inductive RetryReason :=
| NETWORK_ERROR
| TIMEOUT
| SERVER_ERROR
| RATE_LIMITED
| INDEXER_DOWN
| FILE_CORRUPTED
| DISK_FULL
| PERMISSION_ERROR
| UNKNOWN.

Definition RetryReason_eqb (a b : RetryReason) : bool :=
  match a, b with
  | NETWORK_ERROR, NETWORK_ERROR | TIMEOUT, TIMEOUT
  | SERVER_ERROR, SERVER_ERROR | RATE_LIMITED, RATE_LIMITED
  | INDEXER_DOWN, INDEXER_DOWN | FILE_CORRUPTED, FILE_CORRUPTED
  | DISK_FULL, DISK_FULL | PERMISSION_ERROR, PERMISSION_ERROR
  | UNKNOWN, UNKNOWN => true
  | _, _ => false
  end.

Record RetryConfig := {
  base_delay : Z;
  max_delay : Z;
  exponential_base : Q;
  max_retries : Z;
  rate_limit_backoff : Z;
  server_error_backoff : Z
}.

(** The dataclass defaults. *)
Definition default_config : RetryConfig := {|
  base_delay := 60;
  max_delay := 3600;
  exponential_base := 2;
  max_retries := 5;
  rate_limit_backoff := 300;
  server_error_backoff := 900
|}.

(** One value of the [failure_patterns] dictionary. *)
Record FailureConfig := {
  patterns : list str;
  retry_multiplier : Q;
  immediate_retry : bool
}.

(** [_initialize_failure_patterns]: the dictionary in insertion order,
    which is the order [categorize_failure] iterates in. *)
Definition failure_patterns : list (RetryReason * FailureConfig) :=
  [ (NETWORK_ERROR,
     {| patterns := [lit "connection refused"; lit "network unreachable";
                     lit "dns lookup failed"; lit "connection reset"];
        retry_multiplier := 15 # 10; immediate_retry := false |});
    (TIMEOUT,
     {| patterns := [lit "timeout"; lit "deadline exceeded";
                     lit "request timeout"];
        retry_multiplier := 12 # 10; immediate_retry := false |});
    (SERVER_ERROR,
     {| patterns := [lit "500"; lit "502"; lit "503"; lit "504";
                     lit "internal server error"; lit "bad gateway"];
        retry_multiplier := 2; immediate_retry := false |});
    (RATE_LIMITED,
     {| patterns := [lit "429"; lit "rate limit"; lit "too many requests";
                     lit "quota exceeded"];
        retry_multiplier := 3; immediate_retry := false |});
    (INDEXER_DOWN,
     {| patterns := [lit "indexer unavailable"; lit "indexer offline";
                     lit "indexer maintenance"];
        retry_multiplier := 25 # 10; immediate_retry := false |});
    (FILE_CORRUPTED,
     {| patterns := [lit "checksum mismatch"; lit "corrupted file";
                     lit "invalid file format"];
        retry_multiplier := 1; immediate_retry := true |});
    (DISK_FULL,
     {| patterns := [lit "no space left"; lit "disk full";
                     lit "insufficient space"];
        retry_multiplier := 1; immediate_retry := false |});
    (PERMISSION_ERROR,
     {| patterns := [lit "permission denied"; lit "access denied";
                     lit "forbidden"];
        retry_multiplier := 1; immediate_retry := false |}) ].

(** [self.failure_patterns.get(reason)]. *)
Fixpoint patterns_get (d : list (RetryReason * FailureConfig))
  (reason : RetryReason) : option FailureConfig :=
  match d with
  | [] => None
  | (r, c) :: d' => if RetryReason_eqb r reason then Some c
                    else patterns_get d' reason
  end.

(** The two nested loops of [categorize_failure]: the first reason, in
    dictionary order, one of whose patterns occurs in the message. *)
Fixpoint first_reason (d : list (RetryReason * FailureConfig))
  (error_lower : str) : option RetryReason :=
  match d with
  | [] => None
  | (r, c) :: d' =>
      if any_contains (patterns c) error_lower then Some r
      else first_reason d' error_lower
  end.

(** [categorize_failure]; [None] is Python's [None]. *)
Definition categorize_failure (error_message : option str) : RetryReason :=
  match error_message with
  | None => UNKNOWN
  | Some m =>
      if negb (truthy m) then UNKNOWN
      else
        let error_lower := lower m in
        match first_reason failure_patterns error_lower with
        | Some reason => reason
        | None => UNKNOWN
        end
  end.

(** [failure_config.get('retry_multiplier', 1.0)] and
    [failure_config.get('immediate_retry', False)], where [failure_config]
    is [{}] for a reason without an entry. *)
Definition get_retry_multiplier (failure_config : option FailureConfig) : Q :=
  match failure_config with
  | Some c => retry_multiplier c
  | None => 1%Q
  end.

Definition get_immediate_retry (failure_config : option FailureConfig) : bool :=
  match failure_config with
  | Some c => immediate_retry c
  | None => false
  end.

(** [random.uniform(a, b)], which is [a + (b - a) * self.random()];
    [draw] is the value of [random()], a float of the interval [0, 1). *)
Definition uniform (a b : float) (draw : Q) : float :=
  add a (mul (sub b a) (rounded draw)).

(** [min(base_delay * (exponential_base ** retry_count) * multiplier,
    max_delay)].  The power is evaluated first, then the [int] base delay
    meets it as a float.  [min] answers its second argument, the [int]
    [max_delay], when that is smaller; it becomes a float when it is
    multiplied by the jitter. *)
Definition delay_before_jitter (cfg : RetryConfig) (retry_count : Z)
  (multiplier : float) : raising float :=
  power <- pow (literal (exponential_base cfg)) retry_count ;;
  base <- of_int (base_delay cfg) ;;
  let product := mul (mul base power) multiplier in
  if int_lt (max_delay cfg) product then of_int (max_delay cfg)
  else Returns product.

(** [calculate_retry_delay]; [draw] is the value that [random.uniform]
    gets from [random()]. *)
Definition calculate_retry_delay (cfg : RetryConfig) (retry_count : Z)
  (failure_reason : RetryReason) (draw : Q) : raising Z :=
  let failure_config := patterns_get failure_patterns failure_reason in
  let multiplier := literal (get_retry_multiplier failure_config) in
  if RetryReason_eqb failure_reason RATE_LIMITED
  then Returns (rate_limit_backoff cfg)
  else if RetryReason_eqb failure_reason SERVER_ERROR
  then Returns (server_error_backoff cfg)
  else if get_immediate_retry failure_config
  then Returns 0
  else
    delay <- delay_before_jitter cfg retry_count multiplier ;;
    let jitter := uniform (literal (8 # 10)) (literal (12 # 10)) draw in
    int_of (mul delay jitter).

(** The multiplier of each reason, as the table gives it. *)
Definition multiplier (reason : RetryReason) : Q :=
  match reason with
  | NETWORK_ERROR => 15 # 10
  | TIMEOUT => 12 # 10
  | SERVER_ERROR => 2
  | RATE_LIMITED => 3
  | INDEXER_DOWN => 25 # 10
  | FILE_CORRUPTED | DISK_FULL | PERMISSION_ERROR | UNKNOWN => 1
  end.

(** The delay before jitter as a formula over the rationals, with no
    rounding: [min(max_delay, base_delay * exponential_base ^ retry_count
    * multiplier)].  The delay the code computes is compared with it. *)
Definition backoff_formula (cfg : RetryConfig) (retry_count : Z)
  (reason : RetryReason) : Q :=
  Qmin (inject_Z (max_delay cfg))
       (inject_Z (base_delay cfg) * exponential_base cfg ^ retry_count
        * multiplier reason)%Q.

(** Whether some pattern of the table occurs in the message once it is
    lower-cased. *)
Definition mentions_pattern (m : str) : bool :=
  existsb (fun rc => any_contains (patterns (snd rc)) (lower m)) failure_patterns.

End RetryManager.

(** ** [failover_manager.py]: the circuit breaker *)

Module CircuitBreaker.

Inductive State := CLOSED | OPEN | HALF_OPEN.

(** The attributes of a [CircuitBreaker] object.  [recovery_timeout] is in
    seconds, [last_failure_time] in microseconds ([None] before the first
    failure). *)
Record t := {
  failure_threshold : Z;
  recovery_timeout : Z;
  failure_count : Z;
  last_failure_time : option Z;
  state : State
}.

(** [__init__]. *)
Definition init (failure_threshold recovery_timeout : Z) : t := {|
  failure_threshold := failure_threshold;
  recovery_timeout := recovery_timeout;
  failure_count := 0;
  last_failure_time := None;
  state := CLOSED
|}.

Definition set_state (s : State) (b : t) : t := {|
  failure_threshold := failure_threshold b;
  recovery_timeout := recovery_timeout b;
  failure_count := failure_count b;
  last_failure_time := last_failure_time b;
  state := s
|}.

(** [(datetime.now() - last).total_seconds() > self.recovery_timeout]. *)
Definition timeout_elapsed (now last timeout : Z) : bool :=
  timeout * 1000000 <? now - last.

(** [call_allowed], reading the clock as [now]: the answer and the breaker
    after the call. *)
Definition call_allowed (now : Z) (b : t) : bool * t :=
  match state b with
  | CLOSED => (true, b)
  | OPEN =>
      match last_failure_time b with
      | Some last =>
          if timeout_elapsed now last (recovery_timeout b)
          then (true, set_state HALF_OPEN b)
          else (false, b)
      | None => (false, b)
      end
  | HALF_OPEN => (true, b)
  end.

(** [record_success]. *)
Definition record_success (b : t) : t := {|
  failure_threshold := failure_threshold b;
  recovery_timeout := recovery_timeout b;
  failure_count := 0;
  last_failure_time := last_failure_time b;
  state := CLOSED
|}.

(** [record_failure], reading the clock as [now]. *)
Definition record_failure (now : Z) (b : t) : t :=
  let count := failure_count b + 1 in {|
  failure_threshold := failure_threshold b;
  recovery_timeout := recovery_timeout b;
  failure_count := count;
  last_failure_time := Some now;
  state := if failure_threshold b <=? count then OPEN else state b
|}.

(** What a client does with a breaker, with the clock reading of each
    call. *)
Inductive event :=
| CallAllowed (now : Z)
| Success
| Failure (now : Z).

Definition step (b : t) (e : event) : t :=
  match e with
  | CallAllowed now => snd (call_allowed now b)
  | Success => record_success b
  | Failure now => record_failure now b
  end.

(** The breaker after a history of calls, oldest first. *)
Definition run (b : t) (history : list event) : t := fold_left step history b.

(** The number of failures recorded since the last recorded success (or
    since creation): scanning the history oldest first. *)
Definition consecutive_failures (history : list event) : Z :=
  fold_left (fun n e =>
    match e with
    | CallAllowed _ => n
    | Success => 0
    | Failure _ => n + 1
    end) history 0.

(** The clock reading of the last failure recorded in a history. *)
Definition last_failure (history : list event) : option Z :=
  fold_left (fun t e =>
    match e with
    | Failure now => Some now
    | _ => t
    end) history None.

(** What holds of a breaker after any history. *)
Record reachable_inv (thr rt : Z) (history : list event) (b : t) : Prop := {
  inv_threshold : failure_threshold b = thr;
  inv_timeout : recovery_timeout b = rt;
  inv_count : failure_count b = consecutive_failures history;
  inv_last : last_failure_time b = last_failure history;
  inv_tripped : state b <> CLOSED ->
                thr <= failure_count b /\ exists last, last_failure_time b = Some last
}.

End CircuitBreaker.

(** ** [advanced_queue_manager.py] *)

Module AdvancedQueueManager.
Import Py Float.

Inductive QueueStatus :=
| PENDING
| DOWNLOADING
| COMPLETED
| FAILED
| CANCELLED
| PAUSED.

(** The fields of a [DownloadTask] that the methods below read: the copy
    of a queue row a task works from. *)
Record DownloadTask := {
  id : Z;
  indexer_id : Z;
  title : str;
  file_format : str;
  retry_count : Z;
  max_retries : Z;
  error_message : option str
}.

(** A row of the [download_queue] table, by the columns the methods below
    write.  The other statements of the manager on this table change
    [priority] and [updated_at] only, or delete rows. *)
Record Row := {
  row_status : QueueStatus;
  row_progress_percentage : Z;
  row_download_path : option str;
  row_retry_count : Z;
  row_max_retries : Z;
  row_error_message : option str;
  row_started_at : option Z;
  row_completed_at : option Z;
  row_updated_at : Z
}.

(** An element of a [failure_patterns] list. *)
Record FailureEntry := {
  timestamp : Z;
  error : str
}.

(** The manager's state: the [download_queue] table by row id; the text of
    the exception the database raises on a statement, if it is failing
    ([None] when it accepts statements); the [download_history] rows (queue
    id and byte count); the names of the files in the download directory,
    temporary and final ones alike (two paths are the same file when their
    names are the same string); [self.active_downloads]; and
    [self.failure_patterns], keyed by the indexer id that the key
    [indexer_<id>] carries. *)
Record Manager := {
  db : gmap Z Row;
  db_fault : option str;
  history : list (Z * Z);
  files : gset str;
  active_downloads : gset Z;
  failure_patterns : gmap Z (list FailureEntry)
}.

Definition HOUR : Z := 3600 * 1000000.

Definition with_db (f : gmap Z Row -> gmap Z Row) (m : Manager) : Manager := {|
  db := f (db m);
  db_fault := db_fault m;
  history := history m;
  files := files m;
  active_downloads := active_downloads m;
  failure_patterns := failure_patterns m
|}.

(** *** The smart-retry filter *)

(** The list comprehension of [_filter_smart_retry]: the entries younger
    than one hour. *)
Definition recent_failures (now : Z) (fs : list FailureEntry) : list FailureEntry :=
  List.filter (fun f => now - HOUR <? timestamp f) fs.

(** First [continue] of the loop. *)
Definition indexer_failing (now : Z) (fp : gmap Z (list FailureEntry))
  (download : DownloadTask) : bool :=
  match fp !! indexer_id download with
  | Some fs => 5 <? Z.of_nat (length (recent_failures now fs))
  | None => false
  end.

Definition permanent_patterns : list str :=
  [lit "404"; lit "not found"; lit "removed"; lit "deleted"; lit "unavailable"].

(** Second [continue] of the loop. *)
Definition permanent_error (download : DownloadTask) : bool :=
  match error_message download with
  | Some m => (truthy m && any_contains permanent_patterns (lower m))%bool
  | None => false
  end.

(** [_filter_smart_retry]. *)
Fixpoint _filter_smart_retry (now : Z) (fp : gmap Z (list FailureEntry))
  (downloads : list DownloadTask) : list DownloadTask :=
  match downloads with
  | [] => []
  | download :: rest =>
      if indexer_failing now fp download
      then _filter_smart_retry now fp rest
      else if permanent_error download
      then _filter_smart_retry now fp rest
      else download :: _filter_smart_retry now fp rest
  end.

(** [_record_failure_pattern]. *)
Definition _record_failure_pattern (now : Z) (indexer : Z) (msg : str)
  (m : Manager) : Manager :=
  let old := default [] (failure_patterns m !! indexer) in
  let appended := old ++ [{| timestamp := now; error := msg |}] in
  let cutoff := now - 24 * HOUR in
  let kept := List.filter (fun f => cutoff <? timestamp f) appended in {|
    db := db m;
    db_fault := db_fault m;
    history := history m;
    files := files m;
    active_downloads := active_downloads m;
    failure_patterns := <[indexer := kept]> (failure_patterns m)
  |}.

(** The number of failures recorded for an indexer within the last hour. *)
Definition recent_failure_count (now : Z) (fp : gmap Z (list FailureEntry))
  (indexer : Z) : nat :=
  length (recent_failures now (default [] (fp !! indexer))).

(** *** Status updates *)

(** The [UPDATE] of the [increment_retry] branch. *)
Definition update_with_retry (now : Z) (status : QueueStatus)
  (msg : option str) (r : Row) : Row := {|
  row_status := status;
  row_progress_percentage := row_progress_percentage r;
  row_download_path := row_download_path r;
  row_retry_count := row_retry_count r + 1;
  row_max_retries := row_max_retries r;
  row_error_message := msg;
  row_started_at := row_started_at r;
  row_completed_at := row_completed_at r;
  row_updated_at := now
|}.

(** The [UPDATE] built from [update_fields] in the other branch. *)
Definition update_plain (now : Z) (status : QueueStatus)
  (msg : option str) (r : Row) : Row := {|
  row_status := status;
  row_progress_percentage := row_progress_percentage r;
  row_download_path := row_download_path r;
  row_retry_count := row_retry_count r;
  row_max_retries := row_max_retries r;
  row_error_message :=
    match msg with
    | Some _ => msg
    | None => row_error_message r
    end;
  row_started_at :=
    match status with
    | DOWNLOADING => Some now
    | _ => row_started_at r
    end;
  row_completed_at := row_completed_at r;
  row_updated_at := now
|}.

(** [_update_download_status]: one [UPDATE ... WHERE id = ?]; when the
    statement raises, the exception is logged and the table is unchanged. *)
Definition _update_download_status (now : Z) (download_id : Z)
  (status : QueueStatus) (msg : option str) (increment_retry : bool)
  (m : Manager) : Manager :=
  match db_fault m with
  | None =>
      with_db (alter (if increment_retry
                      then update_with_retry now status msg
                      else update_plain now status msg) download_id) m
  | Some _ => m
  end.

(** An [int] that SQLite takes as a statement parameter: a signed 64-bit
    integer.  Binding any other raises [OverflowError]. *)
Definition sqlite_integer (n : Z) : bool :=
  ((- 2 ^ 63 <=? n) && (n <? 2 ^ 63))%bool.

(** [_update_download_progress]; the exception of a failing statement, or
    of a percentage that SQLite does not take, is logged and the table is
    unchanged. *)
Definition _update_download_progress (now : Z) (download_id : Z)
  (progress : Z) (m : Manager) : Manager :=
  match db_fault m with
  | Some _ => m
  | None =>
    if negb (sqlite_integer progress) then m else
    with_db (alter (fun r => {|
      row_status := row_status r;
      row_progress_percentage := progress;
      row_download_path := row_download_path r;
      row_retry_count := row_retry_count r;
      row_max_retries := row_max_retries r;
      row_error_message := row_error_message r;
      row_started_at := row_started_at r;
      row_completed_at := row_completed_at r;
      row_updated_at := now
    |}) download_id) m
  end.

(** *** The download task *)

Definition invalid_filename_char (c : ascii) : bool :=
  existsb (N.eqb (code c)) [60; 62; 58; 34; 47; 92; 124; 63; 42]%N.

(** [_sanitize_filename]. *)
Definition _sanitize_filename (filename : str) : str :=
  let filename := List.filter (fun c => negb (invalid_filename_char c)) filename in
  let filename :=
    if (200 <? length filename)%nat then firstn 200 filename else filename in
  strip filename.

(** What one run of [_download_file] meets, in the order it meets it.

    One iteration of the chunk loop: a chunk of [size] bytes is written and
    [shutdown_event.is_set()] then answers [shutdown_is_set]; or the task's
    cancellation is delivered at one of the iteration's [await]s; or the
    read or the write raises. *)
Inductive chunk :=
| Chunk (size : Z) (shutdown_is_set : bool)
| ChunkCancelled
| ChunkError (msg : str).

(** Before the temporary file is opened: an exception (directory, session,
    connection), or the task's cancellation; otherwise the response with
    its status, reason and [content-length], the iterations of the chunk
    loop, and the exception of [shutil.move], if it raises.  ([temp_path]
    is still [None] in the [finally] clause only when the directory could
    not be made, and then there is no file in it to unlink.) *)
Inductive transfer :=
| SetupError (msg : str)
| SetupCancelled
| Response (status : Z) (reason : str) (content_length : Z)
    (chunks : list chunk) (move_error : option str).

Inductive raised :=
| CancelledError
| Exception (msg : str).

(** [int((downloaded / total_size) * 100)] on two [int]s: the quotient is
    a float, rounded, its product with [100] is rounded again, and [int]
    truncates. *)
Definition progress_of (downloaded total_size : Z) : raising Z :=
  quotient <- true_divide downloaded total_size ;;
  hundred <- of_int 100 ;;
  int_of (mul quotient hundred).

Arguments progress_of : simpl never.

(** The [async for] loop: the manager after the progress updates, and
    either what was raised or the byte count at the end of the stream. *)
Fixpoint stream (now download_id total_size downloaded : Z)
  (chunks : list chunk) (m : Manager) : Manager * (raised + Z) :=
  match chunks with
  | [] => (m, inr downloaded)
  | ChunkCancelled :: _ => (m, inl CancelledError)
  | ChunkError msg :: _ => (m, inl (Exception msg))
  | Chunk size shutdown_is_set :: rest =>
      let downloaded := downloaded + size in
      let after_progress :=
        if 0 <? total_size
        then match progress_of downloaded total_size with
             | Returns progress =>
                 inr (_update_download_progress now download_id progress m)
             | Raises _ message => inl (Exception message)
             end
        else inr m in
      match after_progress with
      | inl e => (m, inl e)
      | inr m =>
          if shutdown_is_set then (m, inl CancelledError)
          else stream now download_id total_size downloaded rest m
      end
  end.

(** The name of the temporary file,
    [temp_{download.id}_{int(time.time())}.{download.file_format}]; the
    clock reads [now] microseconds. *)
Definition temp_path (now : Z) (download : DownloadTask) : str :=
  lit "temp_" ++ str_of_int (id download) ++ lit "_"
  ++ str_of_int (Z.quot now 1000000) ++ lit "." ++ file_format download.

(** The name of the final file,
    [{self._sanitize_filename(download.title)}.{download.file_format}]. *)
Definition final_path (download : DownloadTask) : str :=
  _sanitize_filename (title download) ++ lit "." ++ file_format download.

Arguments temp_path : simpl never.
Arguments final_path : simpl never.

(** The two statements of the completion transaction, committed. *)
Definition commit_completed (now : Z) (download : DownloadTask)
  (downloaded : Z) (m : Manager) : Manager := {|
  db := alter (fun r => {|
      row_status := COMPLETED;
      row_progress_percentage := 100;
      row_download_path := Some (final_path download);
      row_retry_count := row_retry_count r;
      row_max_retries := row_max_retries r;
      row_error_message := row_error_message r;
      row_started_at := row_started_at r;
      row_completed_at := Some now;
      row_updated_at := now
    |}) (id download) (db m);
  db_fault := db_fault m;
  history := history m ++ [(id download, downloaded)];
  files := files m;
  active_downloads := active_downloads m;
  failure_patterns := failure_patterns m
|}.

(** The [try] block: the manager when the block is left, and what left it
    ([None]: it ran to its end). *)
Definition try_block (now : Z) (download : DownloadTask) (tr : transfer)
  (m : Manager) : Manager * option raised :=
  match tr with
  | SetupError msg => (m, Some (Exception msg))
  | SetupCancelled => (m, Some CancelledError)
  | Response status reason content_length chunks move_error =>
      if negb (status =? 200)
      then (m, Some (Exception (lit "HTTP " ++ str_of_int status
                                 ++ lit ": " ++ reason)))
      else
        let total_size := content_length in
        (* aiofiles.open(temp_path, 'wb') creates the file *)
        let m := {|
          db := db m; db_fault := db_fault m; history := history m;
          files := {[temp_path now download]} ∪ files m;
          active_downloads := active_downloads m;
          failure_patterns := failure_patterns m |} in
        match stream now (id download) total_size 0 chunks m with
        | (m, inl e) => (m, Some e)
        | (m, inr downloaded) =>
            if ((0 <? total_size) && negb (downloaded =? total_size))%bool
            then (m, Some (Exception
                   (lit "File size mismatch: expected " ++ str_of_int total_size
                    ++ lit ", got " ++ str_of_int downloaded)))
            else
              match move_error with
              | Some msg => (m, Some (Exception msg))
              | None =>
                  (* shutil.move renames the file; nothing changes when
                     the two names are the same *)
                  let m := {|
                    db := db m; db_fault := db_fault m; history := history m;
                    files := {[final_path download]}
                             ∪ (files m ∖ {[temp_path now download]});
                    active_downloads := active_downloads m;
                    failure_patterns := failure_patterns m |} in
                  match db_fault m with
                  | Some msg => (m, Some (Exception msg))
                  | None =>
                      (* the byte count is a parameter of the INSERT; when
                         binding it raises, the UPDATE is rolled back *)
                      if negb (sqlite_integer downloaded)
                      then (m, Some (Exception
                             (lit "Python int too large to convert to SQLite INTEGER")))
                      else (commit_completed now download downloaded m, None)
                  end
              end
        end
  end.

(** The [except] clauses. *)
Definition handlers (now : Z) (download : DownloadTask) (e : option raised)
  (m : Manager) : Manager :=
  match e with
  | None => m
  | Some CancelledError =>
      _update_download_status now (id download) CANCELLED None false m
  | Some (Exception error_msg) =>
      let m := _record_failure_pattern now (indexer_id download) error_msg m in
      if retry_count download <? max_retries download
      then _update_download_status now (id download) FAILED (Some error_msg) true m
      else _update_download_status now (id download) FAILED (Some error_msg) false m
  end.

(** The [finally] clause: the file named [temp_path] is unlinked if it
    exists, whichever file that is by then; [unlink_ok] tells whether
    [temp_path.unlink()] succeeds. *)
Definition finally (now : Z) (download : DownloadTask) (unlink_ok : bool)
  (m : Manager) : Manager := {|
  db := db m; db_fault := db_fault m; history := history m;
  files :=
    if unlink_ok then files m ∖ {[temp_path now download]}
    else files m;
  active_downloads := active_downloads m ∖ {[id download]};
  failure_patterns := failure_patterns m
|}.

(** [_download_file], with one reading [now] of the clock for the whole
    run. *)
Definition _download_file (now : Z) (download : DownloadTask)
  (tr : transfer) (unlink_ok : bool) (m : Manager) : Manager :=
  let '(m, e) := try_block now download tr m in
  finally now download unlink_ok (handlers now download e m).

(** Whether the progress of an iteration is computed without raising. *)
Definition progress_computed (total_size downloaded : Z) : bool :=
  if 0 <? total_size
  then match progress_of downloaded total_size with
       | Returns _ => true
       | Raises _ _ => false
       end
  else true.

(** Whether the run is ended by the signal of [shutdown]: the flag of
    [shutdown_event] seen after a chunk, or the [task.cancel()] delivered
    at an [await], before anything else has raised. *)
Fixpoint chunks_signalled (total_size downloaded : Z) (chunks : list chunk)
  : bool :=
  match chunks with
  | [] => false
  | ChunkCancelled :: _ => true
  | ChunkError _ :: _ => false
  | Chunk size shutdown_is_set :: rest =>
      let downloaded := downloaded + size in
      (progress_computed total_size downloaded &&
       (shutdown_is_set || chunks_signalled total_size downloaded rest))%bool
  end.

Definition signalled (tr : transfer) : bool :=
  match tr with
  | SetupError _ => false
  | SetupCancelled => true
  | Response status _ content_length chunks _ =>
      ((status =? 200) && chunks_signalled content_length 0 chunks)%bool
  end.

(** *** Invariants of the queue table *)

(** Invariant 1 of the data model, for one row and for the table. *)
Definition row_inv (r : Row) : Prop := row_retry_count r <= row_max_retries r.

Definition db_inv (m : Manager) : Prop :=
  forall i r, db m !! i = Some r -> row_inv r.

(** The task's copy of its row agrees with the table on the two
    counters. *)
Definition coherent (download : DownloadTask) (m : Manager) : Prop :=
  forall r, db m !! id download = Some r ->
            row_retry_count r = retry_count download /\
            row_max_retries r = max_retries download.

(** A row keeps its counters. *)
Definition keeps (r r' : Row) : Prop :=
  row_retry_count r' = row_retry_count r /\
  row_max_retries r' = row_max_retries r.

(** Two tables have the same rows, related by [P]. *)
Definition evolves (P : Row -> Row -> Prop) (d d' : gmap Z Row) : Prop :=
  forall i,
    match d !! i, d' !! i with
    | Some r, Some r' => P r r'
    | None, None => True
    | _, _ => False
    end.

Definition manager_keeps (m m' : Manager) : Prop :=
  db_fault m' = db_fault m /\ evolves keeps (db m) (db m').

(** *** Sample data *)

Definition five_failures : list FailureEntry :=
  [ {| timestamp := 10; error := lit "timeout" |};
    {| timestamp := 20; error := lit "timeout" |};
    {| timestamp := 30; error := lit "timeout" |};
    {| timestamp := 40; error := lit "timeout" |};
    {| timestamp := 50; error := lit "timeout" |} ].

Definition timed_out : DownloadTask := {|
  id := 1; indexer_id := 3; title := lit "Dune"; file_format := lit "epub";
  retry_count := 1; max_retries := 3;
  error_message := Some (lit "Read timeout")
|}.

(** The row of [timed_out] while it is downloaded again. *)
Definition timed_out_row : Row := {|
  row_status := DOWNLOADING;
  row_progress_percentage := 0;
  row_download_path := None;
  row_retry_count := 1;
  row_max_retries := 3;
  row_error_message := Some (lit "Read timeout");
  row_started_at := Some 0;
  row_completed_at := None;
  row_updated_at := 0
|}.

Definition one_download : Manager := {|
  db := {[1 := timed_out_row]};
  db_fault := None;
  history := [];
  files := ∅;
  active_downloads := {[1]};
  failure_patterns := ∅
|}.

(** The row of [timed_out] after other attempts have used up its retries:
    the task still holds the counters it was read with, 1 of 3. *)
Definition exhausted_row : Row := {|
  row_status := DOWNLOADING;
  row_progress_percentage := 0;
  row_download_path := None;
  row_retry_count := 3;
  row_max_retries := 3;
  row_error_message := Some (lit "Read timeout");
  row_started_at := Some 0;
  row_completed_at := None;
  row_updated_at := 0
|}.

Definition stale_copy : Manager := {|
  db := {[1 := exhausted_row]};
  db_fault := None;
  history := [];
  files := ∅;
  active_downloads := {[1]};
  failure_patterns := ∅
|}.

(** A task whose title is the stem of the temporary file it gets when the
    clock reads 5 seconds. *)
Definition self_named : DownloadTask := {|
  id := 1; indexer_id := 3; title := lit "temp_1_5"; file_format := lit "epub";
  retry_count := 1; max_retries := 3;
  error_message := None
|}.

(** A response whose first chunk is followed by the shutdown flag. *)
Definition interrupted : transfer :=
  Response 200 (lit "OK") 16384 [Chunk 8192 true; Chunk 8192 false] None.

(** A response refused by the server. *)
Definition refused : transfer :=
  Response 503 (lit "Service Unavailable") 0 [] None.

End AdvancedQueueManager.

(** ** Regular expressions of the [re] module, as far as the sources use
    them on the tail of a string *)

Module Regex.
Import Py.

Inductive regex :=
| Never
| Eps
| Class (p : ascii -> bool)
| Seq (r1 r2 : regex)
| Alt (r1 r2 : regex)
| Star (r : regex).

Definition Plus (r : regex) : regex := Seq r (Star r).
Definition Opt (r : regex) : regex := Alt r Eps.

(** A character of a pattern compiled with [re.IGNORECASE]; [c] is given
    in lower case. *)
Definition Chr (c : ascii) : regex :=
  Class (fun x => ascii_eqb (lower_char x) c).

(** A literal word of such a pattern. *)
Fixpoint Word (w : str) : regex :=
  match w with
  | [] => Eps
  | c :: w' => Seq (Chr c) (Word w')
  end.

Fixpoint nullable (r : regex) : bool :=
  match r with
  | Never => false
  | Eps => true
  | Class _ => false
  | Seq r1 r2 => (nullable r1 && nullable r2)%bool
  | Alt r1 r2 => (nullable r1 || nullable r2)%bool
  | Star _ => true
  end.

(** The residual of [r] after the character [c]. *)
Fixpoint deriv (c : ascii) (r : regex) : regex :=
  match r with
  | Never => Never
  | Eps => Never
  | Class p => if p c then Eps else Never
  | Seq r1 r2 =>
      if nullable r1
      then Alt (Seq (deriv c r1) r2) (deriv c r2)
      else Seq (deriv c r1) r2
  | Alt r1 r2 => Alt (deriv c r1) (deriv c r2)
  | Star r1 => Seq (deriv c r1) (Star r1)
  end.

(** Whether [r] matches the whole of [s]. *)
Fixpoint fullmatch (r : regex) (s : str) : bool :=
  match s with
  | [] => nullable r
  | c :: s' => fullmatch (deriv c r) s'
  end.

(** [re.sub(r + '$', '', s)] for a pattern [r] that ends in [\s*] and
    matches no empty string: the search tries the start positions from
    the left, and the first tail of [s] that [r] matches is removed. *)
Fixpoint sub_at_end (r : regex) (s : str) : str :=
  if fullmatch r s then []
  else match s with
       | [] => []
       | c :: s' => c :: sub_at_end r s'
       end.

(** The strings a pattern denotes. *)
Inductive matches : regex -> str -> Prop :=
| MEps : matches Eps []
| MClass p c : p c = true -> matches (Class p) [c]
| MSeq r1 r2 s1 s2 :
    matches r1 s1 -> matches r2 s2 -> matches (Seq r1 r2) (s1 ++ s2)
| MAltL r1 r2 s : matches r1 s -> matches (Alt r1 r2) s
| MAltR r1 r2 s : matches r2 s -> matches (Alt r1 r2) s
| MStarNil r : matches (Star r) []
| MStarApp r s1 s2 :
    matches r s1 -> matches (Star r) s2 -> matches (Star r) (s1 ++ s2).

(** The tails of a string, longest first, the empty one included. *)
Fixpoint tails (s : str) : list str :=
  s :: match s with
       | [] => []
       | _ :: s' => tails s'
       end.

(** Whether [re.search(r + '$', s)] finds a match. *)
Definition search_at_end (r : regex) (s : str) : bool :=
  existsb (fullmatch r) (tails s).

End Regex.

(** ** [duplicate_detector.py] *)

Module DuplicateDetector.
Import Py Regex.

(** [unicodedata.normalize('NFKD', s)] on 7-bit text. *)
Definition nfkd (s : str) : str := s.

(** *** Normalisation *)

Definition is_hyphen (c : ascii) : bool := N.eqb (code c) 45.
Definition is_period (c : ascii) : bool := N.eqb (code c) 46.
Definition is_comma (c : ascii) : bool := N.eqb (code c) 44.

(** The class [[-\s]] of [_normalize_isbn]. *)
Definition isbn_separator (c : ascii) : bool := (is_hyphen c || is_space c)%bool.

(** The complement of the class [[^\w\s.]] of [_normalize_author]. *)
Definition author_char (c : ascii) : bool :=
  (is_word c || is_space c || is_period c)%bool.

(** The complement of the class [[^\w\s]] of [_normalize_title]. *)
Definition title_char (c : ascii) : bool := (is_word c || is_space c)%bool.

(** [re.sub(cls, '', s)] for a character class [cls]. *)
Definition remove_chars (cls : ascii -> bool) (s : str) : str :=
  List.filter (fun c => negb (cls c)) s.

(** [_normalize_isbn]. *)
Definition _normalize_isbn (isbn : str) : str :=
  if negb (truthy isbn) then []
  else upper (remove_chars isbn_separator isbn).

Definition articles : list str :=
  [lit "the "; lit "a "; lit "an "; lit "le "; lit "la "; lit "les ";
   lit "un "; lit "une "].

(** The loop over [articles], with its [break]. *)
Fixpoint strip_article (arts : list str) (normalized : str) : str :=
  match arts with
  | [] => normalized
  | article :: arts' =>
      if startswith article normalized
      then skipn (length article) normalized
      else strip_article arts' normalized
  end.

Definition ws : regex := Class is_space.
Definition digit : regex := Class is_digit.

(** [edition_patterns], each without its final [$]. *)
Definition edition_patterns : list regex :=
  [ Seq (Star ws)
      (Seq (Plus digit)
        (Seq (Opt (Alt (Word (lit "st"))
                    (Alt (Word (lit "nd"))
                      (Alt (Word (lit "rd")) (Word (lit "th"))))))
          (Seq (Star ws) (Seq (Word (lit "edition")) (Star ws)))));
    Seq (Star ws) (Seq (Word (lit "revised"))
      (Seq (Star ws) (Seq (Word (lit "edition")) (Star ws))));
    Seq (Star ws) (Seq (Word (lit "updated"))
      (Seq (Star ws) (Seq (Word (lit "edition")) (Star ws))));
    Seq (Star ws) (Seq (Word (lit "expanded"))
      (Seq (Star ws) (Seq (Word (lit "edition")) (Star ws)))) ].

(** The loop over [edition_patterns]. *)
Definition strip_editions (normalized : str) : str :=
  fold_left (fun n pattern => sub_at_end pattern n) edition_patterns normalized.

(** The body of [_normalize_title] between the cache lookup and the cache
    update. *)
Definition normalize_title_steps (title : str) : str :=
  let normalized := nfkd title in
  let normalized := lower normalized in
  let normalized := strip_article articles normalized in
  let normalized := remove_chars (fun c => negb (title_char c)) normalized in
  let normalized := strip (collapse_ws normalized) in
  strip_editions normalized.

(** [_normalize_title]: the result and [self.normalized_title_cache]
    after the call. *)
Definition _normalize_title (similarity_cache_size : nat) (title : str)
  (cache : gmap str str) : str * gmap str str :=
  if negb (truthy title) then ([], cache)
  else
    match cache !! title with
    | Some cached => (cached, cache)
    | None =>
        let normalized := normalize_title_steps title in
        (normalized,
         if (size cache <? similarity_cache_size)%nat
         then <[title := normalized]> cache
         else cache)
    end.

(** [s.split(',', 1)] when [s] has a comma: the text before the first
    comma and the text after it. *)
Fixpoint split_comma (s : str) : str * str :=
  match s with
  | [] => ([], [])
  | c :: s' =>
      if is_comma c then ([], s')
      else let '(a, b) := split_comma s' in (c :: a, b)
  end.

(** [_normalize_author]. *)
Definition _normalize_author (author : str) : str :=
  if negb (truthy author) then []
  else
    let normalized := nfkd author in
    let normalized := lower normalized in
    let normalized := remove_chars (fun c => negb (author_char c)) normalized in
    let normalized := strip (collapse_ws normalized) in
    if existsb is_comma normalized
    then
      let '(last, first) := split_comma normalized in
      let last_name := strip last in
      let first_name := strip first in
      strip (first_name ++ lit " " ++ last_name)
    else normalized.

(** [re.search(r'\d{4}', s)]: the first four consecutive digits. *)
Fixpoint search_year (s : str) : option str :=
  match s with
  | [] => None
  | a :: s' =>
      match s' with
      | b :: c :: d :: _ =>
          if (is_digit a && is_digit b && is_digit c && is_digit d)%bool
          then Some [a; b; c; d]
          else search_year s'
      | _ => None
      end
  end.

(** [_normalize_date]. *)
Definition _normalize_date (date_str : str) : str :=
  if negb (truthy date_str) then []
  else
    match search_year date_str with
    | Some year => year
    | None => []
    end.

(** *** Normal forms *)

(** White space as [collapse_ws] leaves it: single blanks, none after a
    blank ([after_space] tells whether the previous character was one). *)
Fixpoint single_spaced (after_space : bool) (s : str) : bool :=
  match s with
  | [] => true
  | c :: s' =>
      if is_space c
      then (negb after_space && ascii_eqb c " "%char && single_spaced true s')%bool
      else single_spaced false s'
  end.

(** Whether a title begins with one of the articles. *)
Definition starts_with_article (t : str) : bool :=
  existsb (fun article => startswith article t) articles.

(** Whether one of the edition patterns matches at the end of a title. *)
Definition has_edition_marker (t : str) : bool :=
  existsb (fun pattern => search_at_end pattern t) edition_patterns.

(** The entries of [normalized_title_cache] are results of the
    normalisation, as they are when every entry was written by
    [_normalize_title]. *)
Definition title_cache_coherent (cache : gmap str str) : Prop :=
  forall title normalized,
    cache !! title = Some normalized ->
    normalized = normalize_title_steps title.

(** The form of a title after lower-casing, removal of punctuation,
    collapsing and stripping. *)
Record tidy (x : str) : Prop := {
  tidy_chars : Forall (fun c => lower_char c = c /\ title_char c = true) x;
  tidy_spaced : single_spaced false x = true;
  tidy_left : lstrip x = x;
  tidy_right : rstrip x = x
}.

(** *** String similarity *)

Definition str_eqb (a b : str) : bool := bool_decide (a = b).

(** The inner loop of [levenshtein_distance]: from [previous_row[j:]] and
    [current_row[j]], the entries [current_row[j+1:]]. *)
Fixpoint current_row_from (c1 : ascii) (s2 : str) (previous : list Z)
  (current_j : Z) : list Z :=
  match s2, previous with
  | c2 :: s2', p_j :: ((p_j1 :: _) as previous') =>
      let insertions := p_j1 + 1 in
      let deletions := current_j + 1 in
      let substitutions := p_j + (if ascii_eqb c1 c2 then 0 else 1) in
      let v := Z.min (Z.min insertions deletions) substitutions in
      v :: current_row_from c1 s2' previous' v
  | _, _ => []
  end.

(** The outer loop, from row [i]. *)
Fixpoint rows (i : Z) (s1 s2 : str) (previous_row : list Z) : list Z :=
  match s1 with
  | [] => previous_row
  | c1 :: s1' =>
      let current_row := (i + 1) :: current_row_from c1 s2 previous_row (i + 1) in
      rows (i + 1) s1' s2 current_row
  end.

Definition range_Z (n : nat) : list Z := map Z.of_nat (seq 0 n).

Definition levenshtein_distance (s1 s2 : str) : Z :=
  let '(s1, s2) := if (length s1 <? length s2)%nat then (s2, s1) else (s1, s2) in
  if (length s2 =? 0)%nat then Z.of_nat (length s1)
  else List.last (rows 0 s1 s2 (range_Z (length s2 + 1))) 0.

(** [_levenshtein_similarity]. *)
Definition _levenshtein_similarity (str1 str2 : str) : Q :=
  let max_len := Nat.max (length str1) (length str2) in
  if (max_len =? 0)%nat then 1%Q
  else (1 - inject_Z (levenshtein_distance str1 str2)
              / inject_Z (Z.of_nat max_len))%Q.

(** [max(a, b)] of Python: the first argument unless the second is
    strictly greater. *)
Definition py_max (a b : Q) : Q :=
  match Qcompare b a with
  | Gt => b
  | _ => a
  end.

Section Similarity.

(** [difflib.SequenceMatcher(None, a, b).ratio()], from Python's standard
    library. *)
Variable seq_ratio : str -> str -> Q.

(** [_calculate_string_similarity]: the result and [self.similarity_cache]
    after the call. *)
Definition _calculate_string_similarity (similarity_cache_size : nat)
  (str1 str2 : str) (cache : gmap str Q) : Q * gmap str Q :=
  if (negb (truthy str1) || negb (truthy str2))%bool then (0%Q, cache)
  else if str_eqb str1 str2 then (1%Q, cache)
  else
    let cache_key := str1 ++ lit "::" ++ str2 in
    match cache !! cache_key with
    | Some cached => (cached, cache)
    | None =>
        let similarity := seq_ratio str1 str2 in
        let similarity :=
          if ((length str1 <? 100)%nat && (length str2 <? 100)%nat)%bool
          then py_max similarity (_levenshtein_similarity str1 str2)
          else similarity in
        (similarity,
         if (size cache <? similarity_cache_size)%nat
         then <[cache_key := similarity]> cache
         else cache)
    end.

End Similarity.

(** *** Matches *)

Inductive DuplicateType :=
| EXACT_MATCH
| FUZZY_MATCH
| ISBN_MATCH
| CONTENT_HASH_MATCH
| SIMILAR_TITLE_AUTHOR.

Inductive MatchConfidence := HIGH | MEDIUM | LOW.

(** [confidence.value]. *)
Definition confidence_value (c : MatchConfidence) : str :=
  match c with
  | HIGH => lit "high"
  | MEDIUM => lit "medium"
  | LOW => lit "low"
  end.

(** A [BookRecord], by the fields that identify and describe a book to the
    matching strategies. *)
Record BookRecord := {
  id : Z;
  title : str;
  authors : list str;
  isbn_10 : option str;
  isbn_13 : option str;
  asin : option str;
  publication_date : option str;
  publisher : option str;
  total_file_size : Z
}.

Record DuplicateMatch := {
  book1 : BookRecord;
  book2 : BookRecord;
  duplicate_type : DuplicateType;
  confidence : MatchConfidence;
  similarity_score : Q
}.

(** [tuple(sorted([match.book1.id, match.book2.id]))]. *)
Definition canonical_pair (m : DuplicateMatch) : Z * Z :=
  (Z.min (id (book1 m)) (id (book2 m)), Z.max (id (book1 m)) (id (book2 m))).

(** The loop of [_deduplicate_matches], from a given [seen_pairs]. *)
Fixpoint dedup_loop (matches : list DuplicateMatch) (seen_pairs : gset (Z * Z))
  : list DuplicateMatch :=
  match matches with
  | [] => []
  | m :: rest =>
      let pair := canonical_pair m in
      if decide (pair ∈ seen_pairs)
      then dedup_loop rest seen_pairs
      else m :: dedup_loop rest ({[pair]} ∪ seen_pairs)
  end.

(** [_deduplicate_matches]. *)
Definition _deduplicate_matches (matches : list DuplicateMatch)
  : list DuplicateMatch :=
  dedup_loop matches ∅.

(** Order of Python strings: by code point, a proper prefix first. *)
Fixpoint str_compare (a b : str) : comparison :=
  match a, b with
  | [], [] => Eq
  | [], _ :: _ => Lt
  | _ :: _, [] => Gt
  | x :: a', y :: b' =>
      match N.compare (code x) (code y) with
      | Eq => str_compare a' b'
      | o => o
      end
  end.

(** The sort key [(x.confidence.value, x.similarity_score)] and the order
    of such tuples. *)
Definition sort_key (m : DuplicateMatch) : str * Q :=
  (confidence_value (confidence m), similarity_score m).

Definition key_lt (k1 k2 : str * Q) : bool :=
  match str_compare (fst k1) (fst k2) with
  | Lt => true
  | Gt => false
  | Eq => match Qcompare (snd k1) (snd k2) with Lt => true | _ => false end
  end.

(** [list.sort(key=..., reverse=True)]: descending and stable. *)
Fixpoint insert_desc (x : DuplicateMatch) (l : list DuplicateMatch)
  : list DuplicateMatch :=
  match l with
  | [] => [x]
  | y :: l' =>
      if key_lt (sort_key x) (sort_key y) then y :: insert_desc x l'
      else x :: l
  end.

Definition sort_desc (l : list DuplicateMatch) : list DuplicateMatch :=
  fold_right insert_desc [] l.

Section Detection.

(** The four matching strategies, as functions of the book, its index and
    the list of all books; each builds its own indices and similarity
    scores from these. *)
Variable _find_isbn_duplicates :
  BookRecord -> list BookRecord -> list DuplicateMatch.
Variable _find_asin_duplicates :
  BookRecord -> list BookRecord -> list DuplicateMatch.
Variable _find_fuzzy_title_author_matches :
  BookRecord -> list BookRecord -> nat -> list DuplicateMatch.
Variable _find_content_hash_duplicates :
  BookRecord -> list BookRecord -> nat -> list DuplicateMatch.

Variables enable_isbn_matching enable_content_hash_matching : bool.

(** The body of the [for i, book1 in enumerate(books)] loop: what one
    book adds to [duplicates]. *)
Definition matches_of (books : list BookRecord) (i : nat) (book1 : BookRecord)
  : list DuplicateMatch :=
  (if enable_isbn_matching then _find_isbn_duplicates book1 books else [])
  ++ _find_asin_duplicates book1 books
  ++ _find_fuzzy_title_author_matches book1 books i
  ++ (if enable_content_hash_matching
      then _find_content_hash_duplicates book1 books i else []).

Fixpoint collect (books : list BookRecord) (i : nat) (todo : list BookRecord)
  : list DuplicateMatch :=
  match todo with
  | [] => []
  | book1 :: todo' => matches_of books i book1 ++ collect books (S i) todo'
  end.

(** [detect_duplicates] on a given list of books. *)
Definition detect_duplicates (books : list BookRecord) : list DuplicateMatch :=
  let duplicates := collect books 0%nat books in
  let unique_duplicates := _deduplicate_matches duplicates in
  sort_desc unique_duplicates.

End Detection.

End DuplicateDetector.

(** ** [database_optimizer.py] *)

Module DatabaseOptimizer.
Import Py.

Inductive MaintenanceType :=
| VACUUM
| REINDEX
| ANALYZE
| CLEANUP
| BACKUP
| INTEGRITY_CHECK.

Definition type_eqb (a b : MaintenanceType) : bool :=
  match a, b with
  | VACUUM, VACUUM | REINDEX, REINDEX | ANALYZE, ANALYZE
  | CLEANUP, CLEANUP | BACKUP, BACKUP
  | INTEGRITY_CHECK, INTEGRITY_CHECK => true
  | _, _ => false
  end.

Inductive OptimizationStatus :=
| SUCCESS
| FAILED
| SKIPPED
| PARTIAL
| IN_PROGRESS.

Definition status_eqb (a b : OptimizationStatus) : bool :=
  match a, b with
  | SUCCESS, SUCCESS | FAILED, FAILED | SKIPPED, SKIPPED
  | PARTIAL, PARTIAL | IN_PROGRESS, IN_PROGRESS => true
  | _, _ => false
  end.

(** A [MaintenanceTask], by kind, outcome and error text. *)
Record MaintenanceTask := {
  task_type : MaintenanceType;
  status : OptimizationStatus;
  error_message : option str
}.

(** What the two pragmas of the integrity check answer: the rows of
    [PRAGMA quick_check] (first column) and the number of rows of
    [PRAGMA foreign_key_check]; or the exception raised on the way. *)
Inductive pragma_answers :=
| Answers (quick_check_results : list str) (fk_violations : nat)
| Raises (msg : str).

(** [len(quick_check_results) == 1 and quick_check_results[0][0] == 'ok']. *)
Definition quick_check_ok (quick_check_results : list str) : bool :=
  match quick_check_results with
  | [r] => bool_decide (r = lit "ok")
  | _ => false
  end.

(** [perform_integrity_check]. *)
Definition perform_integrity_check (a : pragma_answers) : MaintenanceTask :=
  match a with
  | Answers quick_check_results fk_violations =>
      let fk_check_ok := (fk_violations =? 0)%nat in
      {| task_type := INTEGRITY_CHECK;
         status := if (quick_check_ok quick_check_results && fk_check_ok)%bool
                   then SUCCESS else PARTIAL;
         error_message := None |}
  | Raises msg =>
      {| task_type := INTEGRITY_CHECK; status := FAILED;
         error_message := Some msg |}
  end.

(** The part of [DatabaseStats] the workflow reads. *)
Record DatabaseStats := {
  database_size_bytes : Z;
  fragmentation_percent : Q
}.

Section Workflow.

(** The thresholds of the configuration. *)
Variables auto_vacuum_threshold fragmentation_threshold : Q.

(** How a task of each kind turns out when it is performed: its status
    and error text, as the database makes them. *)
Variable outcome : MaintenanceType -> OptimizationStatus * option str.

(** [perform_cleanup], [perform_analyze], [perform_reindex],
    [perform_vacuum] and [create_backup], by kind. *)
Definition perform (kind : MaintenanceType) : MaintenanceTask := {|
  task_type := kind;
  status := fst (outcome kind);
  error_message := snd (outcome kind)
|}.

(** [a > b] on floats. *)
Definition gt (a b : Q) : bool :=
  match Qcompare a b with
  | Gt => true
  | _ => false
  end.

(** [tasks_performed] of [run_comprehensive_optimization], for the initial
    statistics and the answers to the integrity pragmas. *)
Definition run_comprehensive_optimization (initial_stats : DatabaseStats)
  (a : pragma_answers) : list MaintenanceTask :=
  let integrity_task := perform_integrity_check a in
  let tasks_performed := [integrity_task] in
  if status_eqb (status integrity_task) FAILED then tasks_performed
  else
    let tasks_performed := tasks_performed ++ [perform CLEANUP] in
    let tasks_performed := tasks_performed ++ [perform ANALYZE] in
    let fragmented :=
      gt (fragmentation_percent initial_stats) fragmentation_threshold in
    let tasks_performed :=
      if fragmented then tasks_performed ++ [perform REINDEX]
      else tasks_performed in
    let db_size_mb :=
      (inject_Z (database_size_bytes initial_stats) / 1024 / 1024)%Q in
    let tasks_performed :=
      if (gt db_size_mb auto_vacuum_threshold || fragmented)%bool
      then tasks_performed ++ [perform VACUUM]
      else tasks_performed in
    tasks_performed ++ [perform BACKUP].

End Workflow.

(** Whether a task of a given kind is among the tasks of a run. *)
Definition performed (kind : MaintenanceType) (tasks : list MaintenanceTask)
  : bool :=
  existsb (fun t => type_eqb (task_type t) kind) tasks.

(** *** Sample data *)

(** A database whose quick check passes and which has one foreign-key
    violation. *)
Definition one_fk_violation : pragma_answers := Answers [lit "ok"] 1.

Definition small_database : DatabaseStats := {|
  database_size_bytes := 1048576;
  fragmentation_percent := 0
|}.

Definition all_succeed (kind : MaintenanceType)
  : OptimizationStatus * option str := (SUCCESS, None).

End DatabaseOptimizer.

(** ** Runs of the download task and of the failure log *)

Module QueueRuns.
Import Py AdvancedQueueManager.

(** The bytes the chunk loop has written when it has gone through
    [chunks]. *)
Fixpoint total_bytes (chunks : list chunk) : Z :=
  match chunks with
  | [] => 0
  | Chunk size _ :: rest => size + total_bytes rest
  | _ :: rest => total_bytes rest
  end.

(** Every iteration wrote its chunk, of a length that is not negative,
    and saw no shutdown flag. *)
Definition all_delivered (chunks : list chunk) : bool :=
  forallb (fun c => match c with
                    | Chunk size false => 0 <=? size
                    | _ => false
                    end) chunks.

(** What a manager has beside the queue table. *)
Definition same_outside_db (m m' : Manager) : Prop :=
  db_fault m' = db_fault m /\
  history m' = history m /\
  files m' = files m /\
  active_downloads m' = active_downloads m /\
  failure_patterns m' = failure_patterns m.

(** Failures of one indexer recorded one after the other, at the given
    clock readings. *)
Definition record_failures (times : list Z) (indexer : Z) (msg : str)
  (m : Manager) : Manager :=
  fold_left (fun m t => _record_failure_pattern t indexer msg m) times m.

(** The entry [_record_failure_pattern] appends. *)
Definition entry (msg : str) (t : Z) : FailureEntry :=
  {| timestamp := t; error := msg |}.

(** The message of the exception raised for a response that is not 200. *)
Definition http_error (status : Z) (reason : str) : str :=
  lit "HTTP " ++ str_of_int status ++ lit ": " ++ reason.

End QueueRuns.

(** ** indexer_health/failover_manager.py: the load balancer *)

Module LoadBalancer.
Import Py.

Inductive IndexerStatus := HEALTHY | DEGRADED | DOWN | MAINTENANCE | RECOVERING.

Inductive FailoverStrategy :=
| ROUND_ROBIN
| PRIORITY_BASED
| RESPONSE_TIME_BASED
| LOAD_BALANCED
| INTELLIGENT.

Definition is_status (a b : IndexerStatus) : bool :=
  match a, b with
  | HEALTHY, HEALTHY | DEGRADED, DEGRADED | DOWN, DOWN
  | MAINTENANCE, MAINTENANCE | RECOVERING, RECOVERING => true
  | _, _ => false
  end.

Record IndexerNode := {
  id : Z;
  name : str;
  indexer_type : str;
  base_url : str;
  api_key : str;
  priority : Z;
  is_active : bool;
  timeout_seconds : Z;
  rate_limit_requests : Z;
  rate_limit_window : Z
}.

Record HealthMetrics := {
  indexer_id : Z;
  status : IndexerStatus;
  response_time_ms : option Z;
  success_rate : Q;
  consecutive_failures : Z;
  last_success : option Z;
  last_failure : option Z;
  requests_per_minute : Q;
  error_rate : Q;
  availability_percentage : Q
}.

(** What a call does: it returns a value or raises an exception. *)
Inductive outcome (A : Type) :=
| Returns (a : A)
| Raises.
Arguments Returns {A} a.
Arguments Raises {A}.

(** The attributes of a [LoadBalancer].  [request_counts] is a
    [defaultdict(int)] and [response_times] a [defaultdict(deque)]; both are
    read by indexing only, so that a missing key reads as [0] and as the
    empty deque. *)
Record t := {
  strategy : FailoverStrategy;
  request_counts : gmap Z Z;
  response_times : gmap Z (list Z);
  last_used_index : Z
}.

(** [__init__]. *)
Definition init (strategy : FailoverStrategy) : t := {|
  strategy := strategy;
  request_counts := ∅;
  response_times := ∅;
  last_used_index := 0
|}.

Definition request_count (lb : t) (indexer_id : Z) : Z :=
  default 0 (request_counts lb !! indexer_id).

Definition response_history (lb : t) (indexer_id : Z) : list Z :=
  default [] (response_times lb !! indexer_id).

(** The values the selection keys take: a number, or [float('inf')]
    ([None]). *)
Definition score := option Q.

(** [a < b] on keys. *)
Definition score_lt (a b : score) : bool :=
  match a, b with
  | Some x, Some y => match (x ?= y)%Q with Lt => true | _ => false end
  | Some _, None => true
  | None, _ => false
  end.

(** [min(best :: rest, key=key)]: the builtin keeps the first item and
    replaces it by a later one only when the later key is strictly less. *)
Fixpoint min_from {A : Type} (key : A -> score) (best : A) (rest : list A) : A :=
  match rest with
  | [] => best
  | x :: rest => min_from key (if score_lt (key x) (key best) then x else best) rest
  end.

(** [min(items, key=key)]; [ValueError] on an empty sequence. *)
Definition py_min_key {A : Type} (key : A -> score) (items : list A) : outcome A :=
  match items with
  | [] => Raises
  | x :: rest => Returns (min_from key x rest)
  end.

(** [_round_robin_selection]: [%] raises on an empty list, before the
    counter moves. *)
Definition _round_robin_selection (indexers : list IndexerNode) (lb : t)
  : outcome IndexerNode * t :=
  match indexers with
  | [] => (Raises, lb)
  | _ :: _ =>
      match indexers !! Z.to_nat (last_used_index lb mod Z.of_nat (length indexers)) with
      | Some indexer =>
          (Returns indexer,
           {| strategy := strategy lb;
              request_counts := request_counts lb;
              response_times := response_times lb;
              last_used_index := last_used_index lb + 1 |})
      | None => (Raises, lb)
      end
  end.

(** [_priority_based_selection]. *)
Definition _priority_based_selection (indexers : list IndexerNode)
  : outcome IndexerNode :=
  py_min_key (fun x => Some (inject_Z (priority x))) indexers.

(** [get_avg_response_time]: a response time of [None] or [0] is falsy. *)
Definition get_avg_response_time (health_metrics : gmap Z HealthMetrics)
  (indexer : IndexerNode) : score :=
  match health_metrics !! id indexer with
  | Some metrics =>
      match response_time_ms metrics with
      | Some ms => if ms =? 0 then None else Some (inject_Z ms)
      | None => None
      end
  | None => None
  end.

(** [_response_time_based_selection]. *)
Definition _response_time_based_selection (indexers : list IndexerNode)
  (health_metrics : gmap Z HealthMetrics) : outcome IndexerNode :=
  py_min_key (get_avg_response_time health_metrics) indexers.

(** [_load_balanced_selection]. *)
Definition _load_balanced_selection (indexers : list IndexerNode) (lb : t)
  : outcome IndexerNode :=
  py_min_key (fun x => Some (inject_Z (request_count lb (id x)))) indexers.

(** [calculate_score] of [_intelligent_selection]. *)
Definition calculate_score (lb : t) (health_metrics : gmap Z HealthMetrics)
  (indexer : IndexerNode) : score :=
  match health_metrics !! id indexer with
  | None => None
  | Some metrics =>
      let response_time_score :=
        match response_time_ms metrics with
        | Some ms => if ms =? 0 then 1000 else ms
        | None => 1000
        end in
      let success_rate_score := ((100 - success_rate metrics) * 10)%Q in
      let load_score := request_count lb (id indexer) * 10 in
      let priority_score := priority indexer * 50 in
      match status metrics with
      | DOWN => None
      | st =>
          let response_time_score :=
            if is_status st DEGRADED
            then response_time_score + 500 else response_time_score in
          let response_time_score :=
            if consecutive_failures metrics >? 0
            then response_time_score + consecutive_failures metrics * 100
            else response_time_score in
          Some (inject_Z response_time_score + success_rate_score
                + inject_Z load_score + inject_Z priority_score)%Q
      end
  end.

(** [_intelligent_selection]. *)
Definition _intelligent_selection (indexers : list IndexerNode)
  (health_metrics : gmap Z HealthMetrics) (lb : t) : outcome IndexerNode :=
  py_min_key (calculate_score lb health_metrics) indexers.

(** [select_indexer]: the selected node, if any, and the balancer after the
    call.  The five strategies are all the members of the enumeration. *)
Definition select_indexer (available_indexers : list IndexerNode)
  (health_metrics : gmap Z HealthMetrics) (lb : t)
  : outcome (option IndexerNode) * t :=
  match available_indexers with
  | [] => (Returns None, lb)
  | _ :: _ =>
      let '(selected, lb') :=
        match strategy lb with
        | ROUND_ROBIN => _round_robin_selection available_indexers lb
        | PRIORITY_BASED => (_priority_based_selection available_indexers, lb)
        | RESPONSE_TIME_BASED =>
            (_response_time_based_selection available_indexers health_metrics, lb)
        | LOAD_BALANCED => (_load_balanced_selection available_indexers lb, lb)
        | INTELLIGENT =>
            (_intelligent_selection available_indexers health_metrics lb, lb)
        end in
      match selected with
      | Returns indexer => (Returns (Some indexer), lb')
      | Raises => (Raises, lb')
      end
  end.

(** [record_request]. *)
Definition record_request (indexer_id response_time_ms : Z) (lb : t) : t :=
  let times := response_history lb indexer_id in
  let times := if (100 <=? Z.of_nat (length times)) then tl times else times in
  {| strategy := strategy lb;
     request_counts :=
       <[indexer_id := request_count lb indexer_id + 1]> (request_counts lb);
     response_times :=
       <[indexer_id := times ++ [response_time_ms]]> (response_times lb);
     last_used_index := last_used_index lb |}.

(** Successive calls of [select_indexer] on the same candidates: the
    selections, oldest first, and the balancer after the last one. *)
Fixpoint select_repeatedly (calls : nat) (available_indexers : list IndexerNode)
  (health_metrics : gmap Z HealthMetrics) (lb : t)
  : list (outcome (option IndexerNode)) * t :=
  match calls with
  | O => ([], lb)
  | S calls =>
      let '(selected, lb) := select_indexer available_indexers health_metrics lb in
      let '(others, lb) :=
        select_repeatedly calls available_indexers health_metrics lb in
      (selected :: others, lb)
  end.

(** The candidate a round-robin selection returns when the counter is at
    [s + j]. *)
Definition pick (available : list IndexerNode) (s : Z) (j : nat)
  : outcome (option IndexerNode) :=
  match available !! Z.to_nat ((s + Z.of_nat j) mod Z.of_nat (length available)) with
  | Some x => Returns (Some x)
  | None => Raises
  end.

(** The last [k] items of a list. *)
Definition last_items {A : Type} (k : nat) (l : list A) : list A :=
  drop (length l - k) l.

(** Requests recorded one after the other for one indexer. *)
Definition record_requests (indexer_id : Z) (times : list Z) (lb : t) : t :=
  fold_left (fun lb ms => record_request indexer_id ms lb) times lb.

(** Sample data: an active node with the defaults of
    [load_indexer_configurations], and the metrics of a check that was
    answered in [ms] milliseconds. *)
Definition node (i p : Z) : IndexerNode := {|
  id := i; name := []; indexer_type := []; base_url := []; api_key := [];
  priority := p; is_active := true; timeout_seconds := 30;
  rate_limit_requests := 60; rate_limit_window := 60
|}.

Definition metrics (i : Z) (st : IndexerStatus) (ms : Z) : HealthMetrics := {|
  indexer_id := i; status := st; response_time_ms := Some ms;
  success_rate := 100; consecutive_failures := 0;
  last_success := None; last_failure := None;
  requests_per_minute := 0; error_rate := 0; availability_percentage := 100
|}.

End LoadBalancer.

(** ** indexer_health/failover_manager.py: the failover manager *)

Module FailoverManager.
Import Py LoadBalancer.

Record FailoverEvent := {
  timestamp : Z;
  from_indexer_id : Z;
  to_indexer_id : Z;
  reason : str;
  success : bool;
  recovery_time_seconds : option Q
}.

(** An entry of [request_metrics]. *)
Record RequestMetrics := {
  total_requests : Z;
  successful_requests : Z;
  failed_requests : Z;
  avg_response_time : Q;
  last_request_time : option Z
}.

(** The entry the [defaultdict] creates for a new key. *)
Definition new_request_metrics : RequestMetrics := {|
  total_requests := 0;
  successful_requests := 0;
  failed_requests := 0;
  avg_response_time := 0;
  last_request_time := None
|}.

(** The state of a [FailoverManager].  [indexer_nodes] is a dictionary
    that is iterated, in insertion order; [max_recovery_attempts] is
    [config['failover']['max_recovery_attempts']], 5 when absent;
    [recovery_attempts] is a [defaultdict(list)]. *)
Record t := {
  failure_threshold : Z;
  circuit_breaker_timeout : Z;
  max_recovery_attempts : Z;
  indexer_nodes : list (Z * IndexerNode);
  health_metrics : gmap Z HealthMetrics;
  circuit_breakers : gmap Z CircuitBreaker.t;
  load_balancer : LoadBalancer.t;
  failover_history : list FailoverEvent;
  recovery_attempts : gmap Z (list Z);
  request_metrics : gmap Z RequestMetrics
}.

(** [__init__], with the values read from the configuration. *)
Definition init (failure_threshold circuit_breaker_timeout max_recovery_attempts : Z)
  (strategy : FailoverStrategy) : t := {|
  failure_threshold := failure_threshold;
  circuit_breaker_timeout := circuit_breaker_timeout;
  max_recovery_attempts := max_recovery_attempts;
  indexer_nodes := [];
  health_metrics := ∅;
  circuit_breakers := ∅;
  load_balancer := LoadBalancer.init strategy;
  failover_history := [];
  recovery_attempts := ∅;
  request_metrics := ∅
|}.

Definition with_nodes (nodes : list (Z * IndexerNode)) (m : t) : t := {|
  failure_threshold := failure_threshold m;
  circuit_breaker_timeout := circuit_breaker_timeout m;
  max_recovery_attempts := max_recovery_attempts m;
  indexer_nodes := nodes;
  health_metrics := health_metrics m;
  circuit_breakers := circuit_breakers m;
  load_balancer := load_balancer m;
  failover_history := failover_history m;
  recovery_attempts := recovery_attempts m;
  request_metrics := request_metrics m
|}.

Definition with_health (health : gmap Z HealthMetrics) (m : t) : t := {|
  failure_threshold := failure_threshold m;
  circuit_breaker_timeout := circuit_breaker_timeout m;
  max_recovery_attempts := max_recovery_attempts m;
  indexer_nodes := indexer_nodes m;
  health_metrics := health;
  circuit_breakers := circuit_breakers m;
  load_balancer := load_balancer m;
  failover_history := failover_history m;
  recovery_attempts := recovery_attempts m;
  request_metrics := request_metrics m
|}.

Definition with_breakers (breakers : gmap Z CircuitBreaker.t) (m : t) : t := {|
  failure_threshold := failure_threshold m;
  circuit_breaker_timeout := circuit_breaker_timeout m;
  max_recovery_attempts := max_recovery_attempts m;
  indexer_nodes := indexer_nodes m;
  health_metrics := health_metrics m;
  circuit_breakers := breakers;
  load_balancer := load_balancer m;
  failover_history := failover_history m;
  recovery_attempts := recovery_attempts m;
  request_metrics := request_metrics m
|}.

Definition with_load_balancer (lb : LoadBalancer.t) (m : t) : t := {|
  failure_threshold := failure_threshold m;
  circuit_breaker_timeout := circuit_breaker_timeout m;
  max_recovery_attempts := max_recovery_attempts m;
  indexer_nodes := indexer_nodes m;
  health_metrics := health_metrics m;
  circuit_breakers := circuit_breakers m;
  load_balancer := lb;
  failover_history := failover_history m;
  recovery_attempts := recovery_attempts m;
  request_metrics := request_metrics m
|}.

Definition with_history (history : list FailoverEvent) (m : t) : t := {|
  failure_threshold := failure_threshold m;
  circuit_breaker_timeout := circuit_breaker_timeout m;
  max_recovery_attempts := max_recovery_attempts m;
  indexer_nodes := indexer_nodes m;
  health_metrics := health_metrics m;
  circuit_breakers := circuit_breakers m;
  load_balancer := load_balancer m;
  failover_history := history;
  recovery_attempts := recovery_attempts m;
  request_metrics := request_metrics m
|}.

Definition with_attempts (attempts : gmap Z (list Z)) (m : t) : t := {|
  failure_threshold := failure_threshold m;
  circuit_breaker_timeout := circuit_breaker_timeout m;
  max_recovery_attempts := max_recovery_attempts m;
  indexer_nodes := indexer_nodes m;
  health_metrics := health_metrics m;
  circuit_breakers := circuit_breakers m;
  load_balancer := load_balancer m;
  failover_history := failover_history m;
  recovery_attempts := attempts;
  request_metrics := request_metrics m
|}.

Definition with_request_metrics (metrics : gmap Z RequestMetrics) (m : t) : t := {|
  failure_threshold := failure_threshold m;
  circuit_breaker_timeout := circuit_breaker_timeout m;
  max_recovery_attempts := max_recovery_attempts m;
  indexer_nodes := indexer_nodes m;
  health_metrics := health_metrics m;
  circuit_breakers := circuit_breakers m;
  load_balancer := load_balancer m;
  failover_history := failover_history m;
  recovery_attempts := recovery_attempts m;
  request_metrics := metrics
|}.

(** What a call takes from outside the manager: the clock reading when the
    breaker of a given indexer is consulted or told of a failure, the clock
    reading [datetime.now()] of the call itself, and what
    [perform_health_check] answers for a node. *)
Record World := {
  clock : Z -> Z;
  now : Z;
  probe : IndexerNode -> HealthMetrics
}.

(** [self.indexer_nodes[indexer_id]]; [None] is the [KeyError]. *)
Fixpoint node_of (indexer_id : Z) (nodes : list (Z * IndexerNode))
  : option IndexerNode :=
  match nodes with
  | [] => None
  | (node_id, node) :: rest =>
      if node_id =? indexer_id then Some node else node_of indexer_id rest
  end.

(** [nodes[node_id] = node] on a dictionary in insertion order: a key that
    is present keeps its place. *)
Fixpoint dict_set (node_id : Z) (node : IndexerNode)
  (nodes : list (Z * IndexerNode)) : list (Z * IndexerNode) :=
  match nodes with
  | [] => [(node_id, node)]
  | (k, v) :: rest =>
      if k =? node_id then (k, node) :: rest
      else (k, v) :: dict_set node_id node rest
  end.

(** A row of the query of [load_indexer_configurations]; a column that
    may be NULL is an [option]. *)
Record IndexerRow := {
  row_id : Z;
  row_name : str;
  row_indexer_type : str;
  row_base_url : str;
  row_api_key : option str;
  row_priority : option Z;
  row_is_active : Z;
  row_timeout_seconds : option Z;
  row_rate_limit_requests : option Z;
  row_rate_limit_window : option Z
}.

(** [value or fallback] on an integer column. *)
Definition int_or (value : option Z) (fallback : Z) : Z :=
  match value with
  | Some v => if v =? 0 then fallback else v
  | None => fallback
  end.

Definition node_of_row (row : IndexerRow) : IndexerNode := {|
  id := row_id row;
  name := row_name row;
  indexer_type := row_indexer_type row;
  base_url := row_base_url row;
  api_key := match row_api_key row with
             | Some key => if truthy key then key else []
             | None => []
             end;
  priority := int_or (row_priority row) 5;
  is_active := negb (row_is_active row =? 0);
  timeout_seconds := int_or (row_timeout_seconds row) 30;
  rate_limit_requests := int_or (row_rate_limit_requests row) 60;
  rate_limit_window := int_or (row_rate_limit_window row) 60
|}.

(** The loop of [load_indexer_configurations] over the rows. *)
Fixpoint load_rows (rows : list IndexerRow) (m : t) : t :=
  match rows with
  | [] => m
  | row :: rest =>
      let node := node_of_row row in
      let m := with_nodes (dict_set (id node) node (indexer_nodes m)) m in
      let m :=
        match circuit_breakers m !! id node with
        | Some _ => m
        | None =>
            with_breakers
              (<[id node := CircuitBreaker.init (failure_threshold m)
                              (circuit_breaker_timeout m)]> (circuit_breakers m)) m
        end in
      load_rows rest m
  end.

(** [load_indexer_configurations]: [rows] is what the query returns;
    when the database raises, the nodes are emptied. *)
Definition load_indexer_configurations (rows : outcome (list IndexerRow)) (m : t)
  : t :=
  match rows with
  | Returns rows => load_rows rows (with_nodes [] m)
  | Raises => with_nodes [] m
  end.

(** [_determine_indexer_status], on the two entries it reads of
    [historical_metrics] (0 and 0.0 when absent). *)
Definition _determine_indexer_status (failure_threshold : Z)
  (health_check_passed : bool) (consecutive_failures : Z) (success_rate : Q)
  : IndexerStatus :=
  if negb health_check_passed then
    if failure_threshold <=? consecutive_failures then DOWN else DEGRADED
  else if consecutive_failures >? 0 then RECOVERING
  else if Qle_bool 95 success_rate then HEALTHY
  else if Qle_bool 80 success_rate then DEGRADED
  else DOWN.

(** [health and health.status == IndexerStatus.DOWN]. *)
Definition is_down (health : gmap Z HealthMetrics) (node_id : Z) : bool :=
  match health !! node_id with
  | Some h => is_status (status h) DOWN
  | None => false
  end.

(** The loop of [get_available_indexers] over the nodes still to visit:
    the breakers are consulted, which may move them from OPEN to
    HALF_OPEN; a node without a breaker is a [KeyError]. *)
Fixpoint available_from (exclude_failed : bool) (w : World)
  (health : gmap Z HealthMetrics) (nodes : list (Z * IndexerNode))
  (breakers : gmap Z CircuitBreaker.t) (available : list IndexerNode)
  : outcome (list IndexerNode) * gmap Z CircuitBreaker.t :=
  match nodes with
  | [] => (Returns available, breakers)
  | (node_id, node) :: rest =>
      if negb (is_active node)
      then available_from exclude_failed w health rest breakers available
      else
        match breakers !! node_id with
        | None => (Raises, breakers)
        | Some cb =>
            let '(allowed, cb) := CircuitBreaker.call_allowed (clock w node_id) cb in
            let breakers := <[node_id := cb]> breakers in
            if negb allowed
            then available_from exclude_failed w health rest breakers available
            else if (exclude_failed && is_down health node_id)%bool
            then available_from exclude_failed w health rest breakers available
            else available_from exclude_failed w health rest breakers
                   (available ++ [node])
        end
  end.

(** [get_available_indexers]. *)
Definition get_available_indexers (exclude_failed : bool) (w : World) (m : t)
  : outcome (list IndexerNode) * t :=
  let '(available, breakers) :=
    available_from exclude_failed w (health_metrics m) (indexer_nodes m)
      (circuit_breakers m) [] in
  (available, with_breakers breakers m).

(** [route_request]; an empty [exclude_indexers] is falsy, like [None]. *)
Definition route_request (exclude_indexers : option (gset Z)) (w : World) (m : t)
  : outcome (option IndexerNode) * t :=
  match get_available_indexers true w m with
  | (Raises, m) => (Raises, m)
  | (Returns available_indexers, m) =>
      let available_indexers :=
        match exclude_indexers with
        | Some excluded =>
            if bool_decide (excluded = ∅) then available_indexers
            else List.filter (fun node => bool_decide (id node ∉ excluded))
                   available_indexers
        | None => available_indexers
        end in
      match available_indexers with
      | [] => (Returns None, m)
      | _ :: _ =>
          match select_indexer available_indexers (health_metrics m)
                  (load_balancer m) with
          | (Returns (Some selected), lb) =>
              (Returns (Some selected),
               with_load_balancer (record_request (id selected) 0 lb) m)
          | (Returns None, lb) => (Returns None, with_load_balancer lb m)
          | (Raises, lb) => (Raises, with_load_balancer lb m)
          end
      end
  end.

(** [record_request_result]. *)
Definition record_request_result (indexer_id : Z) (success : bool)
  (response_time_ms : Z) (w : World) (m : t) : outcome unit * t :=
  let m := with_load_balancer
             (record_request indexer_id response_time_ms (load_balancer m)) m in
  match circuit_breakers m !! indexer_id with
  | None => (Raises, m)
  | Some cb =>
      let cb := if success then CircuitBreaker.record_success cb
                else CircuitBreaker.record_failure (clock w indexer_id) cb in
      let m := with_breakers (<[indexer_id := cb]> (circuit_breakers m)) m in
      let metrics := default new_request_metrics (request_metrics m !! indexer_id) in
      let total_successful :=
        if success then successful_requests metrics + 1
        else successful_requests metrics in
      let metrics := {|
        total_requests := total_requests metrics + 1;
        successful_requests := total_successful;
        failed_requests :=
          if success then failed_requests metrics else failed_requests metrics + 1;
        avg_response_time :=
          if total_successful >? 0
          then ((avg_response_time metrics * inject_Z (total_successful - 1)
                 + inject_Z response_time_ms) / inject_Z total_successful)%Q
          else avg_response_time metrics;
        last_request_time := Some (now w)
      |} in
      (Returns tt,
       with_request_metrics (<[indexer_id := metrics]> (request_metrics m)) m)
  end.

(** The list comprehension of [_trigger_failover]: the other nodes that
    are HEALTHY and whose breaker lets calls through.
    [self.health_metrics.get(node_id, {}).status] raises on a node without
    metrics ([AttributeError] on the empty dictionary). *)
Fixpoint healthy_alternatives (failed_indexer_id : Z) (w : World)
  (health : gmap Z HealthMetrics) (nodes : list (Z * IndexerNode))
  (breakers : gmap Z CircuitBreaker.t) (healthy : list IndexerNode)
  : outcome (list IndexerNode) * gmap Z CircuitBreaker.t :=
  match nodes with
  | [] => (Returns healthy, breakers)
  | (node_id, node) :: rest =>
      if node_id =? failed_indexer_id
      then healthy_alternatives failed_indexer_id w health rest breakers healthy
      else
        match health !! node_id with
        | None => (Raises, breakers)
        | Some h =>
            if negb (is_status (status h) HEALTHY)
            then healthy_alternatives failed_indexer_id w health rest breakers healthy
            else
              match breakers !! node_id with
              | None => (Raises, breakers)
              | Some cb =>
                  let '(allowed, cb) :=
                    CircuitBreaker.call_allowed (clock w node_id) cb in
                  let breakers := <[node_id := cb]> breakers in
                  if allowed
                  then healthy_alternatives failed_indexer_id w health rest breakers
                         (healthy ++ [node])
                  else healthy_alternatives failed_indexer_id w health rest breakers
                         healthy
              end
        end
  end.

(** [_trigger_failover].  [_update_indexer_status] and
    [_send_failover_alert] write to the log and to the database and swallow
    their errors; the log line after the event is recorded reads
    [self.indexer_nodes[failed_indexer_id]]. *)
Definition _trigger_failover (failed_indexer_id : Z) (reason : str) (w : World)
  (m : t) : outcome unit * t :=
  match healthy_alternatives failed_indexer_id w (health_metrics m)
          (indexer_nodes m) (circuit_breakers m) [] with
  | (Raises, breakers) => (Raises, with_breakers breakers m)
  | (Returns healthy_indexers, breakers) =>
      let m := with_breakers breakers m in
      match healthy_indexers with
      | [] => (Returns tt, m)
      | _ :: _ =>
          match select_indexer healthy_indexers (health_metrics m)
                  (load_balancer m) with
          | (Raises, lb) => (Raises, with_load_balancer lb m)
          | (Returns None, lb) => (Returns tt, with_load_balancer lb m)
          | (Returns (Some target_indexer), lb) =>
              let m := with_load_balancer lb m in
              let failover_event := {|
                timestamp := now w;
                from_indexer_id := failed_indexer_id;
                to_indexer_id := id target_indexer;
                reason := reason;
                success := true;
                recovery_time_seconds := None
              |} in
              let m := with_history (failover_history m ++ [failover_event]) m in
              match node_of failed_indexer_id (indexer_nodes m) with
              | None => (Raises, m)
              | Some _ => (Returns tt, m)
              end
          end
      end
  end.

Definition HOUR : Z := 3600 * 1000000.

(** [_attempt_recovery]. *)
Definition _attempt_recovery (indexer_id : Z) (w : World) (m : t)
  : outcome unit * t :=
  let attempts := default [] (recovery_attempts m !! indexer_id) in
  let recent_attempts :=
    List.filter (fun attempt => now w - attempt <? HOUR) attempts in
  if max_recovery_attempts m <=? Z.of_nat (length recent_attempts)
  then (Returns tt, m)
  else
    let m := with_attempts
               (<[indexer_id := attempts ++ [now w]]> (recovery_attempts m)) m in
    match node_of indexer_id (indexer_nodes m) with
    | None => (Raises, m)
    | Some node =>
        if is_status (status (probe w node)) HEALTHY then
          match circuit_breakers m !! indexer_id with
          | None => (Raises, m)
          | Some cb =>
              (Returns tt,
               with_breakers
                 (<[indexer_id := CircuitBreaker.record_success cb]>
                    (circuit_breakers m)) m)
          end
        else (Returns tt, m)
    end.

(** [_check_failover_conditions]. *)
Definition _check_failover_conditions (indexer_id : Z) (health : HealthMetrics)
  (w : World) (m : t) : outcome unit * t :=
  match status health with
  | DOWN | DEGRADED =>
      if failure_threshold m <=? consecutive_failures health
      then _trigger_failover indexer_id
             (lit "Consecutive failures: "
              ++ str_of_int (consecutive_failures health)) w m
      else (Returns tt, m)
  | HEALTHY =>
      if existsb (fun event => (from_indexer_id event =? indexer_id)
                               && negb (success event))%bool
           (failover_history m)
      then _attempt_recovery indexer_id w m
      else (Returns tt, m)
  | _ => (Returns tt, m)
  end.

(** The body of the result loop of [run_health_checks] for one indexer;
    its handler logs whatever is raised.  [_store_health_check_result]
    writes to the database and swallows its errors. *)
Definition process_health_result (indexer_id : Z) (health : HealthMetrics)
  (w : World) (m : t) : t :=
  let m := with_health (<[indexer_id := health]> (health_metrics m)) m in
  match circuit_breakers m !! indexer_id with
  | None => m
  | Some cb =>
      let cb := if is_status (status health) HEALTHY
                then CircuitBreaker.record_success cb
                else CircuitBreaker.record_failure (clock w indexer_id) cb in
      let m := with_breakers (<[indexer_id := cb]> (circuit_breakers m)) m in
      snd (_check_failover_conditions indexer_id health w m)
  end.

(** [run_health_checks]: every node is probed, and the results are
    processed in the order of the nodes; [worlds] gives what the outside
    answers while the result of a node is processed. *)
Definition run_health_checks (worlds : Z -> World) (m : t) : t :=
  fold_left (fun m entry =>
               let node := snd entry in
               process_health_result (id node) (probe (worlds (id node)) node)
                 (worlds (id node)) m)
    (indexer_nodes m) m.

(** The pruning of [run_monitoring_loop]: failover events of the last 24
    hours are kept. *)
Definition prune_history (w : World) (m : t) : t :=
  with_history
    (List.filter (fun event => now w - 24 * HOUR <? timestamp event)
       (failover_history m)) m.

(** What is done with a manager. *)
Inductive op :=
| LoadIndexerConfigurations (rows : outcome (list IndexerRow))
| RunHealthChecks (worlds : Z -> World)
| CheckFailoverConditions (indexer_id : Z) (health : HealthMetrics) (w : World)
| TriggerFailover (failed_indexer_id : Z) (reason : str) (w : World)
| RouteRequest (exclude_indexers : option (gset Z)) (w : World)
| RecordRequestResult (indexer_id : Z) (success : bool) (response_time_ms : Z)
    (w : World)
| GetAvailableIndexers (exclude_failed : bool) (w : World)
| PruneHistory (w : World).

(** The manager after an operation, whether it returned or raised. *)
Definition apply_op (m : t) (o : op) : t :=
  match o with
  | LoadIndexerConfigurations rows => load_indexer_configurations rows m
  | RunHealthChecks worlds => run_health_checks worlds m
  | CheckFailoverConditions indexer_id health w =>
      snd (_check_failover_conditions indexer_id health w m)
  | TriggerFailover failed_indexer_id reason w =>
      snd (_trigger_failover failed_indexer_id reason w m)
  | RouteRequest exclude_indexers w => snd (route_request exclude_indexers w m)
  | RecordRequestResult indexer_id success response_time_ms w =>
      snd (record_request_result indexer_id success response_time_ms w m)
  | GetAvailableIndexers exclude_failed w =>
      snd (get_available_indexers exclude_failed w m)
  | PruneHistory w => prune_history w m
  end.

Definition run (m : t) (ops : list op) : t := fold_left apply_op ops m.





(** Recovery attempts made one after the other, each in its world. *)
Definition attempt_recoveries (indexer_id : Z) (worlds : list World) (m : t) : t :=
  fold_left (fun m w => snd (_attempt_recovery indexer_id w m)) worlds m.

(** The attempts recorded for an indexer in the hour that ends at [t]. *)
Definition attempts_in_hour (m : t) (indexer_id : Z) (t : Z) : list Z :=
  List.filter (fun attempt => (t - HOUR <? attempt) && (attempt <=? t))%bool
    (default [] (recovery_attempts m !! indexer_id)).

(** Consulting a breaker keeps the breakers that are not OPEN, and the
    keys of the dictionary. *)
Definition breakers_kept (before after : gmap Z CircuitBreaker.t) : Prop :=
  (forall k cb, before !! k = Some cb ->
     CircuitBreaker.state cb <> CircuitBreaker.OPEN -> after !! k = Some cb) /\
  (forall k, is_Some (after !! k) <-> is_Some (before !! k)).

(** What [get_available_indexers] says of a node it returns. *)
Definition usable (ef : bool) (health : gmap Z HealthMetrics)
  (nodes : list (Z * IndexerNode)) (breakers : gmap Z CircuitBreaker.t)
  (node : IndexerNode) : Prop :=
  exists node_id cb,
    In (node_id, node) nodes /\
    is_active node = true /\
    (ef = true -> is_down health node_id = false) /\
    breakers !! node_id = Some cb /\
    CircuitBreaker.state cb <> CircuitBreaker.OPEN.

(** Every recorded failover event is marked successful. *)
Definition marked (m : t) : Prop :=
  Forall (fun event => success event = true) (failover_history m).

(** Every configured node has a circuit breaker. *)
Definition every_node_has_breaker (m : t) : Prop :=
  forall node_id x, In (node_id, x) (indexer_nodes m) ->
    is_Some (circuit_breakers m !! node_id).

(** What the operations other than loading the configuration keep: the
    nodes, the threshold, the keys of the breakers and, as long as every
    event is marked successful, that mark and the recovery attempts. *)
Definition steady (m m' : t) : Prop :=
  indexer_nodes m' = indexer_nodes m /\
  (forall k, is_Some (circuit_breakers m !! k) ->
             is_Some (circuit_breakers m' !! k)) /\
  (marked m -> marked m' /\ recovery_attempts m' = recovery_attempts m).

(** Sample data: a world where nothing fails, and a manager with two
    configured nodes. *)
Definition quiet : World := {|
  clock := fun _ => 0;
  now := 0;
  probe := fun node => metrics (id node) HEALTHY 10
|}.

Definition sample_row (i p : Z) : IndexerRow := {|
  row_id := i; row_name := []; row_indexer_type := []; row_base_url := [];
  row_api_key := None; row_priority := Some p; row_is_active := 1;
  row_timeout_seconds := None; row_rate_limit_requests := None;
  row_rate_limit_window := None
|}.

Definition two_nodes : t :=
  load_indexer_configurations (Returns [sample_row 1 5; sample_row 2 3])
    (init 3 300 5 PRIORITY_BASED).


End FailoverManager.

(** ** The order and the bounds of the duplicate detector's results *)

Module DuplicateOrder.
Import Py DuplicateDetector.

(** The place of a confidence in the order of the strings [confidence.value]:
    ["medium"] is above ["low"], which is above ["high"]. *)
Definition rank (c : MatchConfidence) : Z :=
  match c with
  | MEDIUM => 2
  | LOW => 1
  | HIGH => 0
  end.

(** [a] may stand before [b] in a list sorted by
    [(confidence.value, similarity_score)], greatest first. *)
Definition precedes (a b : DuplicateMatch) : Prop :=
  rank (confidence b) < rank (confidence a) \/
  (confidence a = confidence b /\ (similarity_score b <= similarity_score a)%Q).

(** The entries of a row of the Levenshtein table, from column [j] on, lie
    between 0 and the larger of the row and column numbers. *)
Fixpoint bounded_row (i j : Z) (row : list Z) : Prop :=
  match row with
  | [] => True
  | v :: row' => 0 <= v <= Z.max i j /\ bounded_row i (j + 1) row'
  end.

(** Sample data: a book by its id, and a match by its ids and confidence. *)
Definition book (i : Z) : BookRecord := {|
  id := i; title := []; authors := []; isbn_10 := None; isbn_13 := None;
  asin := None; publication_date := None; publisher := None;
  total_file_size := 0
|}.

Definition found (i j : Z) (c : MatchConfidence) (score : Q) : DuplicateMatch := {|
  book1 := book i; book2 := book j; duplicate_type := FUZZY_MATCH;
  confidence := c; similarity_score := score
|}.

End DuplicateOrder.

(** ** book_processing/duplicate_detector.py: the similarity of two books *)

Module SimilarityScores.
Import Py DuplicateDetector.

Section Scores.

(** [difflib.SequenceMatcher(None, a, b).ratio()] and
    [self.similarity_cache_size]. *)
Variable seq_ratio : str -> str -> Q.
Variable similarity_cache_size : nat.

(** The loop [for author2 in norm_authors2], with [self.similarity_cache]. *)
Fixpoint best_among (author1 : str) (norm_authors2 : list str)
  (max_similarity : Q) (cache : gmap str Q) : Q * gmap str Q :=
  match norm_authors2 with
  | [] => (max_similarity, cache)
  | author2 :: rest =>
      let '(similarity, cache) :=
        _calculate_string_similarity seq_ratio similarity_cache_size
          author1 author2 cache in
      best_among author1 rest (py_max max_similarity similarity) cache
  end.

(** The loop [for author1 in norm_authors1]. *)
Fixpoint best_pair (norm_authors1 norm_authors2 : list str)
  (max_similarity : Q) (cache : gmap str Q) : Q * gmap str Q :=
  match norm_authors1 with
  | [] => (max_similarity, cache)
  | author1 :: rest =>
      let '(max_similarity, cache) :=
        best_among author1 norm_authors2 max_similarity cache in
      best_pair rest norm_authors2 max_similarity cache
  end.

(** [_calculate_author_similarity]. *)
Definition _calculate_author_similarity (authors1 authors2 : list str)
  (cache : gmap str Q) : Q * gmap str Q :=
  match authors1, authors2 with
  | [], [] => (1%Q, cache)
  | [], _ :: _ | _ :: _, [] => (0%Q, cache)
  | _ :: _, _ :: _ =>
      best_pair (map _normalize_author authors1) (map _normalize_author authors2)
        0%Q cache
  end.

(** Truth of an optional string: neither [None] nor empty. *)
Definition present (value : option str) : bool :=
  match value with
  | Some s => truthy s
  | None => false
  end.

Definition text (value : option str) : str := default [] value.

Definition weights : list Q := [4 # 10; 3 # 10; 15 # 100; 1 # 10; 5 # 100]%Q.

(** [sum(...)] of numbers. *)
Definition py_sum (l : list Q) : Q := fold_left Qplus l 0%Q.

(** [_calculate_overall_similarity]: the score and the two caches after
    the call. *)
Definition _calculate_overall_similarity (book1 book2 : BookRecord)
  (titles : gmap str str) (cache : gmap str Q)
  : Q * (gmap str str * gmap str Q) :=
  let '(title1, titles) :=
    _normalize_title similarity_cache_size (title book1) titles in
  let '(title2, titles) :=
    _normalize_title similarity_cache_size (title book2) titles in
  let '(title_sim, cache) :=
    _calculate_string_similarity seq_ratio similarity_cache_size
      title1 title2 cache in
  let '(author_sim, cache) :=
    _calculate_author_similarity (authors book1) (authors book2) cache in
  let isbn_sim :=
    if (present (isbn_13 book1) && present (isbn_13 book2))%bool then
      if str_eqb (_normalize_isbn (text (isbn_13 book1)))
                 (_normalize_isbn (text (isbn_13 book2))) then 1%Q else 0%Q
    else if (present (isbn_10 book1) && present (isbn_10 book2))%bool then
      if str_eqb (_normalize_isbn (text (isbn_10 book1)))
                 (_normalize_isbn (text (isbn_10 book2))) then 1%Q else 0%Q
    else 0%Q in
  let date_sim :=
    if (present (publication_date book1) && present (publication_date book2))%bool
    then
      if str_eqb (_normalize_date (text (publication_date book1)))
                 (_normalize_date (text (publication_date book2)))
      then 1%Q else 0%Q
    else 0%Q in
  let '(pub_sim, cache) :=
    if (present (publisher book1) && present (publisher book2))%bool
    then _calculate_string_similarity seq_ratio similarity_cache_size
           (text (publisher book1)) (text (publisher book2)) cache
    else (0%Q, cache) in
  let scores := [title_sim; author_sim; isbn_sim; date_sim; pub_sim] in
  let weighted_sum := py_sum (zip_with Qmult scores weights) in
  let total_weight := py_sum weights in
  (match (0 ?= total_weight)%Q with
   | Lt => (weighted_sum / total_weight)%Q
   | _ => 0%Q
   end,
   (titles, cache)).

End Scores.

(** The similarities a cache holds are between 0 and 1. *)
Definition cache_in_range (cache : gmap str Q) : Prop :=
  forall key value, cache !! key = Some value -> (0 <= value <= 1)%Q.

(** Sample data: a matcher that finds every two strings half alike, and a
    described book. *)
Definition half : str -> str -> Q := fun _ _ => (1 # 2)%Q.

Definition described (i : Z) (t : string) (author : string) : BookRecord := {|
  id := i; title := lit t; authors := [lit author]; isbn_10 := None;
  isbn_13 := None; asin := None; publication_date := None;
  publisher := None; total_file_size := 0
|}.

End SimilarityScores.

(** * Properties *)

Module PyFacts.
Import Py.

(** Facts about single characters are checked on all 256 of them. *)
Ltac by_cases_on c :=
  destruct c as [[] [] [] [] [] [] [] []]; vm_compute;
  try reflexivity; try discriminate; auto.

Lemma lower_char_idem c : lower_char (lower_char c) = lower_char c.
Proof. by_cases_on c. Qed.

Lemma upper_char_idem c : upper_char (upper_char c) = upper_char c.
Proof. by_cases_on c. Qed.

Lemma map_fixed {A} (f : A -> A) (l : list A) :
  Forall (fun x => f x = x) l -> map f l = l.
Proof. induction 1; simpl; congruence. Qed.

Lemma map_idem {A} (f : A -> A) (l : list A) :
  (forall x, f (f x) = f x) -> map f (map f l) = map f l.
Proof. intros H. induction l; simpl; congruence. Qed.

Lemma filter_fixed {A} (p : A -> bool) (l : list A) :
  Forall (fun x => p x = true) l -> List.filter p l = l.
Proof.
  induction 1 as [|x l Hx _ IH]; simpl; [reflexivity|].
  now rewrite Hx, IH.
Qed.

Lemma filter_Forall {A} (p : A -> bool) (l : list A) :
  Forall (fun x => p x = true) (List.filter p l).
Proof.
  induction l as [|x l IH]; simpl; [constructor|].
  destruct (p x) eqn:E; [constructor|]; assumption.
Qed.

Lemma filter_map_swap {A} (p : A -> bool) (f : A -> A) (l : list A) :
  (forall x, p (f x) = p x) ->
  List.filter p (map f l) = map f (List.filter p l).
Proof.
  intros H. induction l as [|x l IH]; simpl; [reflexivity|].
  rewrite H. destruct (p x); simpl; congruence.
Qed.

(** *** Stripping *)

Lemma lstrip_idem s : lstrip (lstrip s) = lstrip s.
Proof.
  induction s as [|c s IH]; simpl; [reflexivity|].
  destruct (is_space c) eqn:E; [exact IH|]. simpl. now rewrite E.
Qed.

Lemma lstrip_head s :
  lstrip s = [] \/ exists c r, lstrip s = c :: r /\ is_space c = false.
Proof.
  induction s as [|c s IH]; simpl; [now left|].
  destruct (is_space c) eqn:E; [exact IH|]. right. eauto.
Qed.

Lemma lstrip_all_space s : forallb is_space s = true -> lstrip s = [].
Proof.
  induction s as [|c s IH]; simpl; [reflexivity|].
  destruct (is_space c); simpl; [exact IH | discriminate].
Qed.

Lemma lstrip_some_char s : forallb is_space s = false -> lstrip s <> [].
Proof.
  induction s as [|c s IH]; simpl; [discriminate|].
  destruct (is_space c); simpl; [exact IH | discriminate].
Qed.

Lemma lstrip_app a b :
  lstrip (a ++ b) = if forallb is_space a then lstrip b else lstrip a ++ b.
Proof.
  induction a as [|c a IH]; simpl; [reflexivity|].
  destruct (is_space c); simpl; [exact IH | reflexivity].
Qed.

(** [rstrip], read from the left. *)
Lemma rstrip_cons c s :
  rstrip (c :: s) =
  match rstrip s with
  | [] => if is_space c then [] else [c]
  | r => c :: r
  end.
Proof.
  unfold rstrip. simpl. rewrite lstrip_app.
  destruct (forallb is_space (rev s)) eqn:E.
  - rewrite (lstrip_all_space _ E). simpl. now destruct (is_space c).
  - pose proof (lstrip_some_char _ E) as Hne.
    rewrite rev_app_distr. simpl.
    destruct (rev (lstrip (rev s))) eqn:R; [|reflexivity].
    apply (f_equal (@rev ascii)) in R. rewrite rev_involutive in R.
    simpl in R. contradiction.
Qed.

Lemma rstrip_idem s : rstrip (rstrip s) = rstrip s.
Proof. unfold rstrip. now rewrite rev_involutive, lstrip_idem. Qed.

Lemma strip_idem s : strip (strip s) = strip s.
Proof.
  unfold strip. destruct (lstrip_head s) as [-> | (c & r & -> & Hc)].
  - reflexivity.
  - assert (H : lstrip (rstrip (c :: r)) = rstrip (c :: r)).
    { rewrite rstrip_cons. rewrite Hc.
      destruct (rstrip r); simpl; now rewrite Hc. }
    now rewrite H, rstrip_idem.
Qed.

Lemma Forall_lstrip (P : ascii -> Prop) s : Forall P s -> Forall P (lstrip s).
Proof.
  induction 1 as [|c s Hc Hs IH]; simpl; [constructor|].
  destruct (is_space c); [exact IH | now constructor].
Qed.

Lemma Forall_strip (P : ascii -> Prop) s : Forall P s -> Forall P (strip s).
Proof.
  intros H. unfold strip, rstrip.
  apply Forall_rev, Forall_lstrip, Forall_rev, Forall_lstrip, H.
Qed.

Lemma Forall_collapse (P : ascii -> Prop) s :
  P " "%char -> Forall P s -> forall b, Forall P (collapse_from b s).
Proof.
  intros Hsp. induction 1 as [|c s Hc Hs IH]; intros b; simpl; [constructor|].
  destruct (is_space c); [destruct b|]; try constructor; auto.
Qed.

End PyFacts.

Module RegexFacts.
Import Py PyFacts Regex.

Lemma nullable_matches r : nullable r = true <-> matches r [].
Proof.
  split.
  - induction r; simpl; intros H; try discriminate.
    + constructor.
    + apply andb_true_iff in H as [H1 H2].
      change (@nil ascii) with (@nil ascii ++ []). constructor; auto.
    + apply orb_true_iff in H as [H|H]; [apply MAltL | apply MAltR]; auto.
    + constructor.
  - intros H. remember [] as s eqn:E.
    induction H; simpl; try reflexivity; try discriminate.
    + apply app_eq_nil in E as [-> ->].
      rewrite IHmatches1, IHmatches2; reflexivity.
    + rewrite (IHmatches E); reflexivity.
    + rewrite (IHmatches E). apply orb_true_r.
Qed.

Lemma seq_inv r1 r2 s :
  matches (Seq r1 r2) s ->
  exists s1 s2, s = s1 ++ s2 /\ matches r1 s1 /\ matches r2 s2.
Proof. intros H. inversion H; subst; eauto. Qed.

(** A non-empty match of a starred pattern begins with a non-empty match
    of the pattern. *)
Lemma star_cons r c s :
  matches (Star r) (c :: s) ->
  exists s1 s2, s = s1 ++ s2 /\ matches r (c :: s1) /\ matches (Star r) s2.
Proof.
  intros H. remember (Star r) as r' eqn:Er. remember (c :: s) as cs eqn:Es.
  induction H; try discriminate.
  injection Er as ->.
  destruct s1 as [|x s1]; simpl in Es.
  - apply IHmatches2; auto.
  - injection Es as <- <-. exists s1, s2. auto.
Qed.

Lemma deriv_matches r : forall c s, matches (deriv c r) s <-> matches r (c :: s).
Proof.
  induction r as [| |p|r1 IH1 r2 IH2|r1 IH1 r2 IH2|r IH]; intros c s; simpl.
  - split; intros H; inversion H.
  - split; intros H; inversion H.
  - destruct (p c) eqn:E; split; intros H; inversion H; subst.
    + now constructor.
    + constructor.
    + congruence.
  - split.
    + intros H.
      assert (Hl : matches (Seq (deriv c r1) r2) s -> matches (Seq r1 r2) (c :: s)).
      { intros H'. inversion H'; subst.
        change (c :: s1 ++ s2) with ((c :: s1) ++ s2).
        constructor; [now apply IH1 | assumption]. }
      destruct (nullable r1) eqn:N; [|now apply Hl].
      inversion H; subst; [now apply Hl|].
      change (c :: s) with ([] ++ c :: s).
      constructor; [now apply nullable_matches | now apply IH2].
    + intros H. apply seq_inv in H as (s1 & s2 & E & H1 & H2).
      destruct s1 as [|x s1]; simpl in E.
      * subst s2. apply nullable_matches in H1. rewrite H1.
        apply MAltR. now apply IH2.
      * injection E as <- ->.
        assert (Hs : matches (Seq (deriv c r1) r2) (s1 ++ s2))
          by (constructor; [now apply IH1 | assumption]).
        destruct (nullable r1); [now apply MAltL | exact Hs].
  - split; intros H; inversion H; subst.
    + apply MAltL. now apply IH1.
    + apply MAltR. now apply IH2.
    + apply MAltL. now apply IH1.
    + apply MAltR. now apply IH2.
  - split.
    + intros H. inversion H; subst.
      change (c :: s1 ++ s2) with ((c :: s1) ++ s2).
      constructor; [now apply IH | assumption].
    + intros H. apply star_cons in H as (s1 & s2 & -> & H1 & H2).
      constructor; [now apply IH | assumption].
Qed.

Lemma fullmatch_matches s : forall r, fullmatch r s = true <-> matches r s.
Proof.
  induction s as [|c s IH]; intros r; simpl.
  - apply nullable_matches.
  - rewrite IH. apply deriv_matches.
Qed.

(** A pattern that begins with [\s*] absorbs one more leading white-space
    character. *)
Lemma leading_space_absorbed r c s :
  is_space c = true ->
  fullmatch (Seq (Star (Class is_space)) r) s = true ->
  fullmatch (Seq (Star (Class is_space)) r) (c :: s) = true.
Proof.
  intros Hc H. apply fullmatch_matches. apply fullmatch_matches in H.
  apply seq_inv in H as (s1 & s2 & -> & H1 & H2).
  change (c :: s1 ++ s2) with ((([c] ++ s1)) ++ s2).
  constructor; [|assumption].
  constructor; [now constructor | assumption].
Qed.

(** *** What [sub_at_end] keeps *)

Lemma sub_at_end_no_match r s :
  search_at_end r s = false -> sub_at_end r s = s.
Proof.
  unfold search_at_end.
  induction s as [|c s IH]; simpl.
  - intros H. apply orb_false_iff in H as [-> _]. reflexivity.
  - intros H. apply orb_false_iff in H as [-> H]. f_equal. now apply IH.
Qed.

Lemma sub_at_end_Forall (P : ascii -> Prop) r s :
  Forall P s -> Forall P (sub_at_end r s).
Proof.
  induction 1 as [|c s Hc Hs IH]; simpl.
  - destruct (nullable r); constructor.
  - destruct (fullmatch (deriv c r) s); constructor; assumption.
Qed.

Lemma sub_at_end_nil r s :
  sub_at_end r s = [] -> s = [] \/ fullmatch r s = true.
Proof.
  destruct s as [|c s]; [now left|]. simpl.
  destruct (fullmatch (deriv c r) s); [now right | discriminate].
Qed.

Lemma sub_at_end_lstrip r s :
  lstrip s = s -> lstrip (sub_at_end r s) = sub_at_end r s.
Proof.
  destruct s as [|c s]; simpl.
  - destruct (nullable r); reflexivity.
  - destruct (is_space c) eqn:E.
    + intros H. exfalso.
      assert (Hlen : forall x, (length (lstrip x) <= length x)%nat).
      { induction x as [|y x IHx]; simpl; [lia|].
        destruct (is_space y); simpl; lia. }
      pose proof (Hlen s) as Hl. rewrite H in Hl. simpl in Hl. lia.
    + intros _. destruct (fullmatch (deriv c r) s); simpl; [reflexivity|].
      now rewrite E.
Qed.

Lemma rstrip_tail c s : rstrip (c :: s) = c :: s -> rstrip s = s.
Proof.
  rewrite rstrip_cons. destruct (rstrip s) as [|x r] eqn:R.
  - destruct (is_space c); [discriminate|]. intros [= <-]. reflexivity.
  - intros [= <-]. reflexivity.
Qed.

Lemma sub_at_end_rstrip r s :
  rstrip s = s ->
  rstrip (sub_at_end (Seq (Star (Class is_space)) r) s)
  = sub_at_end (Seq (Star (Class is_space)) r) s.
Proof.
  set (p := Seq (Star (Class is_space)) r).
  induction s as [|c s IH]; intros Hs.
  - simpl. destruct (nullable r); reflexivity.
  - change (sub_at_end p (c :: s))
      with (if fullmatch p (c :: s) then [] else c :: sub_at_end p s).
    destruct (fullmatch p (c :: s)) eqn:M; [reflexivity|].
    pose proof (rstrip_tail _ _ Hs) as Hs'.
    rewrite rstrip_cons, (IH Hs').
    destruct (sub_at_end p s) as [|x y] eqn:S; [|reflexivity].
    destruct (is_space c) eqn:E; [|reflexivity].
    exfalso. apply sub_at_end_nil in S as [-> | S].
    + rewrite rstrip_cons in Hs. simpl in Hs. rewrite E in Hs. discriminate.
    + subst p. rewrite (leading_space_absorbed r c s E S) in M. discriminate.
Qed.

End RegexFacts.

(** ** Rounding *)

Module FloatFacts.
Import Py Float.

(** Closed comparisons of rationals, by evaluation. *)
Ltac qcompute := vm_compute; first [reflexivity | discriminate].

Lemma pow2_pos k : (0 < pow2 k)%Q.
Proof. unfold pow2. apply Qpower_0_lt. reflexivity. Qed.

Lemma pow2_plus a b : (pow2 (a + b) == pow2 a * pow2 b)%Q.
Proof. unfold pow2. apply Qpower_plus. discriminate. Qed.

Lemma pow2_nonneg_Z n : 0 <= n -> (pow2 n == inject_Z (2 ^ n))%Q.
Proof. intros Hn. unfold pow2. now rewrite Zpower_Qpower. Qed.

Lemma pow2_ge_1 n : 0 <= n -> (1 <= pow2 n)%Q.
Proof.
  intros Hn. rewrite (pow2_nonneg_Z n Hn). change 1%Q with (inject_Z 1).
  rewrite <- Zle_Qle. pose proof (Z.pow_pos_nonneg 2 n). lia.
Qed.

Lemma pow2_mono a b : a <= b -> (pow2 a <= pow2 b)%Q.
Proof.
  intros H. replace b with (a + (b - a)) by lia. rewrite pow2_plus.
  rewrite <- (Qmult_1_r (pow2 a)) at 1.
  apply Qmult_le_l; [apply pow2_pos | apply pow2_ge_1; lia].
Qed.

Lemma pow2_lt_inv a b : (pow2 a < pow2 b)%Q -> a < b.
Proof.
  intros H. destruct (Z_lt_le_dec a b) as [Hlt|Hle]; [exact Hlt|].
  apply pow2_mono in Hle. exfalso. apply (Qlt_irrefl (pow2 a)).
  eapply Qlt_le_trans; eauto.
Qed.

Lemma round_half_even_bounds x :
  Qfloor x <= round_half_even x <= Qfloor x + 1.
Proof.
  unfold round_half_even.
  destruct (x - inject_Z (Qfloor x) ?= 1 # 2)%Q; [destruct (Z.even _)| |]; lia.
Qed.

Lemma round_half_even_mono x y :
  (x <= y)%Q -> round_half_even x <= round_half_even y.
Proof.
  intros Hxy. pose proof (Qfloor_resp_le x y Hxy) as Hf.
  pose proof (round_half_even_bounds x). pose proof (round_half_even_bounds y).
  destruct (Z.eq_dec (Qfloor x) (Qfloor y)) as [E|NE]; [|lia].
  unfold round_half_even. rewrite <- E.
  assert (Hr : (x - inject_Z (Qfloor x) <= y - inject_Z (Qfloor x))%Q) by lra.
  destruct (Qcompare_spec (x - inject_Z (Qfloor x)) (1 # 2)) as [Hx|Hx|Hx];
    destruct (Qcompare_spec (y - inject_Z (Qfloor x)) (1 # 2)) as [Hy|Hy|Hy];
    try (destruct (Z.even (Qfloor x))); try lia; exfalso; lra.
Qed.

Lemma round_half_even_Z n : round_half_even (inject_Z n) = n.
Proof.
  unfold round_half_even. rewrite Qfloor_Z.
  destruct (Qcompare_spec (inject_Z n - inject_Z n) (1 # 2)) as [H|H|H];
    try reflexivity; exfalso; lra.
Qed.

Lemma Q_as_fraction q : (q == inject_Z (Qnum q) / inject_Z (Zpos (Qden q)))%Q.
Proof.
  destruct q as [n d]. simpl. unfold Qeq, Qdiv, Qmult, Qinv, inject_Z. simpl. lia.
Qed.

Lemma binade_spec q :
  (0 < q)%Q -> (pow2 (binade q) <= q)%Q /\ (q < pow2 (binade q + 1))%Q.
Proof.
  intros Hq.
  assert (Hn : 0 < Qnum q) by (destruct q as [n d]; unfold Qlt in Hq; simpl in *; lia).
  set (n := Qnum q) in *. set (d := Zpos (Qden q)).
  assert (Hd : 0 < d) by (subst d; lia).
  pose proof (Z.log2_spec n Hn) as [Hn1 Hn2].
  pose proof (Z.log2_spec d Hd) as [Hd1 Hd2].
  pose proof (Z.log2_nonneg n) as Hln. pose proof (Z.log2_nonneg d) as Hld.
  set (ln := Z.log2 n) in *. set (ld := Z.log2 d) in *.
  assert (Hq' : (q == inject_Z n / inject_Z d)%Q) by apply Q_as_fraction.
  assert (Hdq : (0 < inject_Z d)%Q) by (change 0%Q with (inject_Z 0); now rewrite <- Zlt_Qlt).
  assert (Hlow : (pow2 (ln - ld - 1) < q)%Q).
  { rewrite Hq'. apply Qlt_shift_div_l; [exact Hdq|].
    replace (ln - ld - 1) with (ln + (- (ld + 1))) by lia. rewrite pow2_plus.
    assert (H1 : (pow2 (ld + 1) * pow2 (- (ld + 1)) == 1)%Q).
    { rewrite <- pow2_plus. replace (ld + 1 + - (ld + 1)) with 0 by lia. reflexivity. }
    assert (H2 : (inject_Z d < pow2 (ld + 1))%Q).
    { rewrite pow2_nonneg_Z by lia. now rewrite <- Zlt_Qlt. }
    assert (H3 : (pow2 ln <= inject_Z n)%Q).
    { rewrite pow2_nonneg_Z by lia. now rewrite <- Zle_Qle. }
    pose proof (pow2_pos ln). pose proof (pow2_pos (- (ld + 1))).
    pose proof (pow2_pos (ld + 1)).
    apply Qle_lt_trans with (pow2 ln * (pow2 (- (ld + 1)) * inject_Z d))%Q; [lra|].
    apply Qlt_le_trans with (pow2 ln * 1)%Q; [|lra].
    apply Qmult_lt_l; [assumption|].
    rewrite <- H1. rewrite (Qmult_comm (pow2 (ld + 1))).
    apply Qmult_lt_l; assumption. }
  assert (Hhigh : (q < pow2 (ln - ld + 1))%Q).
  { rewrite Hq'. apply Qlt_shift_div_r; [exact Hdq|].
    replace (ln - ld + 1) with (ln + 1 + (- ld)) by lia. rewrite pow2_plus.
    assert (H1 : (pow2 ld * pow2 (- ld) == 1)%Q).
    { rewrite <- pow2_plus. replace (ld + - ld) with 0 by lia. reflexivity. }
    assert (H2 : (pow2 ld <= inject_Z d)%Q).
    { rewrite pow2_nonneg_Z by lia. now rewrite <- Zle_Qle. }
    assert (H3 : (inject_Z n < pow2 (ln + 1))%Q).
    { rewrite pow2_nonneg_Z by lia. now rewrite <- Zlt_Qlt. }
    pose proof (pow2_pos (ln + 1)). pose proof (pow2_pos (- ld)).
    pose proof (pow2_pos ld).
    apply Qlt_le_trans with (pow2 (ln + 1) * 1)%Q; [lra|].
    rewrite <- Qmult_assoc. apply Qmult_le_l; [assumption|].
    rewrite <- H1. rewrite (Qmult_comm (pow2 ld)).
    apply Qmult_le_l; assumption. }
  unfold binade. fold n d ln ld.
  destruct (Qle_bool (pow2 (ln - ld)) q) eqn:E.
  - apply Qle_bool_iff in E. split; assumption.
  - assert (Hlt : (q < pow2 (ln - ld))%Q).
    { apply Qnot_le_lt. intros H. apply Qle_bool_iff in H. congruence. }
    replace (ln - ld - 1 + 1) with (ln - ld) by lia.
    split; [apply Qlt_le_weak; exact Hlow | exact Hlt].
Qed.

Lemma binade_mono x y : (0 < x)%Q -> (x <= y)%Q -> binade x <= binade y.
Proof.
  intros Hx Hxy. destruct (binade_spec x Hx) as [H1 _].
  destruct (binade_spec y) as [_ H2]; [lra|].
  assert (H : (pow2 (binade x) < pow2 (binade y + 1))%Q) by lra.
  apply pow2_lt_inv in H. lia.
Qed.

Lemma scaled_mono e x y : (x <= y)%Q -> (x / pow2 e <= y / pow2 e)%Q.
Proof.
  intros H. unfold Qdiv. apply Qmult_le_compat_r; [exact H|].
  apply Qinv_le_0_compat, Qlt_le_weak, pow2_pos.
Qed.

Lemma round_pos_eq q :
  (round_pos q ==
   inject_Z (round_half_even (q / pow2 (grid_exponent q))) * pow2 (grid_exponent q))%Q.
Proof. unfold round_pos. apply Qred_correct. Qed.

Lemma round_pos_mono x y : (0 < x)%Q -> (x <= y)%Q -> (round_pos x <= round_pos y)%Q.
Proof.
  intros Hx Hxy. assert (Hy : (0 < y)%Q) by lra.
  rewrite !round_pos_eq.
  pose proof (binade_mono x y Hx Hxy) as Hb.
  set (ex := grid_exponent x). set (ey := grid_exponent y).
  assert (He : ex <= ey) by (subst ex ey; unfold grid_exponent; lia).
  destruct (Z.eq_dec ex ey) as [E|NE].
  - rewrite <- E. apply Qmult_le_compat_r; [|apply Qlt_le_weak, pow2_pos].
    rewrite <- Zle_Qle. apply round_half_even_mono, scaled_mono, Hxy.
  - assert (Hlt : ex < ey) by lia.
    destruct (binade_spec x Hx) as [_ Hx2]. destruct (binade_spec y Hy) as [Hy1 _].
    assert (Hex : binade x - 52 <= ex) by (subst ex; unfold grid_exponent; lia).
    assert (Hey : ey = binade y - 52).
    { subst ex ey. unfold grid_exponent in *. lia. }
    (* fl x <= 2^53 * 2^ex *)
    assert (H1 : round_half_even (x / pow2 ex) <= 2 ^ 53).
    { rewrite <- (round_half_even_Z (2 ^ 53)). apply round_half_even_mono.
      apply Qle_shift_div_r; [apply pow2_pos|].
      rewrite <- pow2_nonneg_Z by lia. rewrite <- pow2_plus.
      apply Qlt_le_weak. eapply Qlt_le_trans; [exact Hx2|]. apply pow2_mono. lia. }
    assert (H2 : 2 ^ 52 <= round_half_even (y / pow2 ey)).
    { rewrite <- (round_half_even_Z (2 ^ 52)). apply round_half_even_mono.
      apply Qle_shift_div_l; [apply pow2_pos|].
      rewrite <- pow2_nonneg_Z by lia. rewrite <- pow2_plus.
      eapply Qle_trans; [|exact Hy1]. apply pow2_mono. lia. }
    apply Qle_trans with (inject_Z (2 ^ 53) * pow2 ex)%Q.
    { apply Qmult_le_compat_r; [|apply Qlt_le_weak, pow2_pos]. now rewrite <- Zle_Qle. }
    apply Qle_trans with (inject_Z (2 ^ 52) * pow2 ey)%Q.
    { rewrite <- !pow2_nonneg_Z by lia. rewrite <- !pow2_plus. apply pow2_mono. lia. }
    apply Qmult_le_compat_r; [|apply Qlt_le_weak, pow2_pos]. now rewrite <- Zle_Qle.
Qed.

Lemma round_pos_nonneg q : (0 < q)%Q -> (0 <= round_pos q)%Q.
Proof.
  intros Hq. rewrite round_pos_eq.
  apply Qmult_le_0_compat; [|apply Qlt_le_weak, pow2_pos].
  change 0%Q with (inject_Z 0). rewrite <- Zle_Qle.
  rewrite <- (round_half_even_Z 0). apply round_half_even_mono.
  apply Qle_shift_div_l; [apply pow2_pos|].
  change (inject_Z 0) with 0%Q. rewrite Qmult_0_l. lra.
Qed.

Lemma fl_pos q : (0 < q)%Q -> fl q = round_pos q.
Proof.
  intros H. unfold fl. apply Qgt_alt in H. now rewrite H.
Qed.

Lemma fl_zero q : (q == 0)%Q -> fl q = 0%Q.
Proof. intros H. unfold fl. apply Qeq_alt in H. now rewrite H. Qed.

(** Rounding is monotone on the numbers that are not negative. *)
Lemma fl_mono x y : (0 <= x)%Q -> (x <= y)%Q -> (fl x <= fl y)%Q.
Proof.
  intros Hx Hxy. destruct (Qlt_le_dec 0 x) as [Hpos|Hzero].
  - rewrite !fl_pos by lra. now apply round_pos_mono.
  - rewrite (fl_zero x) by lra.
    destruct (Qlt_le_dec 0 y) as [Hy|Hy].
    + rewrite fl_pos by exact Hy. now apply round_pos_nonneg.
    + rewrite (fl_zero y) by lra. lra.
Qed.

(** The integers below [2^53] are floats. *)
Lemma fl_Z n : 0 <= n < 2 ^ 53 -> (fl (inject_Z n) == inject_Z n)%Q.
Proof.
  intros [Hn0 Hn]. destruct (Z.eq_dec n 0) as [->|Hne]; [reflexivity|].
  assert (Hpos : (0 < inject_Z n)%Q).
  { change 0%Q with (inject_Z 0). rewrite <- Zlt_Qlt. lia. }
  rewrite fl_pos by exact Hpos. rewrite round_pos_eq.
  destruct (binade_spec _ Hpos) as [Hb _].
  assert (Hb53 : binade (inject_Z n) < 53).
  { apply pow2_lt_inv. eapply Qle_lt_trans; [exact Hb|].
    rewrite pow2_nonneg_Z by lia. rewrite <- Zlt_Qlt. exact Hn. }
  set (e := grid_exponent (inject_Z n)).
  assert (He : e <= 0) by (subst e; unfold grid_exponent, emin; lia).
  assert (Hs : (inject_Z n / pow2 e == inject_Z (n * 2 ^ (- e)))%Q).
  { rewrite inject_Z_mult. rewrite <- pow2_nonneg_Z by lia.
    unfold Qdiv. apply Qmult_comp; [reflexivity|].
    unfold pow2. rewrite Qpower_opp. reflexivity. }
  assert (Hr : round_half_even (inject_Z n / pow2 e) = n * 2 ^ (- e)).
  { rewrite <- (round_half_even_Z (n * 2 ^ (- e))).
    apply Z.le_antisymm; apply round_half_even_mono; rewrite Hs; apply Qle_refl. }
  rewrite Hr. rewrite inject_Z_mult. rewrite <- pow2_nonneg_Z by lia.
  rewrite <- Qmult_assoc. rewrite <- pow2_plus.
  replace (- e + e) with 0 by lia. change (pow2 0) with 1%Q. ring.
Qed.

Lemma fl_nonneg q : (0 <= q)%Q -> (0 <= fl q)%Q.
Proof. intros H. exact (fl_mono 0 q (Qle_refl 0) H). Qed.

(** A result between zero and a bound that rounds within the range is
    finite. *)
Lemma rounded_finite q B :
  (0 <= q)%Q -> (q <= B)%Q -> (fl B < pow2 1024)%Q ->
  rounded q = Finite (fl q) /\ (0 <= fl q)%Q /\ (fl q <= fl B)%Q.
Proof.
  intros H0 HB Hlim.
  pose proof (fl_nonneg q H0) as Hlo.
  pose proof (fl_mono q B H0 HB) as Hhi.
  split; [|split; assumption].
  unfold rounded. cbv zeta.
  destruct (Qle_bool (pow2 1024) (Qabs (fl q))) eqn:E; [|reflexivity].
  apply Qle_bool_iff in E. rewrite (Qabs_pos _ Hlo) in E.
  exfalso. apply (Qlt_irrefl (pow2 1024)).
  eapply Qle_lt_trans; [exact E|]. eapply Qle_lt_trans; [exact Hhi | exact Hlim].
Qed.

Lemma is_negative_pos q : (0 < q)%Q -> is_negative q = false.
Proof. intros H. unfold is_negative. apply Qgt_alt in H. now rewrite H. Qed.

(** A result above a positive bound is the positive infinity or a finite
    float above the rounded bound. *)
Lemma rounded_large q L :
  (0 < L)%Q -> (L <= q)%Q ->
  rounded q = Infinity false \/
  (rounded q = Finite (fl q) /\ (fl L <= fl q)%Q).
Proof.
  intros HL Hq. unfold rounded. cbv zeta.
  rewrite is_negative_pos by (eapply Qlt_le_trans; eauto).
  destruct (Qle_bool _ _); [left; reflexivity|].
  right. split; [reflexivity|]. apply fl_mono; [apply Qlt_le_weak|]; assumption.
Qed.

(** A result of [2^1024] or more is the positive infinity. *)
Lemma rounded_overflow q : (pow2 1024 <= q)%Q -> rounded q = Infinity false.
Proof.
  intros Hq. pose proof (pow2_pos 1024) as Hp.
  unfold rounded. cbv zeta.
  rewrite is_negative_pos by (eapply Qlt_le_trans; eauto).
  assert (Hf : (pow2 1024 <= fl q)%Q).
  { assert (E : (fl (pow2 1024) == pow2 1024)%Q) by qcompute.
    rewrite <- E. apply fl_mono; [apply Qlt_le_weak|]; assumption. }
  assert (Ha : Qle_bool (pow2 1024) (Qabs (fl q)) = true).
  { apply Qle_bool_iff. eapply Qle_trans; [exact Hf | apply Qle_Qabs]. }
  now rewrite Ha.
Qed.

Lemma of_int_small n :
  0 <= n < 2 ^ 53 ->
  of_int n = Returns (Finite (fl (inject_Z n))) /\
  (fl (inject_Z n) == inject_Z n)%Q.
Proof.
  intros Hn. split; [|now apply fl_Z].
  unfold of_int.
  destruct (rounded_finite (inject_Z n) (inject_Z (2 ^ 53))) as (E & _).
  - change 0%Q with (inject_Z 0). rewrite <- Zle_Qle. lia.
  - rewrite <- Zle_Qle. lia.
  - qcompute.
  - now rewrite E.
Qed.

(** [int(x)] is the floor of a float that is not negative. *)
Lemma int_of_float_floor x : (0 <= x)%Q -> int_of_float x = Qfloor x.
Proof.
  destruct x as [n d]. unfold int_of_float, Qle. simpl. intros Hn.
  apply Z.quot_div_nonneg; lia.
Qed.

(** [int(x)] is the integer part of a non-negative [x]. *)
Lemma int_of_float_bounds (x : Q) :
  (0 <= x)%Q ->
  (inject_Z (int_of_float x) <= x)%Q /\ (x < inject_Z (int_of_float x) + 1)%Q.
Proof.
  intros Hx. rewrite (int_of_float_floor x Hx).
  split; [apply Qfloor_le|].
  pose proof (Qlt_floor x) as H. rewrite inject_Z_plus in H. exact H.
Qed.

Lemma int_of_float_unique (x : Q) (n : Z) :
  (inject_Z n <= x)%Q -> (x < inject_Z n + 1)%Q -> 0 <= n ->
  int_of_float x = n.
Proof.
  intros Hlo Hhi Hn.
  assert (Hx : (0 <= x)%Q).
  { eapply Qle_trans; [|exact Hlo]. change 0%Q with (inject_Z 0).
    now rewrite <- Zle_Qle. }
  destruct (int_of_float_bounds x Hx) as [Mlo Mhi].
  set (m := int_of_float x) in *.
  assert (H1 : (inject_Z m < inject_Z (n + 1))%Q)
    by (rewrite inject_Z_plus; eapply Qle_lt_trans; eauto).
  assert (H2 : (inject_Z n < inject_Z (m + 1))%Q)
    by (rewrite inject_Z_plus; eapply Qle_lt_trans; eauto).
  rewrite <- Zlt_Qlt in H1, H2. lia.
Qed.

(** [2.0 ** n] within the range. *)
Lemma pow_two n :
  0 < n <= 1023 -> pow (Finite 2) n = Returns (Finite (fl (pow2 n))).
Proof.
  intros Hn. unfold pow.
  destruct (of_int_small n) as [E Er]; [lia|]. rewrite E. unfold bind.
  assert (Hfloor : Qfloor (fl (inject_Z n)) = n)
    by (rewrite Er; apply Qfloor_Z).
  cbv zeta. rewrite !Hfloor.
  destruct (Z.eqb_spec n 0) as [|_]; [lia|].
  change (Qeq_bool 2 0) with false. cbv iota.
  destruct (rounded_finite (pow2 n) (pow2 1023)) as (Ep & _).
  - apply Qlt_le_weak, pow2_pos.
  - apply pow2_mono. lia.
  - qcompute.
  - fold (pow2 n). now rewrite Ep.
Qed.

(** [2.0 ** n] out of the range. *)
Lemma pow_two_overflows n :
  1024 <= n ->
  exists message, pow (Finite 2) n = Raises (lit "OverflowError") message.
Proof.
  intros Hn. unfold pow, of_int.
  destruct (rounded_large (inject_Z n) (inject_Z 1024)) as [E | [E Hle]].
  - reflexivity.
  - rewrite <- Zle_Qle. exact Hn.
  - rewrite E. eexists. reflexivity.
  - rewrite E. unfold bind.
    assert (Hw : 1024 <= Qfloor (fl (inject_Z n))).
    { change 1024 with (Qfloor (fl (inject_Z 1024))). now apply Qfloor_resp_le. }
    destruct (Z.eqb_spec (Qfloor (fl (inject_Z n))) 0) as [E0|_]; [lia|].
    change (Qeq_bool 2 0) with false. cbv iota.
    rewrite rounded_overflow; [eexists; reflexivity|].
    apply pow2_mono. exact Hw.
Qed.

End FloatFacts.

Module RetryManagerFacts.
Import Py Float FloatFacts RetryManager.

Lemma first_reason_none d error_lower :
  existsb (fun rc => any_contains (patterns (snd rc)) error_lower) d = false ->
  first_reason d error_lower = None.
Proof.
  induction d as [|[r c] d IH]; simpl; [reflexivity|].
  intros H. apply orb_false_iff in H as [H1 H2].
  rewrite H1. now apply IH.
Qed.

(** C10. [categorize_failure] returns a reason on every input, and the
    reason is [UNKNOWN] for [None], for the empty message, and for every
    message in which none of the configured patterns occurs. *)
Theorem categorize_failure_defaults_to_unknown :
  categorize_failure None = UNKNOWN /\
  categorize_failure (Some []) = UNKNOWN /\
  (forall m, mentions_pattern m = false ->
             categorize_failure (Some m) = UNKNOWN).
Proof.
  split; [reflexivity|]. split; [reflexivity|].
  intros m H. unfold categorize_failure.
  destruct (negb (truthy m)); [reflexivity|].
  unfold mentions_pattern in H.
  now rewrite (first_reason_none _ _ H).
Qed.

Lemma categorize_failure_defaults_to_unknown_witness :
  mentions_pattern (lit "Unexpected EOF while reading body") = false /\
  categorize_failure (Some (lit "Unexpected EOF while reading body")) = UNKNOWN.
Proof.
  split; [vm_compute; reflexivity|].
  apply (proj2 (proj2 categorize_failure_defaults_to_unknown)).
  vm_compute; reflexivity.
Defined.

(** *** The retry delay *)

Lemma multiplier_of_table reason :
  get_retry_multiplier (patterns_get failure_patterns reason) = multiplier reason.
Proof. destruct reason; reflexivity. Qed.

Lemma calculate_retry_delay_general retry_count reason draw :
  reason <> RATE_LIMITED -> reason <> SERVER_ERROR -> reason <> FILE_CORRUPTED ->
  calculate_retry_delay default_config retry_count reason draw =
  (delay <- delay_before_jitter default_config retry_count
              (literal (multiplier reason)) ;;
   int_of (mul delay (uniform (literal (8 # 10)) (literal (12 # 10)) draw))).
Proof. intros H1 H2 H3. destruct reason; try congruence; reflexivity. Qed.

(** The jitter lies between the floats [0.8] and [1.2]. *)
Lemma jitter_range draw :
  (0 <= draw)%Q -> (draw < 1)%Q ->
  exists j,
    uniform (literal (8 # 10)) (literal (12 # 10)) draw = Finite j /\
    (fl (8 # 10) <= j)%Q /\ (j <= fl (12 # 10))%Q.
Proof.
  intros H0 H1.
  assert (Ea : literal (8 # 10) = Finite (fl (8 # 10))) by (vm_compute; reflexivity).
  assert (Eb : literal (12 # 10) = Finite (fl (12 # 10))) by (vm_compute; reflexivity).
  assert (Ew : sub (Finite (fl (12 # 10))) (Finite (fl (8 # 10)))
               = Finite (fl (fl (12 # 10) - fl (8 # 10))))
    by (vm_compute; reflexivity).
  unfold uniform. rewrite Ea, Eb, Ew.
  assert (Hw0 : (0 <= fl (fl (12 # 10) - fl (8 # 10)))%Q) by qcompute.
  assert (Ha0 : (0 <= fl (8 # 10))%Q) by qcompute.
  assert (Haa : (fl (fl (8 # 10)) == fl (8 # 10))%Q) by qcompute.
  assert (Hab : (fl (fl (8 # 10) + fl (fl (fl (12 # 10) - fl (8 # 10))))
                 == fl (12 # 10))%Q) by qcompute.
  assert (Hww : (fl (fl (fl (12 # 10) - fl (8 # 10)) * 1)
                 == fl (fl (fl (12 # 10) - fl (8 # 10))))%Q) by qcompute.
  assert (Hlim : (fl (fl (8 # 10) + fl (fl (fl (12 # 10) - fl (8 # 10))))
                  < pow2 1024)%Q) by qcompute.
  assert (Hlimw : (fl (fl (fl (12 # 10) - fl (8 # 10)) * 1) < pow2 1024)%Q)
    by qcompute.
  set (a := fl (8 # 10)) in *. set (b := fl (12 # 10)) in *.
  set (w := fl (b - a)) in *.
  destruct (rounded_finite draw 1 H0) as (Ed & Hd0 & Hd1);
    [now apply Qlt_le_weak | qcompute |].
  change (fl 1) with 1%Q in Hd1.
  rewrite Ed. cbn [mul].
  destruct (rounded_finite (w * fl draw) (w * 1)) as (Et & Ht0 & Ht1).
  - now apply Qmult_le_0_compat.
  - destruct (Qle_lt_or_eq _ _ Hw0) as [Hpos | Hz].
    + now apply Qmult_le_l.
    + rewrite <- Hz, !Qmult_0_l. apply Qle_refl.
  - exact Hlimw.
  - rewrite Et. cbn [add]. rewrite Hww in Ht1.
    destruct (rounded_finite (a + fl (w * fl draw)) (a + fl w)) as (Ej & _ & Hj1).
    + apply (Qplus_le_compat 0 a 0); assumption.
    + apply Qplus_le_r. exact Ht1.
    + exact Hlim.
    + rewrite Ej. eexists. split; [reflexivity|]. split.
      * apply Qle_trans with (fl a); [rewrite Haa; apply Qle_refl|].
        apply fl_mono; [exact Ha0|].
        apply Qle_trans with (a + 0)%Q; [rewrite Qplus_0_r; apply Qle_refl|].
        apply Qplus_le_r. exact Ht0.
      * apply Qle_trans with (fl (a + fl w)); [exact Hj1|].
        rewrite Hab. apply Qle_refl.
Qed.

(** The delay times the jitter, as an integer: between the integer parts
    of the products with the two ends of the jitter. *)
Lemma jittered_delay D j :
  (0 < D)%Q -> (D <= 3600)%Q ->
  (fl (8 # 10) <= j)%Q -> (j <= fl (12 # 10))%Q ->
  exists n,
    int_of (mul (Finite D) (Finite j)) = Returns n /\
    Qfloor (fl (D * fl (8 # 10))) <= n <= Qfloor (fl (D * fl (12 # 10))).
Proof.
  intros HD0 HD1 Hja Hjb.
  assert (Ha0 : (0 < fl (8 # 10))%Q) by qcompute.
  assert (Hb0 : (0 < fl (12 # 10))%Q) by qcompute.
  assert (Hlim : (fl (3600 * fl (12 # 10)) < pow2 1024)%Q) by qcompute.
  set (a := fl (8 # 10)) in *. set (b := fl (12 # 10)) in *.
  assert (Hj0 : (0 < j)%Q) by (apply Qlt_le_trans with a; assumption).
  assert (Hlo : (D * a <= D * j)%Q) by (apply Qmult_le_l; assumption).
  assert (Hhi : (D * j <= D * b)%Q) by (apply Qmult_le_l; assumption).
  assert (Hcap : (D * b <= 3600 * b)%Q) by (apply Qmult_le_r; assumption).
  assert (Hpos : (0 <= D * a)%Q)
    by (apply Qmult_le_0_compat; now apply Qlt_le_weak).
  cbn [mul].
  assert (Hpos' : (0 <= D * j)%Q) by (apply Qle_trans with (D * a)%Q; assumption).
  destruct (rounded_finite (D * j) (3600 * b)) as (E & Hf0 & _).
  - exact Hpos'.
  - apply Qle_trans with (D * b)%Q; assumption.
  - exact Hlim.
  - rewrite E. cbn [int_of]. eexists. split; [reflexivity|].
    rewrite (int_of_float_floor _ Hf0).
    split; apply Qfloor_resp_le, fl_mono; assumption.
Qed.

Lemma formula_capped retry_count reason :
  6 <= retry_count ->
  reason <> RATE_LIMITED -> reason <> SERVER_ERROR -> reason <> FILE_CORRUPTED ->
  (backoff_formula default_config retry_count reason == 3600)%Q.
Proof.
  intros Hc H1 H2 H3. unfold backoff_formula.
  change (inject_Z (max_delay default_config)) with 3600%Q.
  change (inject_Z (base_delay default_config)) with 60%Q.
  change (exponential_base default_config) with 2%Q.
  apply Q.min_l.
  assert (Hp : (64 <= 2 ^ retry_count)%Q).
  { change 64%Q with (pow2 6). apply pow2_mono. exact Hc. }
  assert (Hm : (1 <= multiplier reason)%Q)
    by (destruct reason; try congruence; qcompute).
  apply Qle_trans with (60 * 64 * 1)%Q; [qcompute|].
  apply Qle_trans with (60 * 2 ^ retry_count * 1)%Q.
  - apply Qmult_le_compat_r; [|discriminate].
    apply Qmult_le_l; [reflexivity | exact Hp].
  - apply Qmult_le_l; [|exact Hm].
    apply Qlt_le_trans with (60 * 64)%Q; [reflexivity|].
    apply Qmult_le_l; [reflexivity | exact Hp].
Qed.

(** From the seventh retry on, the delay before jitter is the cap. *)
Lemma delay_capped retry_count reason :
  6 <= retry_count <= 1023 ->
  reason <> RATE_LIMITED -> reason <> SERVER_ERROR -> reason <> FILE_CORRUPTED ->
  delay_before_jitter default_config retry_count (literal (multiplier reason))
  = Returns (Finite 3600).
Proof.
  intros Hc H1 H2 H3. unfold delay_before_jitter.
  change (literal (exponential_base default_config)) with (literal 2).
  assert (E2 : literal 2 = Finite 2) by (vm_compute; reflexivity).
  rewrite E2, pow_two by lia. unfold bind.
  change (base_delay default_config) with 60.
  change (max_delay default_config) with 3600.
  assert (E60 : of_int 60 = Returns (Finite 60)) by (vm_compute; reflexivity).
  assert (E3600 : of_int 3600 = Returns (Finite 3600)) by (vm_compute; reflexivity).
  rewrite E60, E3600.
  assert (Hp : (64 <= fl (pow2 retry_count))%Q).
  { change 64%Q with (fl (pow2 6)). apply fl_mono;
      [apply Qlt_le_weak, pow2_pos | apply pow2_mono; lia]. }
  assert (Hm : exists mu, literal (multiplier reason) = Finite mu /\ (1 <= mu)%Q).
  { destruct reason; try congruence; eexists;
      (split; [vm_compute; reflexivity | qcompute]). }
  destruct Hm as (mu & Emu & Hmu). rewrite Emu.
  assert (Hlt : int_lt 3600 (mul (mul (Finite 60) (Finite (fl (pow2 retry_count))))
                               (Finite mu)) = true).
  { cbn [mul].
    destruct (rounded_large (60 * fl (pow2 retry_count)) 3840) as [E | [E Hx]].
    - reflexivity.
    - apply Qle_trans with (60 * 64)%Q; [qcompute|].
      apply Qmult_le_l; [reflexivity | exact Hp].
    - rewrite E.
      assert (Hz : Qeq_bool mu 0 = false).
      { apply not_true_is_false. intros Hq. apply Qeq_bool_iff in Hq.
        rewrite Hq in Hmu. exact (Hmu eq_refl). }
      cbn [mul]. rewrite Hz. rewrite is_negative_pos; [reflexivity|].
      eapply Qlt_le_trans; [|exact Hmu]. reflexivity.
    - rewrite E. change (fl 3840) with 3840%Q in Hx.
      set (x := fl (60 * fl (pow2 retry_count))) in *. cbn [mul].
      destruct (rounded_large (x * mu) 3840) as [E' | [E' Hy]].
      + reflexivity.
      + apply Qle_trans with (x * 1)%Q; [now rewrite Qmult_1_r|].
        apply Qmult_le_l; [|exact Hmu].
        eapply Qlt_le_trans; [|exact Hx]. reflexivity.
      + rewrite E'. reflexivity.
      + rewrite E'. change (fl 3840) with 3840%Q in Hy. cbn [int_lt].
        assert (Hc' : (inject_Z 3600 < fl (x * mu))%Q)
          by (eapply Qlt_le_trans; [|exact Hy]; reflexivity).
        destruct (Qcompare_spec (inject_Z 3600) (fl (x * mu))) as [C|C|C];
          [|reflexivity|]; exfalso.
        * rewrite C in Hc'. exact (Qlt_irrefl _ Hc').
        * exact (Qlt_irrefl _ (Qlt_trans _ _ _ C Hc')). }
  rewrite Hlt. reflexivity.
Qed.

(** Within the range of the power, the delay before jitter is the value of
    the formula; its products with the two ends of the jitter, as
    integers, stay within 0.8 and 1.2 times that value, the lower one by
    less than a unit. *)
Lemma delay_before_jitter_value retry_count reason :
  0 <= retry_count <= 1023 ->
  reason <> RATE_LIMITED -> reason <> SERVER_ERROR -> reason <> FILE_CORRUPTED ->
  exists D,
    delay_before_jitter default_config retry_count (literal (multiplier reason))
    = Returns (Finite D) /\
    (D == backoff_formula default_config retry_count reason)%Q /\
    (0 < D)%Q /\ (D <= 3600)%Q /\
    ((8 # 10) * D - 1 < inject_Z (Qfloor (fl (D * fl (8 # 10)))))%Q /\
    (inject_Z (Qfloor (fl (D * fl (12 # 10)))) <= (12 # 10) * D)%Q.
Proof.
  intros Hc H1 H2 H3.
  destruct (Z_lt_le_dec retry_count 6) as [Hsmall | Hbig].
  - assert (Hcases : retry_count = 0 \/ retry_count = 1 \/ retry_count = 2 \/
                     retry_count = 3 \/ retry_count = 4 \/ retry_count = 5) by lia.
    destruct reason; try congruence;
      destruct Hcases as [-> | [-> | [-> | [-> | [-> | ->]]]]];
      eexists; (split; [vm_compute; reflexivity|]); repeat split; qcompute.
  - exists 3600%Q. split; [apply delay_capped; auto; lia|].
    split; [symmetry; apply formula_capped; auto|].
    repeat split; qcompute.
Qed.

(** The value of the formula lies between zero and the cap. *)
Lemma formula_range retry_count reason :
  (0 <= backoff_formula default_config retry_count reason)%Q /\
  (backoff_formula default_config retry_count reason <= 3600)%Q.
Proof.
  unfold backoff_formula.
  change (inject_Z (max_delay default_config)) with 3600%Q.
  change (inject_Z (base_delay default_config)) with 60%Q.
  change (exponential_base default_config) with 2%Q.
  split; [|apply Q.le_min_l].
  apply Q.min_glb; [discriminate|].
  apply Qmult_le_0_compat; [|destruct reason; discriminate].
  apply Qmult_le_0_compat; [discriminate|].
  apply Qlt_le_weak. apply (pow2_pos retry_count).
Qed.

(** The delay of a reason without special handling, while the power is in
    range: an integer between 0.8 times the formula, less a unit, and 1.2
    times the formula. *)
Lemma delay_in_band retry_count reason draw :
  0 <= retry_count <= 1023 -> (0 <= draw)%Q -> (draw < 1)%Q ->
  reason <> RATE_LIMITED -> reason <> SERVER_ERROR -> reason <> FILE_CORRUPTED ->
  exists n,
    calculate_retry_delay default_config retry_count reason draw = Returns n /\
    0 <= n /\
    ((8 # 10) * backoff_formula default_config retry_count reason - 1
     < inject_Z n)%Q /\
    (inject_Z n
     <= (12 # 10) * backoff_formula default_config retry_count reason)%Q.
Proof.
  intros Hc Hd0 Hd1 H1 H2 H3.
  rewrite calculate_retry_delay_general by assumption.
  destruct (delay_before_jitter_value retry_count reason Hc H1 H2 H3)
    as (D & ED & EF & HD0 & HD1 & Hlo & Hhi).
  destruct (jitter_range draw Hd0 Hd1) as (j & Ej & Hja & Hjb).
  rewrite ED, Ej. unfold bind.
  destruct (jittered_delay D j HD0 HD1 Hja Hjb) as (n & En & Hn1 & Hn2).
  exists n. split; [exact En|].
  rewrite <- EF.
  assert (Hfloor0 : 0 <= Qfloor (fl (D * fl (8 # 10)))).
  { change 0 with (Qfloor 0). apply Qfloor_resp_le, fl_nonneg.
    apply Qmult_le_0_compat; [now apply Qlt_le_weak | qcompute]. }
  split; [lia|]. split.
  - eapply Qlt_le_trans; [exact Hlo|]. now rewrite <- Zle_Qle.
  - eapply Qle_trans; [|exact Hhi]. now rewrite <- Zle_Qle.
Qed.

(** Beyond the range of the power, the delay of such a reason is not
    computed: [2.0 ** retry_count] raises. *)
Lemma delay_overflows retry_count reason draw :
  1024 <= retry_count ->
  reason <> RATE_LIMITED -> reason <> SERVER_ERROR -> reason <> FILE_CORRUPTED ->
  exists message,
    calculate_retry_delay default_config retry_count reason draw
    = Raises (lit "OverflowError") message.
Proof.
  intros Hc H1 H2 H3.
  rewrite calculate_retry_delay_general by assumption.
  unfold delay_before_jitter.
  change (literal (exponential_base default_config)) with (literal 2).
  assert (E2 : literal 2 = Finite 2) by (vm_compute; reflexivity).
  rewrite E2. destruct (pow_two_overflows retry_count Hc) as [message E].
  rewrite E. exists message. reflexivity.
Qed.

(** An integer within the band is the integer part of the formula times
    some factor between 0.8 and 1.2. *)
Lemma band_is_jitter (D : Q) (n : Z) :
  (0 <= D)%Q -> 0 <= n ->
  ((8 # 10) * D - 1 < inject_Z n)%Q -> (inject_Z n <= (12 # 10) * D)%Q ->
  exists jitter : Q,
    (8 # 10 <= jitter)%Q /\ (jitter <= 12 # 10)%Q /\
    n = int_of_float (D * jitter).
Proof.
  intros HD Hn Hlo Hhi.
  destruct (Qle_lt_or_eq _ _ HD) as [Hpos | Hz].
  2: { exists (8 # 10). split; [apply Qle_refl|]. split; [discriminate|].
       symmetry. apply int_of_float_unique; [| |exact Hn]; lra. }
  destruct (Qlt_le_dec (inject_Z n) ((8 # 10) * D)) as [Hlt | Hge].
  - exists (8 # 10). split; [apply Qle_refl|]. split; [discriminate|].
    symmetry. apply int_of_float_unique; [| |exact Hn]; lra.
  - exists (inject_Z n / D)%Q.
    assert (Hne : ~ (D == 0)%Q) by (intros H; rewrite H in Hpos; discriminate).
    assert (Hx : (D * (inject_Z n / D) == inject_Z n)%Q) by (field; exact Hne).
    split; [|split].
    + apply Qle_shift_div_l; [exact Hpos | lra].
    + apply Qle_shift_div_r; [exact Hpos | lra].
    + symmetry. apply int_of_float_unique; [| |exact Hn]; rewrite Hx; lra.
Qed.

(** C7, as the code has it, for the configuration the manager is built
    with.  A rate-limited failure waits 300 seconds, a server error 900 and
    a corrupted file 0, at every retry count.  For every other reason and a
    retry count from 0 to 1023, the delay is the integer part of
    [min(3600, 60 * 2^retry_count * multiplier)] times some factor between
    0.8 and 1.2; from 1024 on, the power is out of the range of a float and
    the computation raises [OverflowError]. *)
Theorem calculate_retry_delay_by_reason (retry_count : Z)
  (reason : RetryReason) (draw : Q) :
  calculate_retry_delay default_config retry_count RATE_LIMITED draw = Returns 300 /\
  calculate_retry_delay default_config retry_count SERVER_ERROR draw = Returns 900 /\
  calculate_retry_delay default_config retry_count FILE_CORRUPTED draw = Returns 0 /\
  (reason <> RATE_LIMITED -> reason <> SERVER_ERROR -> reason <> FILE_CORRUPTED ->
   (0 <= draw)%Q -> (draw < 1)%Q ->
   (0 <= retry_count <= 1023 ->
    exists jitter : Q,
      (8 # 10 <= jitter)%Q /\ (jitter <= 12 # 10)%Q /\
      calculate_retry_delay default_config retry_count reason draw
      = Returns (int_of_float
                   (backoff_formula default_config retry_count reason * jitter))) /\
   (1024 <= retry_count ->
    exists message,
      calculate_retry_delay default_config retry_count reason draw
      = Raises (lit "OverflowError") message)) /\
  base_delay default_config = 60 /\
  exponential_base default_config = 2%Q /\
  max_delay default_config = 3600.
Proof.
  split; [reflexivity|]. split; [reflexivity|]. split; [reflexivity|].
  split; [|repeat split].
  intros H1 H2 H3 Hd0 Hd1. split.
  - intros Hc.
    destruct (delay_in_band retry_count reason draw Hc Hd0 Hd1 H1 H2 H3)
      as (n & En & Hn & Hlo & Hhi).
    destruct (band_is_jitter _ n (proj1 (formula_range retry_count reason))
                Hn Hlo Hhi) as (jitter & Hj1 & Hj2 & Ej).
    exists jitter. split; [exact Hj1|]. split; [exact Hj2|].
    rewrite En, Ej. reflexivity.
  - intros Hc. now apply delay_overflows.
Qed.

Lemma calculate_retry_delay_by_reason_witness :
  exists jitter : Q,
    (8 # 10 <= jitter)%Q /\ (jitter <= 12 # 10)%Q /\
    calculate_retry_delay default_config 3 UNKNOWN (1 # 2)
    = Returns (int_of_float (backoff_formula default_config 3 UNKNOWN * jitter)).
Proof.
  destruct (calculate_retry_delay_by_reason 3 UNKNOWN (1 # 2))
    as (_ & _ & _ & H & _).
  destruct H as [H _];
    [discriminate | discriminate | discriminate | discriminate | reflexivity |].
  apply H. lia.
Defined.

(** When [random()] draws 0 the delay of a timeout at the first retry is
    57 seconds, the integer part of [72 * 0.8]; no [j] between 0.8 and 1.2
    gives [72 * j = 57]. *)
Lemma retry_delay_is_truncated :
  calculate_retry_delay default_config 0 TIMEOUT 0 = Returns 57 /\
  (backoff_formula default_config 0 TIMEOUT == 72)%Q /\
  ~ (exists j : Q,
       (8 # 10 <= j)%Q /\ (j <= 12 # 10)%Q /\
       (inject_Z 57 == backoff_formula default_config 0 TIMEOUT * j)%Q).
Proof.
  split; [vm_compute; reflexivity|].
  assert (Hb : (backoff_formula default_config 0 TIMEOUT == 72)%Q) by qcompute.
  split; [exact Hb|].
  intros (j & Hlo & _ & He). rewrite Hb in He.
  assert (H57 : (inject_Z 57 == 57)%Q) by reflexivity.
  rewrite H57 in He. lra.
Qed.

End RetryManagerFacts.

Module CircuitBreakerFacts.
Import CircuitBreaker.

Lemma run_snoc b history e : run b (history ++ [e]) = step (run b history) e.
Proof. unfold run. now rewrite fold_left_app. Qed.

Lemma consecutive_failures_snoc history e :
  consecutive_failures (history ++ [e]) =
  match e with
  | CallAllowed _ => consecutive_failures history
  | Success => 0
  | Failure _ => consecutive_failures history + 1
  end.
Proof. unfold consecutive_failures. now rewrite fold_left_app. Qed.

Lemma last_failure_snoc history e :
  last_failure (history ++ [e]) =
  match e with
  | Failure now => Some now
  | _ => last_failure history
  end.
Proof. unfold last_failure. now rewrite fold_left_app. Qed.

Lemma call_allowed_cases now b :
  snd (call_allowed now b) = b \/
  (state b = OPEN /\ snd (call_allowed now b) = set_state HALF_OPEN b).
Proof.
  unfold call_allowed.
  destruct (state b) eqn:E; simpl; auto.
  destruct (last_failure_time b); simpl; auto.
  destruct (timeout_elapsed _ _ _); simpl; auto.
Qed.

Lemma reachable thr rt history :
  reachable_inv thr rt history (run (init thr rt) history).
Proof.
  induction history as [|e history IH] using rev_ind.
  - split; simpl; try reflexivity. intros H; now elim H.
  - rewrite run_snoc. set (b := run (init thr rt) history) in *.
    destruct IH as [Hthr Hrt Hcnt Hlast Htrip].
    destruct e as [now| |now]; simpl.
    + destruct (call_allowed_cases now b) as [-> | [Hopen ->]].
      * split; rewrite ?consecutive_failures_snoc, ?last_failure_snoc; auto.
      * split; rewrite ?consecutive_failures_snoc, ?last_failure_snoc; simpl; auto.
        intros _. apply Htrip. rewrite Hopen. discriminate.
    + split; rewrite ?consecutive_failures_snoc, ?last_failure_snoc; simpl; auto.
      intros H; now elim H.
    + split; rewrite ?consecutive_failures_snoc, ?last_failure_snoc; simpl; auto.
      * now rewrite Hcnt.
      * rewrite Hthr. destruct (Z.leb_spec thr (failure_count b + 1)) as [Hle|Hlt].
        -- intros _. split; [exact Hle | eauto].
        -- intros Hst. destruct (Htrip Hst) as [Hge _]. lia.
Qed.

(** C6. After any history of calls on a fresh breaker: recording a failure
    leaves the breaker OPEN exactly when the failures recorded since the
    last success, this one included, reach the threshold; an OPEN breaker
    refuses calls until more than [recovery_timeout] seconds have passed
    since the last recorded failure, and the first call after that is
    allowed and makes it HALF_OPEN; a HALF_OPEN breaker allows calls, a
    success closes it with the counter at zero, a failure opens it
    again. *)
Theorem breaker_protocol (thr rt : Z) (history : list event) :
  let b := run (init thr rt) history in
  failure_count b = consecutive_failures history /\
  (forall now,
     state (record_failure now b) = OPEN <->
     thr <= consecutive_failures history + 1) /\
  (state b = OPEN ->
   exists last,
     last_failure history = Some last /\
     forall now,
       (now - last <= rt * 1000000 -> call_allowed now b = (false, b)) /\
       (rt * 1000000 < now - last ->
        fst (call_allowed now b) = true /\
        state (snd (call_allowed now b)) = HALF_OPEN /\
        failure_count (snd (call_allowed now b)) = failure_count b)) /\
  (state b = HALF_OPEN ->
   (forall now, call_allowed now b = (true, b)) /\
   state (record_success b) = CLOSED /\
   failure_count (record_success b) = 0 /\
   (forall now, state (record_failure now b) = OPEN)).
Proof.
  intros b. destruct (reachable thr rt history) as [Hthr Hrt Hcnt Hlast Htrip].
  fold b in Hthr, Hrt, Hcnt, Hlast, Htrip.
  split; [exact Hcnt|]. split; [|split].
  - intros now. simpl. rewrite Hthr, <- Hcnt.
    destruct (Z.leb_spec thr (failure_count b + 1)) as [Hle|Hlt].
    + tauto.
    + split; [|lia]. intros Hst.
      assert (Hne : state b <> CLOSED) by (rewrite Hst; discriminate).
      destruct (Htrip Hne) as [Hge _]. lia.
  - intros Hopen.
    assert (Hne : state b <> CLOSED) by (rewrite Hopen; discriminate).
    destruct (Htrip Hne) as [_ [last Hl]].
    exists last. split; [now rewrite <- Hlast|].
    intros now. unfold call_allowed, timeout_elapsed. rewrite Hopen, Hl, Hrt.
    split; intros H.
    + destruct (Z.ltb_spec (rt * 1000000) (now - last)); [lia|reflexivity].
    + destruct (Z.ltb_spec (rt * 1000000) (now - last)); [|lia].
      simpl. auto.
  - intros Hhalf.
    assert (Hne : state b <> CLOSED) by (rewrite Hhalf; discriminate).
    destruct (Htrip Hne) as [Hge _].
    repeat split.
    + intros now. unfold call_allowed. now rewrite Hhalf.
    + intros now. simpl. rewrite Hthr.
      destruct (Z.leb_spec thr (failure_count b + 1)); [reflexivity|lia].
Qed.

Lemma breaker_protocol_witness :
  let opened := run (init 2 60) [Failure 0; Failure 1000000] in
  let probing :=
    run (init 2 60) [Failure 0; Failure 1000000; CallAllowed 62000000] in
  state opened = OPEN /\
  call_allowed 30000000 opened = (false, opened) /\
  state probing = HALF_OPEN /\
  state (record_failure 63000000 probing) = OPEN.
Proof.
  intros opened probing.
  destruct (breaker_protocol 2 60 [Failure 0; Failure 1000000])
    as (_ & _ & Ho & _).
  destruct (breaker_protocol 2 60
              [Failure 0; Failure 1000000; CallAllowed 62000000])
    as (_ & _ & _ & Hh).
  split; [reflexivity|]. split.
  - destruct (Ho eq_refl) as (last & Hl & Hc).
    injection Hl as <-. apply (Hc 30000000). vm_compute. discriminate.
  - split; [reflexivity|]. apply (Hh eq_refl).
Defined.

End CircuitBreakerFacts.

Module AdvancedQueueManagerFacts.
Import Py AdvancedQueueManager.

(** *** The smart-retry filter *)

Lemma indexer_failing_count now fp d :
  indexer_failing now fp d = true <->
  (5 < recent_failure_count now fp (indexer_id d))%nat.
Proof.
  unfold indexer_failing, recent_failure_count.
  destruct (fp !! indexer_id d) as [fs|]; simpl.
  - rewrite Z.ltb_lt. lia.
  - split; [discriminate | lia].
Qed.

Lemma permanent_error_pattern d :
  permanent_error d = true <->
  exists m p, error_message d = Some m /\ In p permanent_patterns /\
              contains p (lower m) = true.
Proof.
  unfold permanent_error. split.
  - destruct (error_message d) as [m|]; [|discriminate].
    intros H. apply andb_true_iff in H as [_ H].
    apply existsb_exists in H as (p & Hp & Hc). eauto.
  - intros (m & p & -> & Hp & Hc).
    assert (Ha : any_contains permanent_patterns (lower m) = true)
      by (apply existsb_exists; eauto).
    rewrite Ha, andb_true_r.
    destruct m; [|reflexivity].
    vm_compute in Ha. discriminate.
Qed.

Lemma filter_loop_is_filter now fp downloads :
  _filter_smart_retry now fp downloads =
  List.filter (fun d => negb (indexer_failing now fp d || permanent_error d))
    downloads.
Proof.
  induction downloads as [|d ds IH]; simpl; [reflexivity|].
  destruct (indexer_failing now fp d); simpl; [exact IH|].
  destruct (permanent_error d); simpl; [exact IH|].
  now rewrite IH.
Qed.

(** C3, as the code has it.  A download of the input passes the filter
    exactly when its indexer has at most 5 failures recorded within the
    last hour and its error message, lower-cased, contains none of the
    five patterns; it is excluded when the indexer has more than 5 such
    failures or the message contains a pattern. *)
Theorem smart_retry_filter (now : Z) (fp : gmap Z (list FailureEntry))
  (downloads : list DownloadTask) (d : DownloadTask) :
  In d (_filter_smart_retry now fp downloads) <->
  In d downloads /\
  ~ ((5 < recent_failure_count now fp (indexer_id d))%nat \/
     exists m p, error_message d = Some m /\ In p permanent_patterns /\
                 contains p (lower m) = true).
Proof.
  rewrite filter_loop_is_filter, filter_In.
  rewrite <- indexer_failing_count, <- permanent_error_pattern.
  rewrite negb_true_iff, orb_false_iff.
  destruct (indexer_failing now fp d), (permanent_error d);
    intuition (try discriminate; try tauto).
Qed.

Lemma smart_retry_filter_witness :
  In timed_out (_filter_smart_retry 60 {[3 := five_failures]} [timed_out]).
Proof.
  apply (proj2 (smart_retry_filter 60 {[3 := five_failures]} [timed_out] timed_out)).
  split; [left; reflexivity|].
  intros [H | (m & p & Hm & Hp & Hc)].
  - vm_compute in H. lia.
  - injection Hm as <-.
    assert (Ha : any_contains permanent_patterns (lower (lit "Read timeout")) = true)
      by (apply existsb_exists; eauto).
    vm_compute in Ha. discriminate.
Defined.

(** An indexer with exactly 5 failures in the last hour: its downloads
    still pass the filter. *)
Lemma five_failures_still_retried :
  recent_failure_count 60 {[3 := five_failures]} (indexer_id timed_out) = 5%nat /\
  _filter_smart_retry 60 {[3 := five_failures]} [timed_out] = [timed_out].
Proof. split; vm_compute; reflexivity. Qed.

(** *** Rows under the operations *)

Lemma keeps_refl r : keeps r r.
Proof. split; reflexivity. Qed.

Lemma keeps_trans a b c : keeps a b -> keeps b c -> keeps a c.
Proof. intros [H1 H2] [H3 H4]. split; congruence. Qed.

Lemma evolves_refl d : evolves keeps d d.
Proof. intros i. destruct (d !! i); [apply keeps_refl | exact I]. Qed.

Lemma evolves_trans d1 d2 d3 :
  evolves keeps d1 d2 -> evolves keeps d2 d3 -> evolves keeps d1 d3.
Proof.
  intros H12 H23 i. specialize (H12 i). specialize (H23 i).
  destruct (d1 !! i), (d2 !! i), (d3 !! i); try tauto.
  eapply keeps_trans; eauto.
Qed.

Lemma evolves_alter (f : Row -> Row) i d :
  (forall r, keeps r (f r)) -> evolves keeps d (alter f i d).
Proof.
  intros Hf j. rewrite lookup_alter. case_decide as E.
  - subst j. destruct (d !! i); simpl; [apply Hf | exact I].
  - destruct (d !! j); [apply keeps_refl | exact I].
Qed.

Lemma manager_keeps_refl m : manager_keeps m m.
Proof. split; [reflexivity | apply evolves_refl]. Qed.

Lemma manager_keeps_trans m1 m2 m3 :
  manager_keeps m1 m2 -> manager_keeps m2 m3 -> manager_keeps m1 m3.
Proof.
  intros [F1 E1] [F2 E2]. split; [congruence | eapply evolves_trans; eauto].
Qed.

Lemma db_inv_keeps m m' : manager_keeps m m' -> db_inv m -> db_inv m'.
Proof.
  intros [_ He] Hinv i r' Hr'. specialize (He i). rewrite Hr' in He.
  destruct (db m !! i) as [r|] eqn:Hr; [|contradiction].
  destruct He as [Hc Hm]. unfold row_inv. rewrite Hc, Hm. exact (Hinv i r Hr).
Qed.

Lemma update_plain_keeps now i status msg m :
  manager_keeps m (_update_download_status now i status msg false m).
Proof.
  unfold _update_download_status.
  destruct (db_fault m) eqn:F; [apply manager_keeps_refl|].
  split; [reflexivity|]. simpl. apply evolves_alter. intros r. split; reflexivity.
Qed.

Lemma update_progress_keeps now i progress m :
  manager_keeps m (_update_download_progress now i progress m).
Proof.
  unfold _update_download_progress.
  destruct (db_fault m) eqn:F; [apply manager_keeps_refl|].
  destruct (negb (sqlite_integer progress)); [apply manager_keeps_refl|].
  split; [reflexivity|]. simpl. apply evolves_alter. intros r. split; reflexivity.
Qed.

Lemma stream_keeps now i total chunks : forall downloaded m,
  manager_keeps m (fst (stream now i total downloaded chunks m)).
Proof.
  induction chunks as [|c chunks IH]; intros downloaded m; simpl.
  - apply manager_keeps_refl.
  - destruct c as [size flag| |msg]; simpl; try apply manager_keeps_refl.
    destruct (0 <? total).
    + destruct (progress_of (downloaded + size) total) as [progress|ex message];
        simpl; [|apply manager_keeps_refl].
      destruct flag; simpl; [apply update_progress_keeps|].
      eapply manager_keeps_trans; [apply update_progress_keeps | apply IH].
    + destruct flag; simpl; [apply manager_keeps_refl | apply IH].
Qed.

Lemma try_block_keeps now download tr m :
  manager_keeps m (fst (try_block now download tr m)).
Proof.
  destruct tr as [msg| |status reason total chunks move_error]; simpl;
    try apply manager_keeps_refl.
  destruct (negb (status =? 200)); simpl; [apply manager_keeps_refl|].
  match goal with
  | |- context [stream ?n ?i ?t ?d ?c ?m0] =>
      pose proof (stream_keeps n i t c d m0) as Hs;
      destruct (stream n i t d c m0) as [m1 [e|downloaded]]
  end; unfold manager_keeps in *; simpl in *.
  - exact Hs.
  - destruct ((0 <? total) && negb (downloaded =? total))%bool; simpl; [exact Hs|].
    destruct move_error; simpl; [exact Hs|].
    destruct (db_fault m1) eqn:F; simpl; [exact Hs|].
    destruct (negb (sqlite_integer downloaded)); simpl; [exact Hs|].
    destruct Hs as [Hf He]. split; [congruence|].
    eapply evolves_trans; [exact He|].
    apply evolves_alter. intros r. split; reflexivity.
Qed.

Lemma keeps_forward m m' i r :
  manager_keeps m m' -> db m !! i = Some r ->
  exists r', db m' !! i = Some r' /\ keeps r r'.
Proof.
  intros [_ He] Hr. specialize (He i). rewrite Hr in He.
  destruct (db m' !! i) as [r'|]; [eauto | contradiction].
Qed.

Lemma keeps_backward m m' i r' :
  manager_keeps m m' -> db m' !! i = Some r' ->
  exists r, db m !! i = Some r /\ keeps r r'.
Proof.
  intros [_ He] Hr. specialize (He i). rewrite Hr in He.
  destruct (db m !! i) as [r|]; [eauto | contradiction].
Qed.

(** *** Cancellation *)

Lemma stream_signalled now i total chunks : forall downloaded m,
  chunks_signalled total downloaded chunks = true ->
  snd (stream now i total downloaded chunks m) = inl CancelledError.
Proof.
  induction chunks as [|c chunks IH]; intros downloaded m; simpl;
    [discriminate|].
  destruct c as [size flag| |msg]; simpl; try discriminate; auto.
  unfold progress_computed.
  destruct (0 <? total).
  - destruct (progress_of (downloaded + size) total) as [progress|ex message];
      simpl; [|discriminate].
    destruct flag; simpl; auto.
  - destruct flag; simpl; auto.
Qed.

Lemma signalled_raises now download tr m :
  signalled tr = true ->
  snd (try_block now download tr m) = Some CancelledError.
Proof.
  destruct tr as [msg| |status reason total chunks move_error]; simpl;
    try discriminate; auto.
  intros H. apply andb_true_iff in H as [Hs Hc]. rewrite Hs. simpl.
  match goal with
  | |- context [stream ?n ?i ?t ?d ?c ?m0] =>
      pose proof (stream_signalled n i t c d m0 Hc) as E;
      destruct (stream n i t d c m0) as [m1 [e|downloaded]]
  end; simpl in *; congruence.
Qed.

(** C5, as the code has it.  When the run of a download task is ended by
    the shutdown flag or by the task's cancellation, the row of the
    download is marked [cancelled] (if the database accepts the update),
    with its retry counter unchanged; the temporary file is gone (if the
    unlink succeeds) and the task is no longer among the active
    downloads. *)
Theorem shutdown_marks_cancelled (now : Z) (download : DownloadTask)
  (tr : transfer) (unlink_ok : bool) (m : Manager) :
  signalled tr = true ->
  let m' := _download_file now download tr unlink_ok m in
  (db_fault m = None ->
   forall r, db m !! id download = Some r ->
   exists r', db m' !! id download = Some r' /\
              row_status r' = CANCELLED /\
              row_retry_count r' = row_retry_count r) /\
  (unlink_ok = true -> temp_path now download ∉ files m') /\
  id download ∉ active_downloads m'.
Proof.
  intros Hsig. unfold _download_file.
  pose proof (signalled_raises now download tr m Hsig) as He.
  pose proof (try_block_keeps now download tr m) as Hk.
  destruct (try_block now download tr m) as [m1 e]. simpl in He, Hk. subst e.
  cbv zeta. split; [|split].
  - intros Hf r Hr. simpl.
    destruct (keeps_forward _ _ _ _ Hk Hr) as (r1 & Hr1 & [Hc _]).
    unfold _update_download_status.
    destruct Hk as [Hf1 _]. rewrite Hf1, Hf. simpl.
    rewrite lookup_alter_eq, Hr1. simpl.
    eexists. split; [reflexivity|]. split; [reflexivity | exact Hc].
  - intros ->. simpl. intros [_ H]%elem_of_difference.
    apply H, elem_of_singleton. reflexivity.
  - simpl. intros [_ H]%elem_of_difference.
    apply H, elem_of_singleton. reflexivity.
Qed.

Lemma shutdown_marks_cancelled_witness :
  exists r',
    db (_download_file 5000000 timed_out interrupted true one_download) !! 1
      = Some r' /\
    row_status r' = CANCELLED /\ row_retry_count r' = 1.
Proof.
  destruct (shutdown_marks_cancelled 5000000 timed_out interrupted true
              one_download eq_refl) as (H & _ & _).
  exact (H eq_refl timed_out_row eq_refl).
Defined.

(** A download interrupted by the shutdown flag after its first chunk:
    its row ends as [cancelled], not as [pending]. *)
Lemma interrupted_download_not_pending :
  signalled interrupted = true /\
  row_status <$> db (_download_file 5000000 timed_out interrupted true
                       one_download) !! 1 = Some CANCELLED /\
  row_status <$> db (_download_file 5000000 timed_out interrupted true
                       one_download) !! 1 <> Some PENDING.
Proof.
  split; [reflexivity|].
  assert (H : row_status <$> db (_download_file 5000000 timed_out interrupted
                                   true one_download) !! 1 = Some CANCELLED)
    by (vm_compute; reflexivity).
  split; [exact H|]. rewrite H. discriminate.
Qed.

(** *** The retry counter *)

Lemma handlers_inv now download e m0 m :
  db_inv m0 -> coherent download m0 -> manager_keeps m0 m ->
  db_inv (handlers now download e m).
Proof.
  intros Hinv Hcoh Hk.
  destruct e as [[|error_msg]|]; simpl.
  - eapply db_inv_keeps; [|exact Hinv].
    eapply manager_keeps_trans; [exact Hk | apply update_plain_keeps].
  - set (m2 := _record_failure_pattern now (indexer_id download) error_msg m).
    assert (Hk2 : manager_keeps m0 m2) by exact Hk.
    destruct (Z.ltb_spec (retry_count download) (max_retries download)) as [Hlt|Hge].
    + unfold _update_download_status.
      destruct (db_fault m2); [eapply db_inv_keeps; eauto|].
      intros j r' Hr'. simpl in Hr'. rewrite lookup_alter in Hr'.
      case_decide as E.
      * subst j. destruct (db m !! id download) as [r1|] eqn:Hr1; [|discriminate].
        simpl in Hr'. injection Hr' as <-.
        destruct (keeps_backward _ _ _ _ Hk Hr1) as (r & Hr & [Hc Hm]).
        destruct (Hcoh r Hr) as [Hc0 Hm0].
        unfold row_inv. simpl. lia.
      * destruct (keeps_backward _ _ _ _ Hk Hr') as (r & Hr & [Hc Hm]).
        unfold row_inv. rewrite Hc, Hm. exact (Hinv j r Hr).
    + eapply db_inv_keeps; [|exact Hinv].
      eapply manager_keeps_trans; [exact Hk2 | apply update_plain_keeps].
  - eapply db_inv_keeps; eauto.
Qed.

(** The retry counter while the task's copy of the two counters agrees
    with its row.  The plain status update and the progress update keep
    [retry_count <= max_retries], and so does a whole run of the download
    task.  When such a run fails (the database being available), the row
    is marked [failed] and its retry counter goes up by one exactly when
    [retry_count + 1 <= max_retries]; otherwise it is unchanged. *)
Lemma retry_count_bounded (now i progress : Z) (status : QueueStatus)
  (msg : option str) (download : DownloadTask) (tr : transfer)
  (unlink_ok : bool) (m : Manager) :
  db_inv m ->
  db_inv (_update_download_status now i status msg false m) /\
  db_inv (_update_download_progress now i progress m) /\
  (coherent download m ->
   let m' := _download_file now download tr unlink_ok m in
   db_inv m' /\
   forall r error_msg,
     db m !! id download = Some r ->
     db_fault m = None ->
     snd (try_block now download tr m) = Some (Exception error_msg) ->
     exists r',
       db m' !! id download = Some r' /\
       row_status r' = FAILED /\
       row_max_retries r' = row_max_retries r /\
       (row_retry_count r' = row_retry_count r + 1 <->
        row_retry_count r + 1 <= row_max_retries r) /\
       (row_retry_count r' = row_retry_count r \/
        row_retry_count r' = row_retry_count r + 1)).
Proof.
  intros Hinv. split; [|split].
  - eapply db_inv_keeps; [apply update_plain_keeps | exact Hinv].
  - eapply db_inv_keeps; [apply update_progress_keeps | exact Hinv].
  - intros Hcoh. unfold _download_file.
    pose proof (try_block_keeps now download tr m) as Hk.
    destruct (try_block now download tr m) as [m1 e]. simpl in Hk.
    cbv zeta. split.
    + intros j r' Hr'. simpl in Hr'.
      exact (handlers_inv now download e m m1 Hinv Hcoh Hk j r' Hr').
    + intros r error_msg Hr Hf He. simpl in He. subst e. simpl.
      destruct (keeps_forward _ _ _ _ Hk Hr) as (r1 & Hr1 & [Hc Hm]).
      destruct (Hcoh r Hr) as [Hc0 Hm0].
      destruct Hk as [Hf1 _].
      unfold _update_download_status. simpl. rewrite Hf1, Hf.
      destruct (Z.ltb_spec (retry_count download) (max_retries download)) as [Hlt|Hge];
        simpl; rewrite lookup_alter_eq, Hr1; simpl;
        (eexists; split; [reflexivity|]); simpl;
        repeat split; try lia.
Qed.

Lemma retry_count_bounded_witness :
  exists r',
    db (_download_file 5000000 timed_out refused true one_download) !! 1
      = Some r' /\
    row_status r' = FAILED /\ row_retry_count r' = 2.
Proof.
  assert (Hinv : db_inv one_download).
  { intros j r Hr. simpl in Hr.
    apply lookup_singleton_Some in Hr as [_ <-]. vm_compute. discriminate. }
  assert (Hcoh : coherent timed_out one_download).
  { intros r Hr. simpl in Hr.
    apply lookup_singleton_Some in Hr as [_ <-]. split; reflexivity. }
  destruct (retry_count_bounded 5000000 1 0 FAILED None timed_out refused true
              one_download Hinv) as (_ & _ & H).
  destruct (H Hcoh) as (_ & Hfail).
  destruct (Hfail timed_out_row _ eq_refl eq_refl eq_refl)
    as (r' & Hr' & Hs & _ & Hiff & _).
  exists r'. split; [exact Hr'|]. split; [exact Hs|].
  apply (proj2 Hiff). vm_compute. discriminate.
Defined.

(** C8, where the code departs from it.  The failure handler compares the
    counters of the task's copy and increments the counter of the row, and
    the update it calls increments without comparing.  A task read when
    its row had used 1 retry of 3, and failing once the row has used 3 of
    3, leaves the row with 4: the table satisfies
    [retry_count <= max_retries] before the run and not after it, and the
    counter was incremented although [retry_count + 1 <= max_retries] did
    not hold. *)
Theorem retry_count_exceeds_max_retries :
  db_inv stale_copy /\
  db stale_copy !! 1 = Some exhausted_row /\
  row_retry_count exhausted_row + 1 > row_max_retries exhausted_row /\
  snd (try_block 5000000 timed_out refused stale_copy)
    = Some (Exception (lit "HTTP 503: Service Unavailable")) /\
  row_status
    <$> db (_download_file 5000000 timed_out refused true stale_copy) !! 1
    = Some FAILED /\
  row_retry_count
    <$> db (_download_file 5000000 timed_out refused true stale_copy) !! 1
    = Some 4 /\
  row_max_retries
    <$> db (_download_file 5000000 timed_out refused true stale_copy) !! 1
    = Some 3 /\
  row_retry_count
    <$> db (_update_download_status 5000000 1 FAILED None true stale_copy) !! 1
    = Some 4 /\
  ~ db_inv (_download_file 5000000 timed_out refused true stale_copy).
Proof.
  assert (H4 : row_retry_count
                 <$> db (_download_file 5000000 timed_out refused true
                           stale_copy) !! 1 = Some 4)
    by (vm_compute; reflexivity).
  assert (H3 : row_max_retries
                 <$> db (_download_file 5000000 timed_out refused true
                           stale_copy) !! 1 = Some 3)
    by (vm_compute; reflexivity).
  split.
  { intros j r Hr. simpl in Hr.
    apply lookup_singleton_Some in Hr as [_ <-]. vm_compute. discriminate. }
  split; [reflexivity|]. split; [reflexivity|].
  split; [vm_compute; reflexivity|]. split; [vm_compute; reflexivity|].
  split; [exact H4|]. split; [exact H3|]. split; [vm_compute; reflexivity|].
  intros Hinv.
  destruct (db (_download_file 5000000 timed_out refused true stale_copy) !! 1)
    as [r'|] eqn:Hr'; [|discriminate].
  specialize (Hinv 1 r' Hr'). unfold row_inv in Hinv.
  simpl in H4, H3. injection H4 as H4. injection H3 as H3. lia.
Qed.

End AdvancedQueueManagerFacts.

Module DuplicateDetectorFacts.
Import Py PyFacts Regex DuplicateDetector.

(** *** White space after [collapse_ws] and [strip] *)

Lemma single_spaced_collapse s :
  forall b, single_spaced b (collapse_from b s) = true.
Proof.
  induction s as [|c s IH]; intros b; simpl; [reflexivity|].
  destruct (is_space c) eqn:E.
  - destruct b; [apply IH|]. simpl. apply IH.
  - simpl. rewrite E. apply IH.
Qed.

Lemma single_spaced_fixed s :
  forall b, single_spaced b s = true -> collapse_from b s = s.
Proof.
  induction s as [|c s IH]; intros b; simpl; [reflexivity|].
  destruct (is_space c).
  - intros H. apply andb_true_iff in H as [H Hs].
    apply andb_true_iff in H as [Hb Hc].
    apply Ascii.eqb_eq in Hc. subst c.
    destruct b; [discriminate|]. f_equal. now apply IH.
  - intros H. f_equal. now apply IH.
Qed.

Lemma single_spaced_lstrip s :
  forall b, single_spaced b s = true -> single_spaced false (lstrip s) = true.
Proof.
  induction s as [|c s IH]; intros b; simpl; [reflexivity|].
  destruct (is_space c) eqn:E.
  - intros H. apply andb_true_iff in H as [_ Hs]. now apply (IH true).
  - intros H. simpl. now rewrite E.
Qed.

Lemma single_spaced_rstrip s :
  forall b, single_spaced b s = true -> single_spaced b (rstrip s) = true.
Proof.
  induction s as [|c s IH]; intros b H; [reflexivity|].
  rewrite rstrip_cons. simpl in H.
  destruct (rstrip s) as [|x r] eqn:R.
  - destruct (is_space c) eqn:E; [reflexivity|]. simpl. now rewrite E.
  - cbn [single_spaced]. destruct (is_space c).
    + apply andb_true_iff in H as [H Hs]. rewrite H. now apply (IH true).
    + now apply (IH false).
Qed.

(** A collapsed and stripped string is left as it is by both steps. *)
Lemma collapse_strip_fixed u :
  strip (collapse_ws (strip (collapse_ws u))) = strip (collapse_ws u).
Proof.
  assert (H : collapse_ws (strip (collapse_ws u)) = strip (collapse_ws u)).
  { apply single_spaced_fixed. unfold strip.
    apply single_spaced_rstrip, (single_spaced_lstrip _ false).
    apply single_spaced_collapse. }
  rewrite H. apply strip_idem.
Qed.

(** *** Idempotence of the normalisations *)

Lemma remove_chars_twice cls s :
  remove_chars cls (remove_chars cls s) = remove_chars cls s.
Proof. unfold remove_chars. apply filter_fixed, filter_Forall. Qed.

Lemma isbn_separator_upper c :
  isbn_separator (upper_char c) = isbn_separator c.
Proof. by_cases_on c. Qed.

Lemma normalize_isbn_steps isbn :
  _normalize_isbn isbn = upper (remove_chars isbn_separator isbn).
Proof. destruct isbn; reflexivity. Qed.

Lemma normalize_isbn_idem isbn :
  _normalize_isbn (_normalize_isbn isbn) = _normalize_isbn isbn.
Proof.
  rewrite !normalize_isbn_steps. unfold upper, remove_chars at 1.
  rewrite filter_map_swap
    by (intros x; now rewrite isbn_separator_upper).
  fold (remove_chars isbn_separator (remove_chars isbn_separator isbn)).
  rewrite remove_chars_twice. apply map_idem, upper_char_idem.
Qed.

Lemma author_char_no_comma c : author_char c = true -> is_comma c = false.
Proof. by_cases_on c. Qed.

(** What holds of every character of a normalised author name. *)
Lemma author_chars s :
  Forall (fun c => lower_char c = c /\ author_char c = true)
    (strip (collapse_ws
       (remove_chars (fun c => negb (author_char c)) (lower (nfkd s))))).
Proof.
  apply Forall_strip, Forall_collapse; [split; reflexivity|].
  unfold remove_chars, lower, nfkd.
  induction s as [|c s IH]; simpl; [constructor|].
  destruct (author_char (lower_char c)) eqn:E; simpl; [|exact IH].
  constructor; [|exact IH]. split; [apply lower_char_idem | exact E].
Qed.

Lemma normalize_author_steps author :
  _normalize_author author =
  strip (collapse_ws
    (remove_chars (fun c => negb (author_char c)) (lower (nfkd author)))).
Proof.
  destruct author as [|c author]; [reflexivity|].
  unfold _normalize_author. cbn [truthy negb].
  set (n := strip _). 
  assert (H : existsb is_comma n = false).
  { pose proof (author_chars (c :: author)) as Hall. fold n in Hall.
    induction Hall as [|x l [_ Hx] _ IH]; simpl; [reflexivity|].
    now rewrite (author_char_no_comma _ Hx). }
  now rewrite H.
Qed.

Lemma normalize_author_idem author :
  _normalize_author (_normalize_author author) = _normalize_author author.
Proof.
  rewrite !normalize_author_steps.
  set (t := strip (collapse_ws (remove_chars _ (lower (nfkd author))))).
  pose proof (author_chars author) as Hall. fold t in Hall.
  assert (Hl : lower (nfkd t) = t).
  { unfold nfkd, lower. apply map_fixed.
    eapply List.Forall_impl; [|exact Hall]. now intros x [Hx _]. }
  assert (Hr : remove_chars (fun c => negb (author_char c)) t = t).
  { unfold remove_chars. apply filter_fixed.
    eapply List.Forall_impl; [|exact Hall]. intros x [_ Hx]. now rewrite Hx. }
  rewrite Hl, Hr. subst t. apply collapse_strip_fixed.
Qed.

Lemma search_year_fixed s year :
  search_year s = Some year -> search_year year = Some year.
Proof.
  induction s as [|a s IH]; [discriminate|].
  destruct s as [|b [|c [|d rest]]]; try discriminate.
  cbn [search_year].
  destruct (is_digit a && is_digit b && is_digit c && is_digit d)%bool eqn:E.
  - intros [= <-]. cbn [search_year]. now rewrite E.
  - exact IH.
Qed.

Lemma normalize_date_idem date_str :
  _normalize_date (_normalize_date date_str) = _normalize_date date_str.
Proof.
  assert (Hs : forall x, _normalize_date x =
                         match search_year x with Some y => y | None => [] end)
    by (intros [|? ?]; reflexivity).
  rewrite !Hs. destruct (search_year date_str) as [year|] eqn:E; [|reflexivity].
  now rewrite (search_year_fixed _ _ E).
Qed.

(** *** Titles *)

Lemma lstrip_strip u : lstrip (strip u) = strip u.
Proof.
  unfold strip. destruct (lstrip_head u) as [-> | (c & r & -> & Hc)].
  - reflexivity.
  - rewrite rstrip_cons, Hc. destruct (rstrip r); simpl; now rewrite Hc.
Qed.

Lemma Forall_skipn (P : ascii -> Prop) n :
  forall s, Forall P s -> Forall P (skipn n s).
Proof.
  induction n as [|n IH]; intros s H; simpl; [exact H|].
  destruct H; [constructor | now apply IH].
Qed.

Lemma Forall_strip_article (P : ascii -> Prop) arts s :
  Forall P s -> Forall P (strip_article arts s).
Proof.
  intros H. induction arts as [|a arts IH]; simpl; [exact H|].
  destruct (startswith a s); [now apply Forall_skipn | exact IH].
Qed.

Lemma Forall_lower_filter (keep : ascii -> bool) s :
  Forall (fun c => lower_char c = c) s ->
  Forall (fun c => lower_char c = c /\ keep c = true)
    (remove_chars (fun c => negb (keep c)) s).
Proof.
  unfold remove_chars.
  induction 1 as [|c s Hc _ IH]; simpl; [constructor|].
  destruct (keep c) eqn:E; simpl; [|exact IH]. now constructor.
Qed.

Lemma Forall_lower s : Forall (fun c => lower_char c = c) (lower s).
Proof.
  induction s as [|c s IH]; simpl; constructor; [apply lower_char_idem | exact IH].
Qed.

(** The title before the edition markers are looked for. *)
Lemma tidy_before_editions title :
  tidy (strip (collapse_ws
          (remove_chars (fun c => negb (title_char c))
             (strip_article articles (lower (nfkd title)))))).
Proof.
  split.
  - apply Forall_strip, Forall_collapse; [split; reflexivity|].
    apply Forall_lower_filter, Forall_strip_article, Forall_lower.
  - unfold strip.
    apply single_spaced_rstrip, (single_spaced_lstrip _ false).
    apply single_spaced_collapse.
  - apply lstrip_strip.
  - unfold strip. apply rstrip_idem.
Qed.

Lemma single_spaced_sub_at_end r s :
  forall b, single_spaced b s = true -> single_spaced b (sub_at_end r s) = true.
Proof.
  induction s as [|c s IH]; intros b H.
  - simpl. destruct (nullable r); reflexivity.
  - change (sub_at_end r (c :: s))
      with (if fullmatch r (c :: s) then [] else c :: sub_at_end r s).
    destruct (fullmatch r (c :: s)); [reflexivity|].
    simpl in H |- *. destruct (is_space c).
    + apply andb_true_iff in H as [H Hs]. rewrite H. now apply IH.
    + now apply IH.
Qed.

Lemma tidy_sub_at_end r x :
  tidy x -> tidy (sub_at_end (Seq (Star ws) r) x).
Proof.
  intros [Hc Hs Hl Hr]. split.
  - now apply RegexFacts.sub_at_end_Forall.
  - now apply single_spaced_sub_at_end.
  - now apply RegexFacts.sub_at_end_lstrip.
  - now apply RegexFacts.sub_at_end_rstrip.
Qed.

Lemma tidy_normalize_title_steps title : tidy (normalize_title_steps title).
Proof.
  unfold normalize_title_steps, strip_editions, edition_patterns.
  cbn [fold_left]. repeat apply tidy_sub_at_end. apply tidy_before_editions.
Qed.

Lemma strip_article_none arts t :
  existsb (fun article => startswith article t) arts = false ->
  strip_article arts t = t.
Proof.
  induction arts as [|a arts IH]; simpl; [reflexivity|].
  intros H. apply orb_false_iff in H as [-> H]. now apply IH.
Qed.

Lemma strip_editions_none ps t :
  existsb (fun pattern => search_at_end pattern t) ps = false ->
  fold_left (fun n pattern => sub_at_end pattern n) ps t = t.
Proof.
  induction ps as [|p ps IH]; simpl; [reflexivity|].
  intros H. apply orb_false_iff in H as [Hp H].
  rewrite (RegexFacts.sub_at_end_no_match _ _ Hp). now apply IH.
Qed.

(** A tidy title without leading article and without edition marker is
    its own normal form. *)
Lemma normalize_title_steps_fixed t :
  tidy t -> starts_with_article t = false -> has_edition_marker t = false ->
  normalize_title_steps t = t.
Proof.
  intros [Hc Hs Hl Hr] Ha He. unfold normalize_title_steps, nfkd.
  assert (H1 : lower t = t).
  { apply map_fixed. eapply List.Forall_impl; [|exact Hc]. now intros x [Hx _]. }
  rewrite H1, (strip_article_none _ _ Ha).
  assert (H2 : remove_chars (fun c => negb (title_char c)) t = t).
  { unfold remove_chars. apply filter_fixed.
    eapply List.Forall_impl; [|exact Hc]. intros x [_ Hx]. now rewrite Hx. }
  rewrite H2.
  assert (H3 : strip (collapse_ws t) = t).
  { unfold collapse_ws. rewrite (single_spaced_fixed _ _ Hs).
    unfold strip. now rewrite Hl, Hr. }
  rewrite H3. now apply strip_editions_none.
Qed.

Lemma normalize_title_cached n title cache :
  title_cache_coherent cache ->
  fst (_normalize_title n title cache) = normalize_title_steps title /\
  title_cache_coherent (snd (_normalize_title n title cache)).
Proof.
  intros Hcoh. unfold _normalize_title.
  destruct title as [|c title]; [split; [reflexivity | exact Hcoh]|].
  cbn [truthy negb].
  match goal with
  | |- context [match ?x with Some _ => _ | None => _ end] =>
      destruct x as [cached|] eqn:E
  end; cbn [fst snd].
  - split; [now apply Hcoh | exact Hcoh].
  - split; [reflexivity|].
    destruct (size cache <? n)%nat; [|exact Hcoh].
    intros k v Hk. rewrite lookup_insert in Hk. case_decide as D.
    + subst k. now injection Hk as <-.
    + now apply Hcoh.
Qed.

(** C4, as the code has it.  The normalisations of ISBNs, author names
    and dates are idempotent.  Normalising a normalised title gives the
    same title again whenever the normalised title neither begins with one
    of the articles nor ends in an edition marker: each call removes at
    most one leading article, and the edition markers one pattern after
    the other. *)
Theorem normalization_idempotent (s : str) (similarity_cache_size : nat)
  (cache : gmap str str) :
  _normalize_isbn (_normalize_isbn s) = _normalize_isbn s /\
  _normalize_author (_normalize_author s) = _normalize_author s /\
  _normalize_date (_normalize_date s) = _normalize_date s /\
  (title_cache_coherent cache ->
   let first := _normalize_title similarity_cache_size s cache in
   let second :=
     _normalize_title similarity_cache_size (fst first) (snd first) in
   starts_with_article (fst first) = false ->
   has_edition_marker (fst first) = false ->
   fst second = fst first).
Proof.
  split; [apply normalize_isbn_idem|].
  split; [apply normalize_author_idem|].
  split; [apply normalize_date_idem|].
  intros Hcoh first second Ha He. subst second.
  destruct (normalize_title_cached similarity_cache_size s cache Hcoh)
    as [H1 Hcoh1].
  fold first in H1, Hcoh1.
  destruct (normalize_title_cached similarity_cache_size (fst first)
              (snd first) Hcoh1) as [H2 _].
  rewrite H2. apply normalize_title_steps_fixed; [|exact Ha | exact He].
  rewrite H1. apply tidy_normalize_title_steps.
Qed.

Lemma normalization_idempotent_witness :
  let first := _normalize_title 100 (lit "The Great Gatsby: 2nd Edition") ∅ in
  fst first = lit "great gatsby" /\
  fst (_normalize_title 100 (fst first) (snd first)) = fst first.
Proof.
  intros first. split; [vm_compute; reflexivity|].
  destruct (normalization_idempotent (lit "The Great Gatsby: 2nd Edition") 100 ∅)
    as (_ & _ & _ & H).
  apply H.
  - intros k v Hk. rewrite lookup_empty in Hk. discriminate.
  - vm_compute. reflexivity.
  - vm_compute. reflexivity.
Defined.

(** The title [the the book] normalises to [the book], which normalises to
    [book]: one leading article is removed by each call. *)
Lemma normalize_title_not_idempotent :
  let first := _normalize_title 100 (lit "the the book") ∅ in
  let second := _normalize_title 100 (fst first) (snd first) in
  fst first = lit "the book" /\
  fst second = lit "book" /\
  fst second <> fst first.
Proof.
  assert (H1 : fst (_normalize_title 100 (lit "the the book") ∅) = lit "the book")
    by (vm_compute; reflexivity).
  assert (H2 : fst (_normalize_title 100
                      (fst (_normalize_title 100 (lit "the the book") ∅))
                      (snd (_normalize_title 100 (lit "the the book") ∅)))
               = lit "book")
    by (vm_compute; reflexivity).
  cbv zeta. rewrite H2, H1. repeat split. discriminate.
Qed.

(** *** String similarity *)

(** C2, as the code has it.  A non-empty string is at similarity 1 with
    itself; as soon as one of the two strings is empty the similarity is
    0, the two strings being empty included.  None of these calls touches
    the cache. *)
Theorem string_similarity_edges (seq_ratio : str -> str -> Q)
  (similarity_cache_size : nat) (cache : gmap str Q) (s : str) :
  (s <> [] ->
   _calculate_string_similarity seq_ratio similarity_cache_size s s cache
     = (1%Q, cache)) /\
  _calculate_string_similarity seq_ratio similarity_cache_size [] s cache
    = (0%Q, cache) /\
  _calculate_string_similarity seq_ratio similarity_cache_size s [] cache
    = (0%Q, cache).
Proof.
  unfold _calculate_string_similarity. split; [|split].
  - intros Hs. destruct s as [|c s]; [congruence|]. simpl.
    unfold str_eqb. now rewrite bool_decide_eq_true_2.
  - reflexivity.
  - destruct s; reflexivity.
Qed.

Lemma string_similarity_edges_witness :
  _calculate_string_similarity (fun _ _ => 0%Q) 100 (lit "dune") (lit "dune") ∅
    = (1%Q, ∅).
Proof.
  apply (proj1 (string_similarity_edges (fun _ _ => 0%Q) 100 ∅ (lit "dune"))).
  discriminate.
Defined.

(** Two empty strings are at similarity 0, not 1. *)
Lemma empty_strings_not_similar :
  fst (_calculate_string_similarity (fun _ _ => 0%Q) 100 [] [] ∅) = 0%Q /\
  ~ (fst (_calculate_string_similarity (fun _ _ => 0%Q) 100 [] [] ∅) == 1)%Q.
Proof. split; [reflexivity|]. simpl. discriminate. Qed.

(** *** Uniqueness of the reported pairs *)

Lemma dedup_loop_fresh matches : forall seen p,
  In p (map canonical_pair (dedup_loop matches seen)) -> p ∉ seen.
Proof.
  induction matches as [|m rest IH]; intros seen p; simpl; [tauto|].
  destruct (decide (canonical_pair m ∈ seen)) as [Hin|Hnin]; simpl.
  - apply IH.
  - intros [<- | H]; [exact Hnin|].
    apply IH in H. set_solver.
Qed.

Lemma dedup_loop_NoDup matches : forall seen,
  List.NoDup (map canonical_pair (dedup_loop matches seen)).
Proof.
  induction matches as [|m rest IH]; intros seen; simpl; [constructor|].
  destruct (decide (canonical_pair m ∈ seen)); simpl; [apply IH|].
  constructor; [|apply IH].
  intros H. apply dedup_loop_fresh in H. set_solver.
Qed.

Lemma insert_desc_perm x l : Permutation (insert_desc x l) (x :: l).
Proof.
  induction l as [|y l IH]; simpl; [reflexivity|].
  destruct (key_lt (sort_key x) (sort_key y)); [|reflexivity].
  rewrite IH. apply perm_swap.
Qed.

Lemma sort_desc_perm l : Permutation (sort_desc l) l.
Proof.
  induction l as [|x l IH]; simpl; [reflexivity|].
  rewrite insert_desc_perm. now constructor.
Qed.

(** C9. In the list returned by one run of [detect_duplicates], whatever
    the matching strategies produce, no canonical pair
    [(min(id), max(id))] occurs twice. *)
Theorem detect_duplicates_pairs_unique
  (find_isbn find_asin : BookRecord -> list BookRecord -> list DuplicateMatch)
  (find_fuzzy find_content :
     BookRecord -> list BookRecord -> nat -> list DuplicateMatch)
  (enable_isbn_matching enable_content_hash_matching : bool)
  (books : list BookRecord) :
  List.NoDup
    (map canonical_pair
       (detect_duplicates find_isbn find_asin find_fuzzy find_content
          enable_isbn_matching enable_content_hash_matching books)).
Proof.
  unfold detect_duplicates, _deduplicate_matches.
  eapply Permutation_NoDup.
  - apply Permutation_map. symmetry. apply sort_desc_perm.
  - apply dedup_loop_NoDup.
Qed.

End DuplicateDetectorFacts.

Module DatabaseOptimizerFacts.
Import Py DatabaseOptimizer.

Lemma integrity_status (a : pragma_answers) :
  status (perform_integrity_check a) =
  match a with
  | Raises _ => FAILED
  | Answers qc fk =>
      if (quick_check_ok qc && (fk =? 0)%nat)%bool then SUCCESS else PARTIAL
  end.
Proof. destruct a; reflexivity. Qed.

(** C1, as the code has it.  Any violation found by the integrity check
    (a quick check that is not the single row [ok], or a foreign-key
    violation) marks the integrity task [partial].  The follow-on tasks are
    withheld only when the integrity task is [failed], that is when the
    check itself raised; after a [partial] (or successful) integrity task
    the run goes on with cleanup and analyze, reindex and vacuum when
    their thresholds are exceeded, and backup. *)
Theorem integrity_gate (auto_vacuum_threshold fragmentation_threshold : Q)
  (outcome : MaintenanceType -> OptimizationStatus * option str)
  (initial_stats : DatabaseStats) (a : pragma_answers) :
  let integrity_task := perform_integrity_check a in
  let tasks :=
    run_comprehensive_optimization auto_vacuum_threshold
      fragmentation_threshold outcome initial_stats a in
  let fragmented :=
    gt (fragmentation_percent initial_stats) fragmentation_threshold in
  let large :=
    gt (inject_Z (database_size_bytes initial_stats) / 1024 / 1024)%Q
       auto_vacuum_threshold in
  (forall qc fk, a = Answers qc fk ->
     quick_check_ok qc = false \/ fk <> 0%nat ->
     status integrity_task = PARTIAL) /\
  (status integrity_task = FAILED -> tasks = [integrity_task]) /\
  (status integrity_task <> FAILED ->
     tasks = [integrity_task; perform outcome CLEANUP; perform outcome ANALYZE]
             ++ (if fragmented then [perform outcome REINDEX] else [])
             ++ (if (large || fragmented)%bool then [perform outcome VACUUM] else [])
             ++ [perform outcome BACKUP]).
Proof.
  intros integrity_task tasks fragmented large. split; [|split].
  - intros qc fk -> H. subst integrity_task. simpl.
    destruct H as [-> | Hfk]; [reflexivity|].
    destruct fk; [congruence|]. now rewrite andb_false_r.
  - intros H. subst tasks. unfold run_comprehensive_optimization.
    fold integrity_task. now rewrite H.
  - intros H. subst tasks. unfold run_comprehensive_optimization.
    fold integrity_task. fold fragmented. fold large.
    destruct (status integrity_task); try congruence; simpl;
      destruct fragmented, large; reflexivity.
Qed.

Lemma integrity_gate_witness :
  status (perform_integrity_check one_fk_violation) = PARTIAL /\
  run_comprehensive_optimization 100 25 all_succeed small_database
    one_fk_violation
  = [perform_integrity_check one_fk_violation;
     perform all_succeed CLEANUP; perform all_succeed ANALYZE;
     perform all_succeed BACKUP].
Proof.
  destruct (integrity_gate 100 25 all_succeed small_database one_fk_violation)
    as (Hp & _ & Hrun).
  split.
  - apply (Hp [lit "ok"] 1%nat eq_refl). right. discriminate.
  - apply Hrun. discriminate.
Defined.

(** One foreign-key violation: the integrity task is [partial], and
    cleanup, analyze and backup are performed all the same. *)
Lemma partial_integrity_does_not_stop_the_run :
  let tasks :=
    run_comprehensive_optimization 100 25 all_succeed small_database
      one_fk_violation in
  status (perform_integrity_check one_fk_violation) = PARTIAL /\
  performed CLEANUP tasks = true /\
  performed ANALYZE tasks = true /\
  performed BACKUP tasks = true.
Proof. repeat split. Qed.

End DatabaseOptimizerFacts.

Module QueueRunsFacts.
Import Py PyFacts Float FloatFacts AdvancedQueueManager AdvancedQueueManagerFacts
  QueueRuns.

(** *** What a run leaves of the files *)

Lemma removed_gone `{Countable A} (x : A) (S : gset A) : x ∉ S ∖ {[x]}.
Proof. intros [_ Hx]%elem_of_difference. apply Hx, elem_of_singleton. reflexivity. Qed.

Lemma removed_stays_gone `{Countable A} (x : A) (S T : gset A) :
  x ∉ S -> x ∉ S ∖ T.
Proof. intros Hx [Hin _]%elem_of_difference. exact (Hx Hin). Qed.

(** A file moved under a new name is in the directory under that name, and
    under the old one only if the two are the same. *)
Lemma moved_in `{Countable A} (t f : A) (S : gset A) : f ∈ {[f]} ∪ (S ∖ {[t]}).
Proof. apply elem_of_union_l, elem_of_singleton. reflexivity. Qed.

Lemma moved_out `{Countable A} (t f : A) (S : gset A) :
  t <> f -> t ∉ {[f]} ∪ (S ∖ {[t]}).
Proof.
  intros Hne [Hin | Hin]%elem_of_union.
  - apply elem_of_singleton in Hin. contradiction.
  - exact (removed_gone _ _ Hin).
Qed.

(** X1. On every way out of [_download_file] (completion, error,
    cancellation, shutdown), once the unlink succeeds the temporary file
    of the run is no longer in the download directory, and in every case
    the task is no longer among the active downloads. *)
Theorem temp_file_never_left_behind (now : Z) (download : DownloadTask)
  (tr : transfer) (m : Manager) :
  (temp_path now download
     ∉ files (_download_file now download tr true m)) /\
  forall unlink_ok,
    id download ∉ active_downloads (_download_file now download tr unlink_ok m).
Proof.
  unfold _download_file.
  destruct (try_block now download tr m) as [m1 e]. split.
  - simpl. apply removed_gone.
  - intros unlink_ok. simpl. apply removed_gone.
Qed.

Lemma progress_frame now i progress m :
  same_outside_db m (_update_download_progress now i progress m).
Proof.
  unfold _update_download_progress.
  destruct (db_fault m) eqn:F; [repeat split|].
  destruct (negb (sqlite_integer progress)); repeat split; simpl; auto.
Qed.

Lemma same_outside_db_trans m1 m2 m3 :
  same_outside_db m1 m2 -> same_outside_db m2 m3 -> same_outside_db m1 m3.
Proof.
  intros (A1 & A2 & A3 & A5 & A6) (B1 & B2 & B3 & B5 & B6).
  repeat split; congruence.
Qed.

Lemma same_outside_db_refl m : same_outside_db m m.
Proof. repeat split. Qed.

Lemma stream_frame now i total chunks : forall downloaded m,
  same_outside_db m (fst (stream now i total downloaded chunks m)).
Proof.
  induction chunks as [|c chunks IH]; intros downloaded m; simpl.
  - apply same_outside_db_refl.
  - destruct c as [size flag| |msg]; simpl; try apply same_outside_db_refl.
    destruct (0 <? total).
    + destruct (progress_of (downloaded + size) total) as [progress|ex message];
        simpl; [|apply same_outside_db_refl].
      destruct flag; simpl; [apply progress_frame|].
      eapply same_outside_db_trans; [apply progress_frame | apply IH].
    + destruct flag; simpl; [apply same_outside_db_refl | apply IH].
Qed.

(** The percentage of a part of the announced length is computed, and is
    a percentage. *)
Lemma progress_of_part downloaded total_size :
  0 <= downloaded <= total_size -> 0 < total_size ->
  exists progress,
    progress_of downloaded total_size = Returns progress /\
    0 <= progress <= 100.
Proof.
  intros [Hd0 Hd1] Ht. unfold progress_of, true_divide.
  destruct (Z.eqb_spec total_size 0) as [|_]; [lia|].
  assert (Htq : (0 < inject_Z total_size)%Q)
    by (change 0%Q with (inject_Z 0); now rewrite <- Zlt_Qlt).
  destruct (rounded_finite (inject_Z downloaded / inject_Z total_size) 1)
    as (Eq & Hq0 & Hq1).
  - apply Qle_shift_div_l; [exact Htq|]. rewrite Qmult_0_l.
    change 0%Q with (inject_Z 0). now rewrite <- Zle_Qle.
  - apply Qle_shift_div_r; [exact Htq|]. rewrite Qmult_1_l.
    now rewrite <- Zle_Qle.
  - qcompute.
  - rewrite Eq. unfold bind.
    assert (E100 : of_int 100 = Returns (Finite 100)) by (vm_compute; reflexivity).
    rewrite E100. cbn [mul].
    change (fl 1) with 1%Q in Hq1.
    set (q := fl (inject_Z downloaded / inject_Z total_size)) in *.
    destruct (rounded_finite (q * 100) 100) as (Ep & Hp0 & Hp1).
    + apply Qmult_le_0_compat; [exact Hq0 | discriminate].
    + apply Qle_trans with (1 * 100)%Q; [|discriminate].
      apply Qmult_le_compat_r; [exact Hq1 | discriminate].
    + qcompute.
    + rewrite Ep. cbn [int_of]. eexists. split; [reflexivity|].
      rewrite (int_of_float_floor _ Hp0).
      change (fl 100) with 100%Q in Hp1.
      split.
      * change 0 with (Qfloor 0). now apply Qfloor_resp_le.
      * change 100 with (Qfloor 100). now apply Qfloor_resp_le.
Qed.

(** The quotient and the product are rounded: 29 bytes of 100 are shown
    as 28 percent. *)
Lemma progress_is_rounded_twice : progress_of 29 100 = Returns 28.
Proof. vm_compute. reflexivity. Qed.

Lemma total_bytes_delivered chunks :
  all_delivered chunks = true -> 0 <= total_bytes chunks.
Proof.
  induction chunks as [|c chunks IH]; simpl; [lia|].
  destruct c as [size flag| |msg]; try discriminate.
  destruct flag; try discriminate.
  intros H. apply andb_true_iff in H as [Hs H]. apply Z.leb_le in Hs.
  specialize (IH H). lia.
Qed.

Lemma stream_delivered now i total chunks :
  all_delivered chunks = true ->
  forall downloaded m,
    0 <= downloaded ->
    total <= 0 \/ downloaded + total_bytes chunks <= total ->
    snd (stream now i total downloaded chunks m)
    = inr (downloaded + total_bytes chunks).
Proof.
  induction chunks as [|c chunks IH]; simpl; intros H downloaded m Hd Hlen.
  - f_equal. lia.
  - destruct c as [size flag| |msg]; try discriminate.
    destruct flag; try discriminate.
    apply andb_true_iff in H as [Hs H]. apply Z.leb_le in Hs.
    pose proof (total_bytes_delivered chunks H) as Hrest.
    assert (Hnext : snd (stream now i total (downloaded + size) chunks m)
                    = inr (downloaded + (size + total_bytes chunks)) /\
                    forall m1, snd (stream now i total (downloaded + size) chunks m1)
                    = inr (downloaded + (size + total_bytes chunks))).
    { split; [|intros m1]; rewrite (IH H) by lia; f_equal; lia. }
    destruct Hnext as [_ Hnext].
    destruct (Z.ltb_spec 0 total) as [Hpos | Hnone].
    + destruct (progress_of_part (downloaded + size) total) as (progress & Ep & _);
        [lia | lia |].
      rewrite Ep. cbv iota beta. apply Hnext.
    + cbv iota beta. apply Hnext.
Qed.

(** X2. A response 200 whose chunks all arrive, with as many bytes as
    [content-length] announces (or no announced length) and fewer than
    [2^63] of them, on a database that accepts statements: the row ends
    [completed] at 100 percent with the final path and the completion time
    and with its retry counter untouched, the history gets one row with
    the byte count, and nothing is recorded as a failure.  When the name of
    the final file differs from the name of the temporary file, the final
    file is in the directory and the temporary file is not; when the two
    names are the same, the [finally] clause unlinks the downloaded file,
    which is left in the directory only if the unlink fails. *)
Theorem download_completes (now : Z) (download : DownloadTask) (reason : str)
  (content_length : Z) (chunks : list chunk) (unlink_ok : bool) (m : Manager)
  (r : Row) :
  all_delivered chunks = true ->
  content_length <= 0 \/ total_bytes chunks = content_length ->
  total_bytes chunks < 2 ^ 63 ->
  db_fault m = None ->
  db m !! id download = Some r ->
  let m' := _download_file now download
              (Response 200 reason content_length chunks None) unlink_ok m in
  (exists r',
     db m' !! id download = Some r' /\
     row_status r' = COMPLETED /\
     row_progress_percentage r' = 100 /\
     row_download_path r' = Some (final_path download) /\
     row_completed_at r' = Some now /\
     row_retry_count r' = row_retry_count r) /\
  history m' = history m ++ [(id download, total_bytes chunks)] /\
  failure_patterns m' = failure_patterns m /\
  (temp_path now download <> final_path download ->
   final_path download ∈ files m' /\ temp_path now download ∉ files m') /\
  (temp_path now download = final_path download ->
   (final_path download ∈ files m' <-> unlink_ok = false)).
Proof.
  intros Hall Hlen H63 Hf Hr. unfold _download_file, try_block.
  change (negb (200 =? 200)) with false. cbv iota.
  pose proof (total_bytes_delivered chunks Hall) as Hbytes.
  match goal with
  | |- context [stream ?n ?i ?t ?d ?c ?m0] =>
      pose proof (stream_delivered n i t c Hall d m0 ltac:(lia) ltac:(lia)) as Hs;
      pose proof (stream_frame n i t c d m0) as Hfr;
      pose proof (stream_keeps n i t c d m0) as Hk;
      destruct (stream n i t d c m0) as [m1 res]
  end.
  simpl in Hs, Hfr, Hk. subst res.
  destruct Hfr as (F1 & F2 & F3 & F5 & F6). simpl in F1, F2, F3, F5, F6.
  assert (Hsize : ((0 <? content_length)
                   && negb (0 + total_bytes chunks =? content_length))%bool = false).
  { destruct Hlen as [Hle | Heq].
    - destruct (Z.ltb_spec 0 content_length); [lia | reflexivity].
    - rewrite Z.add_0_l, Heq, Z.eqb_refl. apply andb_false_r. }
  assert (Hfits : negb (sqlite_integer (0 + total_bytes chunks)) = false).
  { unfold sqlite_integer. apply negb_false_iff, andb_true_iff.
    split; [apply Z.leb_le | apply Z.ltb_lt]; lia. }
  rewrite Hsize. cbn [db_fault]. rewrite F1, Hf, Hfits.
  destruct Hk as [_ Hev]. simpl in Hev. specialize (Hev (id download)).
  rewrite Hr in Hev.
  destruct (db m1 !! id download) as [r1|] eqn:Hr1; [|contradiction].
  destruct Hev as [Hc _].
  cbv zeta. simpl. rewrite lookup_alter_eq, Hr1. simpl.
  split; [eexists; repeat split; exact Hc|].
  split; [now rewrite F2|].
  split; [exact F6|].
  rewrite F3. split.
  - intros Hne. split.
    + destruct unlink_ok; [|apply moved_in].
      apply elem_of_difference. split; [apply moved_in|].
      rewrite elem_of_singleton. congruence.
    + destruct unlink_ok; [apply removed_gone | now apply moved_out].
  - intros Heq. rewrite <- Heq. destruct unlink_ok; split; intros H.
    + exfalso. exact (removed_gone _ _ H).
    + discriminate.
    + reflexivity.
    + apply moved_in.
Qed.

Lemma download_completes_witness :
  exists r',
    db (_download_file 5000000 timed_out
          (Response 200 (lit "OK") 16384 [Chunk 8192 false; Chunk 8192 false] None)
          true one_download) !! 1 = Some r' /\
    row_status r' = COMPLETED /\ row_progress_percentage r' = 100.
Proof.
  destruct (download_completes 5000000 timed_out (lit "OK") 16384
              [Chunk 8192 false; Chunk 8192 false] true one_download
              timed_out_row eq_refl (or_intror eq_refl) eq_refl eq_refl eq_refl)
    as ((r' & H1 & H2 & H3 & _) & _).
  exists r'. auto.
Defined.

(** A task whose title is the stem of its own temporary file: the download
    completes, the row records the final path, and the file is gone. *)
Lemma completed_download_unlinked :
  temp_path 5000000 self_named = final_path self_named /\
  row_status <$> db (_download_file 5000000 self_named
                       (Response 200 (lit "OK") 16384
                          [Chunk 8192 false; Chunk 8192 false] None)
                       true one_download) !! 1 = Some COMPLETED /\
  files (_download_file 5000000 self_named
           (Response 200 (lit "OK") 16384
              [Chunk 8192 false; Chunk 8192 false] None)
           true one_download) = ∅.
Proof.
  split; [reflexivity|]. split; vm_compute; reflexivity.
Qed.

(** *** The failure log *)

(** X3. [_record_failure_pattern] appends the failure to the list of its
    indexer after dropping the entries that are 24 hours old or older: the
    new entry is always kept and comes last, every entry of the list is
    younger than 24 hours, and neither the lists of the other indexers nor
    the queue table change. *)
Theorem record_failure_pattern_window (now indexer : Z) (msg : str)
  (m : Manager) :
  let old := default [] (failure_patterns m !! indexer) in
  let m' := _record_failure_pattern now indexer msg m in
  failure_patterns m' !! indexer
    = Some (List.filter (fun f => now - 24 * HOUR <? timestamp f) old
            ++ [entry msg now]) /\
  (forall fs f, failure_patterns m' !! indexer = Some fs -> In f fs ->
                now - 24 * HOUR < timestamp f) /\
  (forall j, j <> indexer ->
             failure_patterns m' !! j = failure_patterns m !! j) /\
  db m' = db m.
Proof.
  intros old m'.
  assert (Hnew : (now - 24 * HOUR <? now) = true)
    by (apply Z.ltb_lt; unfold HOUR; lia).
  assert (Hl : failure_patterns m' !! indexer
               = Some (List.filter (fun f => now - 24 * HOUR <? timestamp f) old
                       ++ [entry msg now])).
  { subst m'. unfold _record_failure_pattern. simpl.
    rewrite lookup_insert_eq, List.filter_app. simpl. now rewrite Hnew. }
  split; [exact Hl|]. split; [|split].
  - intros fs f Hfs Hin. rewrite Hl in Hfs. injection Hfs as <-.
    apply in_app_iff in Hin as [Hin | [<- | []]].
    + apply filter_In in Hin as [_ Hin]. now apply Z.ltb_lt.
    + simpl. unfold HOUR. lia.
  - intros j Hj. subst m'. unfold _record_failure_pattern. simpl.
    now rewrite lookup_insert_ne.
  - reflexivity.
Qed.

Lemma record_failures_snoc times t indexer msg m :
  record_failures (times ++ [t]) indexer msg m
  = _record_failure_pattern t indexer msg (record_failures times indexer msg m).
Proof. unfold record_failures. now rewrite fold_left_app. Qed.

Lemma filter_keeps_entries (q : FailureEntry -> bool) msg (P : Z -> Prop) times :
  (forall t, P t -> q (entry msg t) = true) ->
  Forall P times ->
  List.filter q (map (entry msg) times) = map (entry msg) times.
Proof.
  intros Hq. induction 1 as [|t times Ht _ IH]; simpl; [reflexivity|].
  now rewrite (Hq t Ht), IH.
Qed.

(** Failures recorded within one hour are all still in the list. *)
Lemma recorded_within_the_hour now indexer msg m times :
  Forall (fun t => now - HOUR < t /\ t <= now) times ->
  exists older,
    default [] (failure_patterns (record_failures times indexer msg m) !! indexer)
    = older ++ map (entry msg) times.
Proof.
  induction times as [|t times IH] using rev_ind; intros Hw.
  - exists (default [] (failure_patterns m !! indexer)). simpl.
    now rewrite app_nil_r.
  - apply Forall_app in Hw as [Hw Ht]. inversion Ht as [|? ? [Hlo Hhi] _]; subst.
    destruct (IH Hw) as [older Hold].
    rewrite record_failures_snoc.
    destruct (record_failure_pattern_window t indexer msg
                (record_failures times indexer msg m)) as (Hl & _).
    cbv zeta in Hl. rewrite Hl, Hold. simpl.
    rewrite List.filter_app.
    rewrite (filter_keeps_entries _ msg (fun t0 => now - HOUR < t0 /\ t0 <= now)).
    + exists (List.filter (fun f => t - 24 * HOUR <? timestamp f) older).
      rewrite map_app. simpl. now rewrite app_assoc.
    + intros t0 [Hlo0 Hhi0]. simpl. apply Z.ltb_lt. unfold HOUR in *. lia.
    + exact Hw.
Qed.

(** X4. Once more than 5 failures of an indexer have been recorded within
    the hour before [now], the smart-retry filter lets none of the
    downloads of that indexer through at [now], whatever their error
    message. *)
Theorem repeated_failures_stop_retries (now indexer : Z) (msg : str)
  (times : list Z) (m : Manager) (downloads : list DownloadTask)
  (d : DownloadTask) :
  Forall (fun t => now - HOUR < t /\ t <= now) times ->
  (5 < length times)%nat ->
  indexer_id d = indexer ->
  ~ In d (_filter_smart_retry now
            (failure_patterns (record_failures times indexer msg m)) downloads).
Proof.
  intros Hw Hlen Hd Hin.
  rewrite filter_loop_is_filter in Hin. apply filter_In in Hin as [_ Hpass].
  apply negb_true_iff, orb_false_iff in Hpass as [Hfail _].
  destruct (recorded_within_the_hour now indexer msg m times Hw) as [older Hold].
  unfold indexer_failing in Hfail. rewrite Hd in Hfail.
  destruct (failure_patterns (record_failures times indexer msg m) !! indexer)
    as [fs|]; simpl in Hold.
  - subst fs. unfold recent_failures in Hfail. rewrite List.filter_app in Hfail.
    rewrite (filter_keeps_entries _ msg (fun t0 => now - HOUR < t0 /\ t0 <= now))
      in Hfail; [|intros t0 [Hlo _]; simpl; now apply Z.ltb_lt | exact Hw].
    rewrite length_app, length_map in Hfail.
    apply Z.ltb_ge in Hfail. lia.
  - symmetry in Hold. apply app_eq_nil in Hold as [_ Hnil].
    apply map_eq_nil in Hnil. subst times. simpl in Hlen. lia.
Qed.

Lemma repeated_failures_stop_retries_witness :
  ~ In timed_out
      (_filter_smart_retry 60
         (failure_patterns
            (record_failures [10; 20; 30; 40; 50; 60] 3 (lit "timeout")
               one_download))
         [timed_out]).
Proof.
  apply repeated_failures_stop_retries.
  - repeat constructor; vm_compute; congruence.
  - simpl. lia.
  - reflexivity.
Defined.

(** *** Cancelled and refused runs *)

Lemma try_block_log now download tr m :
  failure_patterns (fst (try_block now download tr m)) = failure_patterns m /\
  (snd (try_block now download tr m) <> None ->
   history (fst (try_block now download tr m)) = history m).
Proof.
  destruct tr as [msg| |status reason total chunks move_error];
    try (split; [reflexivity | intros _; reflexivity]).
  unfold try_block.
  destruct (negb (status =? 200)); [split; [reflexivity | intros _; reflexivity]|].
  cbv zeta.
  match goal with
  | |- context [stream ?n ?i ?t ?d ?c ?m0] =>
      pose proof (stream_frame n i t c d m0) as Hfr;
      destruct (stream n i t d c m0) as [m1 [e|downloaded]]
  end; destruct Hfr as (F1 & F2 & _ & _ & F6);
    cbn [fst snd db_fault history failure_patterns] in F1, F2, F6.
  - split; [exact F6 | intros _; exact F2].
  - destruct ((0 <? total) && negb (downloaded =? total))%bool;
      [split; [exact F6 | intros _; exact F2]|].
    destruct move_error; [split; [exact F6 | intros _; exact F2]|].
    cbn [db_fault]. destruct (db_fault m1);
      cbn [fst snd history failure_patterns commit_completed];
      [split; [exact F6 | intros _; exact F2]|].
    destruct (negb (sqlite_integer downloaded));
      cbn [fst snd history failure_patterns commit_completed].
    + split; [exact F6 | intros _; exact F2].
    + split; [exact F6 | intros H; now elim H].
Qed.

(** X6. A run ended by cancellation or shutdown is not counted as a
    failure: it adds nothing to the failure log of any indexer and nothing
    to the download history. *)
Theorem cancelled_run_is_no_failure (now : Z) (download : DownloadTask)
  (tr : transfer) (unlink_ok : bool) (m : Manager) :
  signalled tr = true ->
  failure_patterns (_download_file now download tr unlink_ok m)
    = failure_patterns m /\
  history (_download_file now download tr unlink_ok m) = history m.
Proof.
  intros Hsig. unfold _download_file.
  pose proof (signalled_raises now download tr m Hsig) as He.
  destruct (try_block_log now download tr m) as [Hl Hh].
  destruct (try_block now download tr m) as [m1 e]. simpl in He, Hl, Hh.
  subst e. simpl. unfold _update_download_status.
  destruct (db_fault m1); simpl; (split; [exact Hl | apply Hh; discriminate]).
Qed.

Lemma cancelled_run_is_no_failure_witness :
  failure_patterns (_download_file 5000000 timed_out interrupted true one_download)
    = failure_patterns one_download.
Proof.
  exact (proj1 (cancelled_run_is_no_failure 5000000 timed_out interrupted true
                  one_download eq_refl)).
Defined.

(** X7. A download answered with status 404 is marked [failed] with the
    message [HTTP 404: <reason>], and a task that carries this message is
    never let through by the smart-retry filter, whatever the failure log
    says. *)
Theorem not_found_is_never_retried (now : Z) (download : DownloadTask)
  (reason : str) (content_length : Z) (chunks : list chunk)
  (move_error : option str) (unlink_ok : bool) (m : Manager) (r : Row) :
  db_fault m = None ->
  db m !! id download = Some r ->
  let m' := _download_file now download
              (Response 404 reason content_length chunks move_error)
              unlink_ok m in
  exists r',
    db m' !! id download = Some r' /\
    row_status r' = FAILED /\
    row_error_message r' = Some (http_error 404 reason) /\
    forall now' fp downloads d,
      error_message d = row_error_message r' ->
      ~ In d (_filter_smart_retry now' fp downloads).
Proof.
  intros Hf Hr. unfold _download_file, try_block.
  change (negb (404 =? 200)) with true. cbv iota zeta.
  fold (http_error 404 reason).
  assert (Hperm : forall d, error_message d = Some (http_error 404 reason) ->
                            permanent_error d = true).
  { intros d Hd. unfold permanent_error. rewrite Hd.
    unfold http_error. change (str_of_int 404) with (lit "404").
    unfold lower. rewrite !map_app. reflexivity. }
  assert (Hdrop : forall now' fp downloads d,
             error_message d = Some (http_error 404 reason) ->
             ~ In d (_filter_smart_retry now' fp downloads)).
  { intros now' fp downloads d Hd Hin.
    rewrite filter_loop_is_filter in Hin. apply filter_In in Hin as [_ Hpass].
    apply negb_true_iff, orb_false_iff in Hpass as [_ Hp].
    rewrite (Hperm d Hd) in Hp. discriminate. }
  simpl. unfold _update_download_status. simpl. rewrite Hf.
  destruct (retry_count download <? max_retries download); simpl;
    rewrite lookup_alter_eq, Hr; simpl;
    (eexists; split; [reflexivity|]); simpl; repeat split; auto.
Qed.

Lemma not_found_is_never_retried_witness :
  exists r',
    db (_download_file 5000000 timed_out
          (Response 404 (lit "Not Found") 0 [] None) true one_download) !! 1
      = Some r' /\
    row_status r' = FAILED.
Proof.
  destruct (not_found_is_never_retried 5000000 timed_out (lit "Not Found") 0 []
              None true one_download timed_out_row eq_refl eq_refl)
    as (r' & H1 & H2 & _).
  exists r'. auto.
Defined.

(** *** File names *)

Lemma length_lstrip s : (length (lstrip s) <= length s)%nat.
Proof.
  induction s as [|c s IH]; simpl; [lia|].
  destruct (is_space c); simpl; lia.
Qed.

Lemma length_strip s : (length (strip s) <= length s)%nat.
Proof.
  unfold strip, rstrip. rewrite length_rev.
  etransitivity; [apply length_lstrip|]. rewrite length_rev. apply length_lstrip.
Qed.

Lemma Forall_firstn_chars (P : ascii -> Prop) n :
  forall s, Forall P s -> Forall P (firstn n s).
Proof.
  induction n as [|n IH]; intros s H; simpl; [constructor|].
  destruct H; constructor; auto.
Qed.

(** X5. A sanitised file name contains none of the nine characters that
    [_sanitize_filename] removes (angle brackets, colon, double quote,
    slash, backslash, bar, question mark, star), has at most 200
    characters and no white space at either end; sanitising it again
    changes nothing. *)
Theorem sanitize_filename_shape (filename : str) :
  let name := _sanitize_filename filename in
  Forall (fun c => invalid_filename_char c = false) name /\
  (length name <= 200)%nat /\
  strip name = name /\
  _sanitize_filename name = name.
Proof.
  intros name.
  set (kept := List.filter (fun c => negb (invalid_filename_char c)) filename).
  set (cut := if (200 <? length kept)%nat then firstn 200 kept else kept).
  assert (Hname : name = strip cut) by reflexivity.
  assert (Hkept : Forall (fun c => negb (invalid_filename_char c) = true) kept)
    by apply filter_Forall.
  assert (Hcut : Forall (fun c => negb (invalid_filename_char c) = true) cut).
  { subst cut. destruct (200 <? length kept)%nat;
      [now apply Forall_firstn_chars | exact Hkept]. }
  assert (Hlen : (length cut <= 200)%nat).
  { subst cut. destruct (Nat.ltb_spec 200 (length kept)).
    - rewrite length_firstn. lia.
    - lia. }
  assert (Hall : Forall (fun c => negb (invalid_filename_char c) = true) name)
    by (rewrite Hname; now apply Forall_strip).
  assert (Hn200 : (length name <= 200)%nat)
    by (rewrite Hname; etransitivity; [apply length_strip | exact Hlen]).
  assert (Hstrip : strip name = name) by (rewrite Hname; apply strip_idem).
  split; [|split; [exact Hn200 | split; [exact Hstrip|]]].
  - eapply List.Forall_impl; [|exact Hall]. intros c Hc.
    now apply negb_true_iff.
  - unfold _sanitize_filename. rewrite (filter_fixed _ _ Hall).
    destruct (Nat.ltb_spec 200 (length name)); [lia | exact Hstrip].
Qed.

Lemma record_failure_pattern_window_witness :
  failure_patterns (_record_failure_pattern 60 3 (lit "timeout") one_download) !! 7
  = failure_patterns one_download !! 7.
Proof.
  apply (proj1 (proj2 (proj2
           (record_failure_pattern_window 60 3 (lit "timeout") one_download)))).
  discriminate.
Defined.

End QueueRunsFacts.

Module RetryPolicyFacts.
Import Py PyFacts Float FloatFacts RetryManager RetryManagerFacts.

(** *** Classification *)

Lemma lower_upper_char c : lower_char (upper_char c) = lower_char c.
Proof. by_cases_on c. Qed.

Lemma lower_upper m : lower (upper m) = lower m.
Proof.
  unfold lower, upper. rewrite map_map. apply map_ext. apply lower_upper_char.
Qed.

(** X8. The classification of a failure does not depend on the case of
    the letters of the message: two messages with the same lower-case form
    get the same reason, and so do a message of 7-bit characters and its
    upper-case form. *)
Theorem categorize_failure_ignores_case (m1 m2 : str) :
  (lower m1 = lower m2 ->
   categorize_failure (Some m1) = categorize_failure (Some m2)) /\
  (ascii_text m1 = true ->
   categorize_failure (Some (upper m1)) = categorize_failure (Some m1)).
Proof.
  assert (H : forall a b, lower a = lower b ->
                          categorize_failure (Some a) = categorize_failure (Some b)).
  { intros a b Hl. unfold categorize_failure.
    destruct a as [|x a], b as [|y b]; try discriminate; [reflexivity|].
    cbn [truthy negb]. now rewrite Hl. }
  split; [apply H|]. intros _. apply H, lower_upper.
Qed.

Lemma categorize_failure_ignores_case_witness :
  categorize_failure (Some (lit "Connection REFUSED by peer"))
  = categorize_failure (Some (lit "connection refused by peer")) /\
  categorize_failure (Some (upper (lit "Connection REFUSED by peer")))
  = categorize_failure (Some (lit "Connection REFUSED by peer")).
Proof.
  split.
  - apply (proj1 (categorize_failure_ignores_case
                    (lit "Connection REFUSED by peer")
                    (lit "connection refused by peer"))).
    reflexivity.
  - apply (proj2 (categorize_failure_ignores_case
                    (lit "Connection REFUSED by peer")
                    (lit "connection refused by peer"))).
    reflexivity.
Defined.

Lemma first_reason_split d error_lower reason :
  first_reason d error_lower = Some reason <->
  exists before cfg after,
    d = before ++ (reason, cfg) :: after /\
    any_contains (patterns cfg) error_lower = true /\
    Forall (fun rc => any_contains (patterns (snd rc)) error_lower = false) before.
Proof.
  split.
  - induction d as [|[r c] d IH]; simpl; [discriminate|].
    destruct (any_contains (patterns c) error_lower) eqn:E.
    + intros [= <-]. exists [], c, d. repeat split; auto.
    + intros H. destruct (IH H) as (before & cfg & after & -> & Hm & Hb).
      exists ((r, c) :: before), cfg, after. repeat split; auto.
  - intros (before & cfg & after & -> & Hm & Hb).
    induction Hb as [|[r c] before Hrc _ IH]; simpl.
    + now rewrite Hm.
    + simpl in Hrc. now rewrite Hrc.
Qed.

(** X9. The first matching reason wins: a non-empty message is classified
    as a reason other than [UNKNOWN] exactly when one of that reason's
    patterns occurs in the lower-cased message and no pattern of a reason
    listed before it in the table does. *)
Theorem categorize_failure_first_match (m : str) (reason : RetryReason) :
  m <> [] ->
  (categorize_failure (Some m) = reason /\ reason <> UNKNOWN) <->
  exists before cfg after,
    failure_patterns = before ++ (reason, cfg) :: after /\
    any_contains (patterns cfg) (lower m) = true /\
    Forall (fun rc => any_contains (patterns (snd rc)) (lower m) = false) before.
Proof.
  intros Hm. rewrite <- first_reason_split.
  unfold categorize_failure. destruct m as [|c m]; [congruence|].
  cbn [truthy negb].
  destruct (first_reason failure_patterns (lower (c :: m))) as [r|] eqn:E.
  - assert (Hr : r <> UNKNOWN).
    { apply first_reason_split in E as (before & cfg & after & Hd & _).
      assert (Hin : In (r, cfg) failure_patterns)
        by (rewrite Hd; apply in_elt).
      intros ->. simpl in Hin.
      repeat (destruct Hin as [Hin | Hin]; [discriminate|]). exact Hin. }
    split.
    + intros [<- _]. reflexivity.
    + intros [= <-]. auto.
  - split; [intros [<- H]; now elim H | discriminate].
Qed.

Lemma categorize_failure_first_match_witness :
  categorize_failure (Some (lit "Timeout: connection reset")) = NETWORK_ERROR.
Proof.
  apply (proj2 (categorize_failure_first_match
                  (lit "Timeout: connection reset") NETWORK_ERROR ltac:(discriminate))).
  eexists [], _, _. split; [reflexivity|]. split; [vm_compute; reflexivity|].
  constructor.
Defined.

(** *** Delays *)

(** X10. With the default configuration, a retry count that is not
    negative and a draw of [random()] in [0, 1), [calculate_retry_delay]
    either returns a delay between 0 and 4320 seconds (1.2 times the cap
    of one hour) or raises [OverflowError]; it raises exactly when the
    retry count is 1024 or more and the reason is none of the three with a
    fixed delay (rate limited, server error, corrupted file). *)
Theorem retry_delay_bounds (retry_count : Z) (reason : RetryReason) (draw : Q) :
  0 <= retry_count -> (0 <= draw)%Q -> (draw < 1)%Q ->
  match calculate_retry_delay default_config retry_count reason draw with
  | Returns delay =>
      0 <= delay <= 4320 /\
      (retry_count <= 1023 \/ reason = RATE_LIMITED \/
       reason = SERVER_ERROR \/ reason = FILE_CORRUPTED)
  | Raises exception _ =>
      exception = lit "OverflowError" /\ 1024 <= retry_count /\
      reason <> RATE_LIMITED /\ reason <> SERVER_ERROR /\
      reason <> FILE_CORRUPTED
  end.
Proof.
  intros Hc Hd0 Hd1.
  destruct (RetryReason_eqb reason RATE_LIMITED) eqn:E1;
    [destruct reason; try discriminate; cbn; split; [lia | auto]|].
  destruct (RetryReason_eqb reason SERVER_ERROR) eqn:E2;
    [destruct reason; try discriminate; cbn; split; [lia | auto]|].
  destruct (RetryReason_eqb reason FILE_CORRUPTED) eqn:E3;
    [destruct reason; try discriminate; cbn; split; [lia | auto]|].
  assert (H1 : reason <> RATE_LIMITED) by (intros ->; discriminate).
  assert (H2 : reason <> SERVER_ERROR) by (intros ->; discriminate).
  assert (H3 : reason <> FILE_CORRUPTED) by (intros ->; discriminate).
  destruct (Z_le_gt_dec retry_count 1023) as [Hle | Hgt].
  - destruct (delay_in_band retry_count reason draw (conj Hc Hle) Hd0 Hd1 H1 H2 H3)
      as (n & En & Hn & _ & Hhi).
    rewrite En. split; [|left; exact Hle]. split; [exact Hn|].
    destruct (formula_range retry_count reason) as [_ Hcap].
    rewrite Zle_Qle. eapply Qle_trans; [exact Hhi|].
    apply Qle_trans with ((12 # 10) * 3600)%Q; [|qcompute].
    apply Qmult_le_l; [reflexivity | exact Hcap].
  - destruct (delay_overflows retry_count reason draw ltac:(lia) H1 H2 H3)
      as (message & E).
    rewrite E. repeat split; auto. lia.
Qed.

Lemma retry_delay_bounds_witness :
  match calculate_retry_delay default_config 9 UNKNOWN (1 # 2) with
  | Returns delay =>
      0 <= delay <= 4320 /\
      (9 <= 1023 \/ UNKNOWN = RATE_LIMITED \/
       UNKNOWN = SERVER_ERROR \/ UNKNOWN = FILE_CORRUPTED)
  | Raises exception _ =>
      exception = lit "OverflowError" /\ 1024 <= 9 /\
      UNKNOWN <> RATE_LIMITED /\ UNKNOWN <> SERVER_ERROR /\
      UNKNOWN <> FILE_CORRUPTED
  end.
Proof. apply retry_delay_bounds; [lia | discriminate | reflexivity]. Defined.

End RetryPolicyFacts.

Module CircuitBreakerMoreFacts.
Import CircuitBreaker CircuitBreakerFacts.

Lemma closed_iff_below thr rt history :
  1 <= thr ->
  (state (run (init thr rt) history) = CLOSED <->
   consecutive_failures history < thr).
Proof.
  intros Hthr. induction history as [|e history IH] using rev_ind.
  - simpl. split; [intros _; unfold consecutive_failures; simpl; lia | reflexivity].
  - rewrite run_snoc, consecutive_failures_snoc.
    destruct (reachable thr rt history) as [Ht _ Hc _ _].
    set (b := run (init thr rt) history) in *.
    destruct e as [now| |now]; simpl.
    + rewrite <- IH.
      destruct (call_allowed_cases now b) as [-> | [Hopen ->]]; [reflexivity|].
      simpl. rewrite Hopen. split; discriminate.
    + split; [intros _; lia | reflexivity].
    + rewrite Ht, Hc.
      destruct (Z.leb_spec thr (consecutive_failures history + 1)).
      * split; [discriminate | lia].
      * rewrite IH. lia.
Qed.

(** X11. With a threshold of at least 1, after any history of calls a
    breaker is CLOSED exactly when fewer than [failure_threshold] failures
    have been recorded since the last success, and then every call is
    allowed. *)
Theorem closed_exactly_below_threshold (thr rt : Z) (history : list event) :
  1 <= thr ->
  let b := run (init thr rt) history in
  (state b = CLOSED <-> consecutive_failures history < thr) /\
  (consecutive_failures history < thr ->
   forall now, call_allowed now b = (true, b)).
Proof.
  intros Hthr b. pose proof (closed_iff_below thr rt history Hthr) as H.
  fold b in H. split; [exact H|].
  intros Hlt now. apply H in Hlt. unfold call_allowed. now rewrite Hlt.
Qed.

Lemma closed_exactly_below_threshold_witness :
  call_allowed 9000000 (run (init 3 60) [Failure 0; Failure 1000000])
  = (true, run (init 3 60) [Failure 0; Failure 1000000]).
Proof.
  destruct (closed_exactly_below_threshold 3 60 [Failure 0; Failure 1000000])
    as [_ H]; [lia|].
  apply H. vm_compute. reflexivity.
Defined.

(** X12. For a breaker in any state, a call allowed at some clock reading
    is allowed at every later reading, and a refused call leaves the
    breaker exactly as it was. *)
Theorem call_allowed_later (b : t) (now later : Z) :
  (now <= later ->
   fst (call_allowed now b) = true -> fst (call_allowed later b) = true) /\
  (fst (call_allowed now b) = false -> snd (call_allowed now b) = b).
Proof.
  unfold call_allowed, timeout_elapsed.
  destruct (state b); simpl; try (split; [auto | discriminate]).
  destruct (last_failure_time b) as [last|]; simpl; [|split; auto; discriminate].
  destruct (Z.ltb_spec (recovery_timeout b * 1000000) (now - last));
    destruct (Z.ltb_spec (recovery_timeout b * 1000000) (later - last));
    simpl; split; auto; try discriminate; intros; lia.
Qed.

Lemma call_allowed_later_witness :
  fst (call_allowed 99000000 (run (init 1 60) [Failure 0])) = true.
Proof.
  apply (proj1 (call_allowed_later (run (init 1 60) [Failure 0])
                  61000000 99000000)); [lia | reflexivity].
Defined.

End CircuitBreakerMoreFacts.

Module LoadBalancerFacts.
Import Py LoadBalancer.

Lemma score_lt_irrefl a : score_lt a a = false.
Proof.
  destruct a as [x|]; simpl; [|reflexivity].
  now rewrite (proj1 (Qeq_alt x x) (Qeq_refl x)).
Qed.

Lemma score_lt_Some x y : score_lt (Some x) (Some y) = true <-> (x < y)%Q.
Proof.
  simpl. rewrite Qlt_alt. destruct (x ?= y)%Q; split; congruence.
Qed.

Lemma score_lt_asym a b : score_lt a b = true -> score_lt b a = false.
Proof.
  destruct a as [x|], b as [y|]; try (simpl; congruence).
  intros H. apply score_lt_Some in H.
  destruct (score_lt (Some y) (Some x)) eqn:E; [|reflexivity].
  apply score_lt_Some in E. exfalso. apply (Qlt_irrefl x).
  eapply Qlt_trans; eauto.
Qed.

(** The order of the keys is a strict weak order. *)
Lemma score_lt_below a b c :
  score_lt a b = true -> score_lt c b = false -> score_lt a c = true.
Proof.
  destruct a as [x|], b as [y|], c as [z|]; try (simpl; congruence).
  intros Hxy Hzy. apply score_lt_Some in Hxy. apply score_lt_Some.
  destruct (Qlt_le_dec z y) as [Hlt|Hle].
  - apply score_lt_Some in Hlt. congruence.
  - eapply Qlt_le_trans; eauto.
Qed.

(** What the builtin [min] returns: the first item whose key no other key
    is below. *)
Lemma min_from_spec {A : Type} (key : A -> score) (rest : list A) :
  forall (pre mid : list A) (best : A),
    Forall (fun y => score_lt (key best) (key y) = true) pre ->
    Forall (fun y => score_lt (key y) (key best) = false) mid ->
    exists before after,
      pre ++ best :: mid ++ rest = before ++ min_from key best rest :: after /\
      Forall (fun y => score_lt (key (min_from key best rest)) (key y) = true) before /\
      Forall (fun y => score_lt (key y) (key (min_from key best rest)) = false) after.
Proof.
  induction rest as [|x rest IH]; intros pre mid best Hpre Hmid; simpl.
  - exists pre, mid. now rewrite app_nil_r.
  - destruct (score_lt (key x) (key best)) eqn:E.
    + destruct (IH (pre ++ best :: mid) [] x) as (before & after & Heq & Hb & Ha).
      * apply Forall_app. split; [|constructor].
        -- eapply List.Forall_impl; [|exact Hpre]. intros y Hy. simpl in Hy.
           eapply score_lt_below; [exact E|]. now apply score_lt_asym.
        -- exact E.
        -- eapply List.Forall_impl; [|exact Hmid]. intros y Hy. simpl in Hy.
           eapply score_lt_below; eauto.
      * constructor.
      * exists before, after. split; [|now split].
        rewrite <- Heq. simpl. now rewrite <- !app_assoc.
    + destruct (IH pre (mid ++ [x]) best) as (before & after & Heq & Hb & Ha).
      * exact Hpre.
      * apply Forall_app. split; [exact Hmid|]. constructor; [exact E|constructor].
      * exists before, after. split; [|now split].
        rewrite <- Heq. now rewrite <- !app_assoc.
Qed.

Lemma py_min_key_spec {A : Type} (key : A -> score) (items : list A) :
  items <> [] ->
  exists x before after,
    py_min_key key items = Returns x /\
    items = before ++ x :: after /\
    Forall (fun y => score_lt (key x) (key y) = true) before /\
    Forall (fun y => score_lt (key y) (key x) = false) after.
Proof.
  destruct items as [|first rest]; [congruence|]. intros _.
  destruct (min_from_spec key rest [] [] first) as (before & after & Heq & Hb & Ha);
    [constructor | constructor |].
  exists (min_from key first rest), before, after. simpl in *. auto.
Qed.

Lemma round_robin_index (s : Z) (n : nat) :
  (0 < n)%nat -> (Z.to_nat (s mod Z.of_nat n) < n)%nat.
Proof.
  intros Hn. pose proof (Z.mod_pos_bound s (Z.of_nat n)). lia.
Qed.

Lemma select_round_robin available hm lb :
  strategy lb = ROUND_ROBIN -> available <> [] ->
  exists x,
    available !! Z.to_nat (last_used_index lb mod Z.of_nat (length available)) = Some x /\
    select_indexer available hm lb =
      (Returns (Some x),
       {| strategy := strategy lb;
          request_counts := request_counts lb;
          response_times := response_times lb;
          last_used_index := last_used_index lb + 1 |}).
Proof.
  intros Hs Hne.
  assert (Hlen : (0 < length available)%nat)
    by (destruct available; simpl; [congruence | lia]).
  destruct (lookup_lt_is_Some_2 available _
              (round_robin_index (last_used_index lb) _ Hlen)) as [x Hx].
  exists x. split; [exact Hx|].
  unfold select_indexer, _round_robin_selection. rewrite Hs.
  destruct available; [congruence|]. now rewrite Hx.
Qed.

Lemma select_by_key available hm lb :
  strategy lb <> ROUND_ROBIN -> available <> [] ->
  exists key,
    select_indexer available hm lb =
      (match py_min_key key available with
       | Returns x => Returns (Some x)
       | Raises => Raises
       end, lb) /\
    key = match strategy lb with
          | ROUND_ROBIN => fun _ => None
          | PRIORITY_BASED => fun x => Some (inject_Z (priority x))
          | RESPONSE_TIME_BASED => get_avg_response_time hm
          | LOAD_BALANCED => fun x => Some (inject_Z (request_count lb (id x)))
          | INTELLIGENT => calculate_score lb hm
          end.
Proof.
  intros Hs Hne. destruct available as [|first rest] eqn:E; [congruence|].
  unfold select_indexer. eexists. split; [|reflexivity].
  destruct (strategy lb); try congruence; reflexivity.
Qed.

(** A selection among candidates returns one of them and leaves the
    records of the balancer alone. *)
Lemma select_indexer_some available hm lb :
  available <> [] ->
  exists x lb',
    select_indexer available hm lb = (Returns (Some x), lb') /\
    In x available /\
    strategy lb' = strategy lb /\
    request_counts lb' = request_counts lb /\
    response_times lb' = response_times lb.
Proof.
  intros Hne. destruct (strategy lb) eqn:Hs.
  1: { destruct (select_round_robin available hm lb Hs Hne) as (x & Hx & ->).
       eexists x, _. split; [reflexivity|]. simpl. repeat split; auto.
       apply list_elem_of_In. eapply list_elem_of_lookup_2, Hx. }
  all: destruct (select_by_key available hm lb) as (key & -> & _);
         [congruence | exact Hne |];
       destruct (py_min_key_spec key available Hne)
         as (x & before & after & -> & Heq & _);
       exists x, lb; (repeat split; auto);
       rewrite Heq; apply in_or_app; right; now left.
Qed.

(** X13. Whatever the strategy and the state of the balancer,
    [select_indexer] raises no exception, returns [None] exactly when there
    is no candidate, and otherwise returns one of the candidates. *)
Theorem select_indexer_picks_a_candidate (available : list IndexerNode)
  (hm : gmap Z HealthMetrics) (lb : t) :
  exists selected,
    fst (select_indexer available hm lb) = Returns selected /\
    (selected = None <-> available = []) /\
    (forall x, selected = Some x -> In x available).
Proof.
  destruct available as [|first rest] eqn:E.
  - exists None. simpl. repeat split; auto; discriminate.
  - rewrite <- E. assert (Hne : available <> []) by (rewrite E; discriminate).
    clear E. destruct (strategy lb) eqn:Hs.
    1: { destruct (select_round_robin available hm lb Hs Hne) as (x & Hx & ->).
         exists (Some x). simpl. repeat split; try congruence.
         intros y [= <-]. apply list_elem_of_In. eapply list_elem_of_lookup_2, Hx. }
    all: destruct (select_by_key available hm lb) as (key & -> & _);
           [congruence | exact Hne |];
         destruct (py_min_key_spec key available Hne)
           as (x & before & after & -> & Heq & _);
         exists (Some x); simpl; (repeat split; try congruence);
         intros y [= <-]; rewrite Heq; apply in_or_app; right; now left.
Qed.

Lemma select_indexer_picks_a_candidate_witness :
  exists selected,
    fst (select_indexer [node 1 5; node 2 3] ∅ (init LOAD_BALANCED)) = Returns selected /\
    (selected = None <-> [node 1 5; node 2 3] = []) /\
    (forall x, selected = Some x -> In x [node 1 5; node 2 3]).
Proof.
  apply (select_indexer_picks_a_candidate [node 1 5; node 2 3] ∅ (init LOAD_BALANCED)).
Defined.

(** X14. Under the priority strategy the selected candidate is the first
    one of the lowest priority number: every candidate listed before it has
    a strictly greater number, none after it has a smaller one, and the
    balancer is left as it was. *)
Theorem priority_selection_first_lowest (available : list IndexerNode)
  (hm : gmap Z HealthMetrics) (lb : t) :
  strategy lb = PRIORITY_BASED -> available <> [] ->
  exists x before after,
    select_indexer available hm lb = (Returns (Some x), lb) /\
    available = before ++ x :: after /\
    Forall (fun y => priority x < priority y) before /\
    Forall (fun y => priority x <= priority y) after.
Proof.
  intros Hs Hne.
  destruct (select_by_key available hm lb) as (key & -> & ->);
    [congruence | exact Hne |].
  rewrite Hs.
  destruct (py_min_key_spec (fun x => Some (inject_Z (priority x))) available Hne)
    as (x & before & after & -> & Heq & Hb & Ha).
  exists x, before, after. repeat split; auto.
  - eapply List.Forall_impl; [|exact Hb]. intros y Hy. cbv beta in Hy.
    apply score_lt_Some in Hy. now rewrite <- Zlt_Qlt in Hy.
  - eapply List.Forall_impl; [|exact Ha]. intros y Hy. cbv beta in Hy.
    destruct (Z_lt_le_dec (priority y) (priority x)) as [Hlt|Hle]; [|exact Hle].
    rewrite Zlt_Qlt in Hlt. apply score_lt_Some in Hlt. congruence.
Qed.

Lemma priority_selection_first_lowest_witness :
  exists x before after,
    select_indexer [node 1 5; node 2 3; node 3 3] ∅ (init PRIORITY_BASED)
      = (Returns (Some x), init PRIORITY_BASED) /\
    [node 1 5; node 2 3; node 3 3] = before ++ x :: after /\
    Forall (fun y => priority x < priority y) before /\
    Forall (fun y => priority x <= priority y) after.
Proof.
  apply (priority_selection_first_lowest [node 1 5; node 2 3; node 3 3] ∅
           (init PRIORITY_BASED)); [reflexivity | discriminate].
Defined.

(** X16. Under the intelligent strategy, when some candidate has health
    metrics whose status is not DOWN, the selected candidate has metrics
    too and is not DOWN, and no candidate has a lower score. *)
Theorem intelligent_selection_avoids_down (available : list IndexerNode)
  (hm : gmap Z HealthMetrics) (lb : t) :
  strategy lb = INTELLIGENT ->
  (exists y metrics,
      In y available /\ hm !! id y = Some metrics /\ status metrics <> DOWN) ->
  exists x metrics,
    select_indexer available hm lb = (Returns (Some x), lb) /\
    In x available /\
    hm !! id x = Some metrics /\ status metrics <> DOWN /\
    forall y, In y available ->
      score_lt (calculate_score lb hm y) (calculate_score lb hm x) = false.
Proof.
  intros Hs (y & my & Hy & Hmy & Hdown).
  assert (Hne : available <> []) by (intros ->; destruct Hy).
  destruct (select_by_key available hm lb) as (key & -> & ->);
    [congruence | exact Hne |].
  rewrite Hs.
  destruct (py_min_key_spec (calculate_score lb hm) available Hne)
    as (x & before & after & -> & Heq & Hb & Ha).
  assert (Hmin : forall z, In z available ->
            score_lt (calculate_score lb hm z) (calculate_score lb hm x) = false).
  { intros z Hz. rewrite Heq in Hz. apply in_app_or in Hz.
    destruct Hz as [Hz | [<- | Hz]].
    - apply score_lt_asym. rewrite List.Forall_forall in Hb. now apply Hb.
    - apply score_lt_irrefl.
    - rewrite List.Forall_forall in Ha. now apply Ha. }
  assert (Hfinite : exists q, calculate_score lb hm y = Some q).
  { unfold calculate_score. rewrite Hmy.
    destruct (status my); try congruence; eexists; reflexivity. }
  destruct Hfinite as [q Hq].
  pose proof (Hmin y Hy) as Hyx. rewrite Hq in Hyx.
  assert (Hx : In x available) by (rewrite Heq; apply in_or_app; right; now left).
  unfold calculate_score in Hyx at 1.
  destruct (hm !! id x) as [mx|] eqn:Hmx; [|discriminate].
  exists x, mx. repeat split; auto.
  intros Hd. rewrite Hd in Hyx. discriminate.
Qed.

Lemma intelligent_selection_avoids_down_witness :
  exists x m,
    select_indexer [node 1 1; node 2 9] {[ 1 := metrics 1 DOWN 10; 2 := metrics 2 DEGRADED 900 ]}
      (init INTELLIGENT) = (Returns (Some x), init INTELLIGENT) /\
    In x [node 1 1; node 2 9] /\
    ({[ 1 := metrics 1 DOWN 10; 2 := metrics 2 DEGRADED 900 ]} : gmap Z HealthMetrics)
      !! id x = Some m /\
    status m <> DOWN /\
    forall y, In y [node 1 1; node 2 9] ->
      score_lt (calculate_score (init INTELLIGENT)
                  {[ 1 := metrics 1 DOWN 10; 2 := metrics 2 DEGRADED 900 ]} y)
               (calculate_score (init INTELLIGENT)
                  {[ 1 := metrics 1 DOWN 10; 2 := metrics 2 DEGRADED 900 ]} x) = false.
Proof.
  apply (intelligent_selection_avoids_down [node 1 1; node 2 9]
           {[ 1 := metrics 1 DOWN 10; 2 := metrics 2 DEGRADED 900 ]}
           (init INTELLIGENT)); [reflexivity|].
  exists (node 2 9), (metrics 2 DEGRADED 900).
  split; [right; now left|]. split; [reflexivity | discriminate].
Defined.

Lemma select_repeatedly_round_robin available hm (calls : nat) :
  available <> [] ->
  forall lb, strategy lb = ROUND_ROBIN ->
    fst (select_repeatedly calls available hm lb)
      = map (pick available (last_used_index lb)) (seq 0 calls) /\
    last_used_index (snd (select_repeatedly calls available hm lb))
      = last_used_index lb + Z.of_nat calls.
Proof.
  intros Hne. induction calls as [|calls IH]; intros lb Hs.
  - simpl. split; [reflexivity | lia].
  - cbn [select_repeatedly].
    destruct (select_round_robin available hm lb Hs Hne) as (x & Hx & ->).
    match goal with
    | |- context [select_repeatedly calls available hm ?lb'] =>
        destruct (IH lb' Hs) as [IH1 IH2];
        destruct (select_repeatedly calls available hm lb') as [others lb'']
    end.
    simpl in *. split; [|lia].
    rewrite <- seq_shift, map_map. f_equal.
    + unfold pick. cbn [Z.of_nat]. rewrite Z.add_0_r. now rewrite Hx.
    + rewrite IH1. apply map_ext. intros j. unfold pick.
      now replace (last_used_index lb + 1 + Z.of_nat j)
        with (last_used_index lb + Z.of_nat (S j)) by lia.
Qed.

Lemma rotation_lookup {A : Type} (l : list A) (r : nat) :
  (r < length l)%nat ->
  map (fun j => l !! ((r + j) mod length l)%nat) (seq 0 (length l))
    = map Some (drop r l ++ take r l).
Proof.
  intros Hr. apply list_eq. intros i.
  rewrite !list_lookup_fmap.
  destruct (Nat.lt_ge_cases i (length l)) as [Hi|Hi].
  - rewrite lookup_seq_lt by exact Hi. simpl.
    destruct (Nat.lt_ge_cases (r + i) (length l)) as [Hri|Hri].
    + rewrite Nat.mod_small by exact Hri.
      rewrite lookup_app_l by (rewrite length_drop; lia).
      rewrite lookup_drop.
      destruct (lookup_lt_is_Some_2 l (r + i)%nat Hri) as [x ->]. reflexivity.
    + replace ((r + i) mod length l)%nat with (r + i - length l)%nat.
      2: { apply (Nat.mod_unique _ _ 1%nat); lia. }
      rewrite lookup_app_r by (rewrite length_drop; lia).
      rewrite length_drop.
      rewrite lookup_take_lt by lia.
      replace (i - (length l - r))%nat with (r + i - length l)%nat by lia.
      destruct (lookup_lt_is_Some_2 l (r + i - length l)%nat) as [x ->];
        [lia | reflexivity].
  - rewrite lookup_seq_ge by exact Hi. simpl.
    rewrite lookup_ge_None_2; [reflexivity|].
    rewrite length_app, length_drop, length_take. lia.
Qed.

(** X15. Under the round-robin strategy, as many successive selections as
    there are candidates return every candidate once, in list order
    starting at position [last_used_index mod len] and wrapping around;
    the counter has then advanced by the number of candidates. *)
Theorem round_robin_cycle (available : list IndexerNode)
  (hm : gmap Z HealthMetrics) (lb : t) :
  strategy lb = ROUND_ROBIN -> available <> [] ->
  let n := length available in
  let r := Z.to_nat (last_used_index lb mod Z.of_nat n) in
  fst (select_repeatedly n available hm lb)
    = map (fun x => Returns (Some x)) (drop r available ++ take r available) /\
  last_used_index (snd (select_repeatedly n available hm lb))
    = last_used_index lb + Z.of_nat n.
Proof.
  intros Hs Hne n r.
  destruct (select_repeatedly_round_robin available hm n Hne lb Hs) as [H1 H2].
  split; [|exact H2]. rewrite H1.
  assert (Hn : (0 < n)%nat)
    by (subst n; destruct available; simpl; [congruence | lia]).
  assert (Hr : (r < n)%nat) by (apply round_robin_index; exact Hn).
  pose proof (rotation_lookup available r Hr) as Hrot.
  apply (f_equal (map (fun o : option IndexerNode =>
                         match o with
                         | Some x => Returns (Some x)
                         | None => Raises
                         end))) in Hrot.
  rewrite !map_map in Hrot. simpl in Hrot. rewrite <- Hrot.
  apply map_ext_in. intros j Hj. apply in_seq in Hj. unfold pick.
  replace (Z.to_nat ((last_used_index lb + Z.of_nat j) mod Z.of_nat (length available)))
    with ((r + j) mod length available)%nat; [reflexivity|].
  subst r n. pose proof (Z.mod_pos_bound (last_used_index lb)
                           (Z.of_nat (length available))) as Hb.
  rewrite <- Zplus_mod_idemp_l.
  apply Nat2Z.inj. rewrite Nat2Z.inj_mod, Nat2Z.inj_add.
  rewrite !Z2Nat.id; [reflexivity | | lia].
  apply Z.mod_pos_bound. lia.
Qed.

Lemma round_robin_cycle_witness :
  fst (select_repeatedly 3 [node 1 5; node 2 3; node 3 3] ∅
         (record_request 7 0 (init ROUND_ROBIN)))
  = [Returns (Some (node 1 5)); Returns (Some (node 2 3)); Returns (Some (node 3 3))].
Proof.
  apply (proj1 (round_robin_cycle [node 1 5; node 2 3; node 3 3] ∅
                  (record_request 7 0 (init ROUND_ROBIN)) eq_refl
                  ltac:(discriminate))).
Defined.

Lemma last_items_app {A : Type} (k : nat) (a b : list A) :
  last_items k (last_items k a ++ b) = last_items k (a ++ b).
Proof.
  unfold last_items. rewrite !length_app, length_drop.
  rewrite !drop_app, drop_drop, length_drop.
  f_equal; f_equal; lia.
Qed.

Lemma record_request_history indexer_id ms lb :
  (length (response_history lb indexer_id) <= 100)%nat ->
  response_history (record_request indexer_id ms lb) indexer_id
    = last_items 100 (response_history lb indexer_id ++ [ms]).
Proof.
  intros Hlen. unfold response_history at 1, record_request. simpl.
  rewrite lookup_insert_eq. simpl.
  set (h := response_history lb indexer_id) in *.
  unfold last_items. rewrite length_app. simpl.
  destruct (Z.leb_spec 100 (Z.of_nat (length h))).
  - assert (length h = 100%nat) as Hh by lia. rewrite Hh. simpl.
    destruct h; [discriminate | reflexivity].
  - replace (length h + 1 - 100)%nat with 0%nat by lia. reflexivity.
Qed.

Lemma last_items_length {A : Type} (k : nat) (l : list A) :
  (length (last_items k l) <= k)%nat.
Proof. unfold last_items. rewrite length_drop. lia. Qed.

(** X17. When the response-time history of an indexer holds at most 100
    entries, recording further requests leaves exactly the last 100 of the
    old entries followed by the new ones, raises the request count of the
    indexer by the number of requests, and touches no other indexer. *)
Theorem record_requests_keeps_last_100 (indexer_id : Z) (times : list Z) (lb : t) :
  (length (response_history lb indexer_id) <= 100)%nat ->
  response_history (record_requests indexer_id times lb) indexer_id
    = last_items 100 (response_history lb indexer_id ++ times) /\
  request_count (record_requests indexer_id times lb) indexer_id
    = request_count lb indexer_id + Z.of_nat (length times) /\
  forall other, other <> indexer_id ->
    response_history (record_requests indexer_id times lb) other
      = response_history lb other /\
    request_count (record_requests indexer_id times lb) other
      = request_count lb other.
Proof.
  revert lb. induction times as [|ms times IH]; intros lb Hlen.
  - simpl. rewrite app_nil_r. unfold last_items.
    replace (length (response_history lb indexer_id) - 100)%nat with 0%nat by lia.
    repeat split; try reflexivity; lia.
  - change (record_requests indexer_id (ms :: times) lb)
      with (record_requests indexer_id times (record_request indexer_id ms lb)).
    pose proof (record_request_history indexer_id ms lb Hlen) as Hh.
    destruct (IH (record_request indexer_id ms lb)) as (IH1 & IH2 & IH3).
    { rewrite Hh. apply last_items_length. }
    split; [|split].
    + rewrite IH1, Hh, last_items_app. now rewrite <- app_assoc.
    + rewrite IH2. unfold request_count at 1, record_request. simpl.
      rewrite lookup_insert_eq. simpl. lia.
    + intros other Hother. destruct (IH3 other Hother) as [-> ->].
      unfold response_history, request_count, record_request. simpl.
      rewrite !lookup_insert_ne by congruence. split; reflexivity.
Qed.

Lemma record_requests_keeps_last_100_witness :
  response_history (record_requests 4 (repeat 250 101) (init LOAD_BALANCED)) 4
    = repeat 250 100.
Proof.
  destruct (record_requests_keeps_last_100 4 (repeat 250 101)
              (init LOAD_BALANCED)) as [H _]; [vm_compute; lia|].
  rewrite H. vm_compute. reflexivity.
Defined.

End LoadBalancerFacts.

Module FailoverManagerFacts.
Import Py LoadBalancer LoadBalancerFacts FailoverManager.

Lemma call_allowed_not_open now cb :
  CircuitBreaker.state cb <> CircuitBreaker.OPEN ->
  CircuitBreaker.call_allowed now cb = (true, cb).
Proof.
  unfold CircuitBreaker.call_allowed.
  destruct (CircuitBreaker.state cb); congruence.
Qed.

Lemma call_allowed_after now cb :
  fst (CircuitBreaker.call_allowed now cb) = true ->
  CircuitBreaker.state (snd (CircuitBreaker.call_allowed now cb))
    <> CircuitBreaker.OPEN.
Proof.
  unfold CircuitBreaker.call_allowed.
  destruct (CircuitBreaker.state cb) eqn:E; simpl.
  - congruence.
  - destruct (CircuitBreaker.last_failure_time cb);
      [destruct (CircuitBreaker.timeout_elapsed _ _ _)|];
      simpl; intros; discriminate.
  - congruence.
Qed.

Lemma breakers_kept_refl b : breakers_kept b b.
Proof. split; [auto | intros k; reflexivity]. Qed.

Lemma breakers_kept_trans a b c :
  breakers_kept a b -> breakers_kept b c -> breakers_kept a c.
Proof.
  intros [H1 H2] [H3 H4]. split.
  - intros k cb Hk Hs. apply H3; auto.
  - intros k. now rewrite H4, H2.
Qed.

Lemma breakers_kept_consult now k cb breakers :
  breakers !! k = Some cb ->
  breakers_kept breakers
    (<[k := snd (CircuitBreaker.call_allowed now cb)]> breakers).
Proof.
  intros Hk. split.
  - intros k' cb' Hk' Hs. destruct (decide (k' = k)) as [->|Hne].
    + rewrite lookup_insert_eq. rewrite Hk in Hk'. injection Hk' as ->.
      now rewrite call_allowed_not_open.
    + now rewrite lookup_insert_ne by congruence.
  - intros k'. destruct (decide (k' = k)) as [->|Hne].
    + rewrite lookup_insert_eq, Hk. split; eauto.
    + now rewrite lookup_insert_ne by congruence.
Qed.

Lemma available_from_kept ef w health nodes :
  forall breakers acc,
    breakers_kept breakers
      (snd (available_from ef w health nodes breakers acc)).
Proof.
  induction nodes as [|[node_id node] rest IH]; intros breakers acc; simpl.
  - apply breakers_kept_refl.
  - destruct (is_active node); simpl; [|apply IH].
    destruct (breakers !! node_id) as [cb|] eqn:Hcb; [|apply breakers_kept_refl].
    pose proof (breakers_kept_consult (clock w node_id) node_id cb breakers Hcb) as Hk.
    destruct (CircuitBreaker.call_allowed (clock w node_id) cb) as [allowed cb'].
    simpl in Hk.
    destruct allowed; simpl; [destruct (ef && is_down health node_id)%bool|];
      (eapply breakers_kept_trans; [exact Hk | apply IH]).
Qed.

Lemma available_from_sound ef w health nodes :
  forall breakers acc r breakers',
    available_from ef w health nodes breakers acc = (Returns r, breakers') ->
    exists added,
      r = acc ++ added /\
      Forall (usable ef health nodes breakers') added.
Proof.
  induction nodes as [|[node_id node] rest IH]; intros breakers acc r breakers' H;
    simpl in H.
  - injection H as <- <-. exists []. now rewrite app_nil_r.
  - assert (Hweak : forall added,
              Forall (usable ef health rest breakers') added ->
              Forall (usable ef health ((node_id, node) :: rest) breakers') added).
    { intros added. apply List.Forall_impl.
      intros x (k & cb & Hin & Hrest). exists k, cb. split; [now right | exact Hrest]. }
    destruct (is_active node) eqn:Hact; simpl in H.
    2: { destruct (IH _ _ _ _ H) as (added & -> & Hadd). eauto. }
    destruct (breakers !! node_id) as [cb|] eqn:Hcb; [|discriminate].
    pose proof (call_allowed_after (clock w node_id) cb) as Hafter.
    destruct (CircuitBreaker.call_allowed (clock w node_id) cb) as [allowed cb'].
    simpl in Hafter.
    destruct allowed; simpl in H.
    2: { destruct (IH _ _ _ _ H) as (added & -> & Hadd). eauto. }
    destruct (ef && is_down health node_id)%bool eqn:Hdown.
    { destruct (IH _ _ _ _ H) as (added & -> & Hadd). eauto. }
    destruct (IH _ _ _ _ H) as (added & -> & Hadd).
    exists (node :: added). split; [now rewrite <- app_assoc|].
    constructor; [|now apply Hweak].
    exists node_id, cb'. split; [now left|]. split; [exact Hact|].
    split; [intros ->; exact Hdown|].
    pose proof (available_from_kept ef w health rest
                  (<[node_id := cb']> breakers) (acc ++ [node])) as [Hkept _].
    rewrite H in Hkept. simpl in Hkept. split; [|now apply Hafter].
    apply Hkept; [apply lookup_insert_eq | now apply Hafter].
Qed.

Lemma available_from_acc ef w health nodes :
  forall breakers acc r breakers',
    available_from ef w health nodes breakers acc = (Returns r, breakers') ->
    forall x, In x acc -> In x r.
Proof.
  intros breakers acc r breakers' H x Hx.
  destruct (available_from_sound _ _ _ _ _ _ _ _ H) as (added & -> & _).
  apply in_or_app. now left.
Qed.

Lemma available_from_complete ef w health nodes :
  forall breakers acc r breakers',
    available_from ef w health nodes breakers acc = (Returns r, breakers') ->
    forall node_id node cb,
      In (node_id, node) nodes ->
      is_active node = true ->
      breakers !! node_id = Some cb ->
      CircuitBreaker.state cb <> CircuitBreaker.OPEN ->
      (ef && is_down health node_id)%bool = false ->
      In node r.
Proof.
  induction nodes as [|[k v] rest IH];
    intros breakers acc r breakers' H node_id node cb Hin Hact Hcb Hs Hdown;
    [destruct Hin|].
  simpl in H. destruct Hin as [[= -> ->] | Hin].
  - rewrite Hact, Hcb in H. simpl in H.
    rewrite call_allowed_not_open in H by exact Hs. simpl in H.
    rewrite Hdown in H.
    eapply available_from_acc; [exact H|]. apply in_or_app. right. now left.
  - destruct (is_active v); simpl in H.
    2: { eapply IH; eauto. }
    destruct (breakers !! k) as [cbk|] eqn:Hk; [|discriminate].
    pose proof (breakers_kept_consult (clock w k) k cbk breakers Hk) as [Hkept _].
    destruct (CircuitBreaker.call_allowed (clock w k) cbk) as [allowed cb'].
    simpl in Hkept. specialize (Hkept node_id cb Hcb Hs).
    destruct allowed; simpl in H;
      [destruct (ef && is_down health k)%bool|]; eapply IH; eauto.
Qed.

Lemma available_from_returns ef w health nodes :
  forall breakers acc,
    (forall node_id node, In (node_id, node) nodes -> is_Some (breakers !! node_id)) ->
    exists r, fst (available_from ef w health nodes breakers acc) = Returns r.
Proof.
  induction nodes as [|[k v] rest IH]; intros breakers acc Hall; simpl.
  - eauto.
  - assert (Hrest : forall breakers',
              breakers_kept breakers breakers' ->
              forall node_id node, In (node_id, node) rest ->
                is_Some (breakers' !! node_id)).
    { intros breakers' [_ Hdom] node_id node Hin. apply Hdom.
      eapply Hall. right. exact Hin. }
    destruct (is_active v); simpl.
    2: { apply IH. apply Hrest, breakers_kept_refl. }
    destruct (Hall k v (or_introl eq_refl)) as [cb Hcb]. rewrite Hcb.
    pose proof (breakers_kept_consult (clock w k) k cb breakers Hcb) as Hk.
    destruct (CircuitBreaker.call_allowed (clock w k) cb) as [allowed cb'].
    simpl in Hk.
    destruct allowed; simpl; [destruct (ef && is_down health k)%bool|];
      apply IH, Hrest, Hk.
Qed.

(** X18. When [get_available_indexers] returns, every node of its list is
    a configured node that is active, whose breaker is not OPEN after the
    call and, with [exclude_failed], whose metrics do not say DOWN; and
    every active node whose breaker was not OPEN and that is not excluded
    as DOWN is in the list. *)
Theorem available_indexers_are_usable (exclude_failed : bool) (w : World)
  (m m' : t) (available : list IndexerNode) :
  get_available_indexers exclude_failed w m = (Returns available, m') ->
  (forall node, In node available ->
     exists node_id cb,
       In (node_id, node) (indexer_nodes m) /\
       is_active node = true /\
       (exclude_failed = true -> is_down (health_metrics m) node_id = false) /\
       circuit_breakers m' !! node_id = Some cb /\
       CircuitBreaker.state cb <> CircuitBreaker.OPEN) /\
  (forall node_id node cb,
     In (node_id, node) (indexer_nodes m) ->
     is_active node = true ->
     circuit_breakers m !! node_id = Some cb ->
     CircuitBreaker.state cb <> CircuitBreaker.OPEN ->
     (exclude_failed && is_down (health_metrics m) node_id)%bool = false ->
     In node available).
Proof.
  unfold get_available_indexers.
  destruct (available_from exclude_failed w (health_metrics m) (indexer_nodes m)
              (circuit_breakers m) []) as [r breakers'] eqn:E.
  intros [= -> <-]. split.
  - intros node Hin.
    destruct (available_from_sound _ _ _ _ _ _ _ _ E) as (added & -> & Hadd).
    simpl in Hin. rewrite List.Forall_forall in Hadd. exact (Hadd node Hin).
  - intros node_id node cb. eapply available_from_complete; eauto.
Qed.

Lemma available_indexers_are_usable_witness :
  exists node_id cb,
    In (node_id, node 1 5) (indexer_nodes two_nodes) /\
    is_active (node 1 5) = true /\
    (true = true -> is_down (health_metrics two_nodes) node_id = false) /\
    circuit_breakers (snd (get_available_indexers true quiet two_nodes)) !! node_id
      = Some cb /\
    CircuitBreaker.state cb <> CircuitBreaker.OPEN.
Proof.
  apply (proj1 (available_indexers_are_usable true quiet two_nodes
                  (snd (get_available_indexers true quiet two_nodes))
                  [node 1 5; node 2 3] ltac:(vm_compute; reflexivity))
           (node 1 5)).
  now left.
Defined.

Lemma filter_excluded (excluded : option (gset Z)) (available : list IndexerNode) x :
  In x (match excluded with
        | Some excluded =>
            if bool_decide (excluded = ∅) then available
            else List.filter (fun node => bool_decide (id node ∉ excluded)) available
        | None => available
        end) ->
  In x available /\ forall ex, excluded = Some ex -> id x ∉ ex.
Proof.
  destruct excluded as [ex|]; [|intros H; split; [exact H | discriminate]].
  destruct (bool_decide (ex = ∅)) eqn:E.
  - apply bool_decide_eq_true in E. subst ex. intros H. split; [exact H|].
    intros ex [= <-]. set_solver.
  - intros H. apply List.filter_In in H. destruct H as [Hin Hx].
    apply bool_decide_eq_true in Hx. split; [exact Hin|]. now intros ? [= <-].
Qed.

(** X19. When [route_request] returns a node, the node is none of the
    excluded ones; it is a configured node that is active, not DOWN, with
    a breaker that is not OPEN after the call; and the balancer has
    recorded one more request for it, with a response time of 0 as the
    newest entry of its history. *)
Theorem route_request_result (excluded : option (gset Z)) (w : World)
  (m m' : t) (selected : IndexerNode) :
  route_request excluded w m = (Returns (Some selected), m') ->
  (forall ex, excluded = Some ex -> id selected ∉ ex) /\
  (exists node_id cb,
     In (node_id, selected) (indexer_nodes m) /\
     is_active selected = true /\
     is_down (health_metrics m) node_id = false /\
     circuit_breakers m' !! node_id = Some cb /\
     CircuitBreaker.state cb <> CircuitBreaker.OPEN) /\
  request_count (load_balancer m') (id selected)
    = request_count (load_balancer m) (id selected) + 1 /\
  last (response_history (load_balancer m') (id selected)) = Some 0.
Proof.
  unfold route_request, get_available_indexers.
  destruct (available_from true w (health_metrics m) (indexer_nodes m)
              (circuit_breakers m) []) as [[available|] breakers'] eqn:E;
    [|discriminate].
  set (candidates := match excluded with
                     | Some ex => _
                     | None => available
                     end).
  pose proof (filter_excluded excluded available) as Hfilter. fold candidates in Hfilter.
  destruct candidates as [|first rest] eqn:Ec; [discriminate|].
  rewrite <- Ec in *. assert (Hne : candidates <> []) by (rewrite Ec; discriminate).
  clearbody candidates. clear Ec.
  destruct (select_indexer_some candidates (health_metrics (with_breakers breakers' m))
              (load_balancer (with_breakers breakers' m)) Hne)
    as (x & lb' & -> & Hin & _ & Hcounts & Htimes).
  intros [= <- <-]. destruct (Hfilter x Hin) as [Hav Hex].
  split; [exact Hex|]. split; [|split].
  - destruct (available_from_sound _ _ _ _ _ _ _ _ E) as (added & -> & Hadd).
    simpl in Hav. rewrite List.Forall_forall in Hadd.
    destruct (Hadd x Hav) as (node_id & cb & H1 & H2 & H3 & H4 & H5).
    exists node_id, cb. simpl. auto.
  - simpl. unfold request_count, record_request. simpl.
    rewrite lookup_insert_eq. simpl. unfold request_count. now rewrite Hcounts.
  - simpl. unfold response_history at 1, record_request. simpl.
    rewrite lookup_insert_eq. simpl. apply last_snoc.
Qed.

Lemma route_request_result_witness :
  request_count
    (load_balancer (snd (route_request (Some {[ 2 ]}) quiet two_nodes))) 1 = 1.
Proof.
  destruct (route_request_result (Some {[ 2 ]}) quiet two_nodes
              (snd (route_request (Some {[ 2 ]}) quiet two_nodes)) (node 1 5))
    as (_ & _ & H & _); [vm_compute; reflexivity|].
  exact H.
Defined.




Lemma healthy_alternatives_raises failed w health nodes :
  forall breakers healthy,
    (exists node_id x,
        In (node_id, x) nodes /\ node_id <> failed /\ health !! node_id = None) ->
    fst (healthy_alternatives failed w health nodes breakers healthy) = Raises.
Proof.
  induction nodes as [|[k v] rest IH]; intros breakers healthy (node_id & x & Hin & Hne & Hnone);
    [destruct Hin|].
  simpl. destruct (Z.eqb_spec k failed) as [->|Hk].
  - apply IH. destruct Hin as [[= -> ->]|Hin]; [congruence|]. eauto.
  - destruct (health !! k) as [h|] eqn:Hh; [|reflexivity].
    assert (Hrest : exists node_id x,
              In (node_id, x) rest /\ node_id <> failed /\ health !! node_id = None).
    { destruct Hin as [[= -> ->]|Hin]; [congruence|]. eauto. }
    destruct (is_status (status h) HEALTHY); simpl; [|now apply IH].
    destruct (breakers !! k) as [cb|]; [|reflexivity].
    destruct (CircuitBreaker.call_allowed (clock w k) cb) as [[|] cb'];
      now apply IH.
Qed.

(** X21. When some configured node other than the failed one has no
    health metrics, [_trigger_failover] raises: no failover event is
    recorded and the load balancer is not consulted. *)
Theorem trigger_failover_needs_metrics (failed : Z) (why : str) (w : World) (m : t) :
  (exists node_id x,
      In (node_id, x) (indexer_nodes m) /\ node_id <> failed /\
      health_metrics m !! node_id = None) ->
  fst (_trigger_failover failed why w m) = Raises /\
  failover_history (snd (_trigger_failover failed why w m)) = failover_history m /\
  load_balancer (snd (_trigger_failover failed why w m)) = load_balancer m.
Proof.
  intros H. unfold _trigger_failover.
  pose proof (healthy_alternatives_raises failed w (health_metrics m)
                (indexer_nodes m) (circuit_breakers m) [] H) as Hr.
  destruct (healthy_alternatives failed w (health_metrics m) (indexer_nodes m)
              (circuit_breakers m) []) as [r breakers'].
  simpl in Hr. subst r. simpl. auto.
Qed.

Lemma trigger_failover_needs_metrics_witness :
  fst (_trigger_failover 1 (lit "Manual test") quiet two_nodes) = Raises.
Proof.
  apply (trigger_failover_needs_metrics 1 (lit "Manual test") quiet two_nodes).
  exists 2, (node 2 3). split; [right; now left|]. split; [lia | reflexivity].
Defined.

Lemma steady_refl m : steady m m.
Proof. repeat split; auto. Qed.

Lemma steady_trans a b c : steady a b -> steady b c -> steady a c.
Proof.
  intros (H1 & H2 & H3) (H4 & H5 & H6). split; [congruence|]. split; [auto|].
  intros Ha. destruct (H3 Ha) as [Hb Hr]. destruct (H6 Hb) as [Hc Hr'].
  split; [exact Hc | congruence].
Qed.

Lemma insert_keeps_keys (breakers : gmap Z CircuitBreaker.t) j cb k :
  is_Some (breakers !! k) -> is_Some (<[j := cb]> breakers !! k).
Proof.
  intros H. destruct (decide (k = j)) as [->|Hne].
  - rewrite lookup_insert_eq. eauto.
  - now rewrite lookup_insert_ne by congruence.
Qed.

Lemma healthy_alternatives_keys failed w health nodes :
  forall breakers healthy k,
    is_Some (breakers !! k) ->
    is_Some (snd (healthy_alternatives failed w health nodes breakers healthy) !! k).
Proof.
  induction nodes as [|[j v] rest IH]; intros breakers healthy k Hk; simpl; [exact Hk|].
  destruct (j =? failed); [now apply IH|].
  destruct (health !! j) as [h|]; [|exact Hk].
  destruct (is_status (status h) HEALTHY); simpl; [|now apply IH].
  destruct (breakers !! j) as [cb|]; [|exact Hk].
  destruct (CircuitBreaker.call_allowed (clock w j) cb) as [[|] cb'];
    apply IH, insert_keeps_keys, Hk.
Qed.

Ltac steady_frame :=
  split; [reflexivity|]; split; [simpl; auto using insert_keeps_keys|];
  intros Hm; split; [exact Hm | reflexivity].

Lemma trigger_failover_steady failed why w m :
  steady m (snd (_trigger_failover failed why w m)).
Proof.
  unfold _trigger_failover.
  pose proof (healthy_alternatives_keys failed w (health_metrics m)
                (indexer_nodes m) (circuit_breakers m) []) as Hkeys.
  destruct (healthy_alternatives failed w (health_metrics m) (indexer_nodes m)
              (circuit_breakers m) []) as [[healthy|] breakers'];
    simpl in Hkeys; [|steady_frame].
  destruct healthy as [|first rest]; [steady_frame|].
  destruct (select_indexer (first :: rest) (health_metrics (with_breakers breakers' m))
              (load_balancer (with_breakers breakers' m))) as [[[target|]|] lb'];
    [|steady_frame|steady_frame].
  cbn [indexer_nodes with_history with_load_balancer with_breakers].
  destruct (node_of failed (indexer_nodes m)); cbn [snd];
    (split; [reflexivity|]; split; [exact Hkeys|]; intros Hm; split; [|reflexivity];
     unfold marked; cbn [failover_history with_history with_load_balancer with_breakers];
     apply Forall_app; split; [exact Hm|];
     constructor; [reflexivity | constructor]).
Qed.

Lemma attempt_recovery_keeps indexer_id w m :
  indexer_nodes (snd (_attempt_recovery indexer_id w m)) = indexer_nodes m /\
  max_recovery_attempts (snd (_attempt_recovery indexer_id w m))
    = max_recovery_attempts m /\
  (forall k, is_Some (circuit_breakers m !! k) ->
     is_Some (circuit_breakers (snd (_attempt_recovery indexer_id w m)) !! k)) /\
  (forall other, other <> indexer_id ->
     recovery_attempts (snd (_attempt_recovery indexer_id w m)) !! other
       = recovery_attempts m !! other) /\
  default [] (recovery_attempts (snd (_attempt_recovery indexer_id w m)) !! indexer_id)
    = let attempts := default [] (recovery_attempts m !! indexer_id) in
      if max_recovery_attempts m
         <=? Z.of_nat (length (List.filter (fun attempt => now w - attempt <? HOUR)
                                 attempts))
      then attempts else attempts ++ [now w].
Proof.
  unfold _attempt_recovery.
  destruct (max_recovery_attempts m <=? _); [simpl; auto 10|].
  cbn [indexer_nodes with_attempts circuit_breakers].
  assert (Hfinal : forall m',
            indexer_nodes m' = indexer_nodes m ->
            max_recovery_attempts m' = max_recovery_attempts m ->
            (forall k, is_Some (circuit_breakers m !! k) ->
                       is_Some (circuit_breakers m' !! k)) ->
            recovery_attempts m'
              = <[indexer_id := default [] (recovery_attempts m !! indexer_id) ++ [now w]]>
                  (recovery_attempts m) ->
            indexer_nodes m' = indexer_nodes m /\
            max_recovery_attempts m' = max_recovery_attempts m /\
            (forall k, is_Some (circuit_breakers m !! k) ->
                       is_Some (circuit_breakers m' !! k)) /\
            (forall other, other <> indexer_id ->
               recovery_attempts m' !! other = recovery_attempts m !! other) /\
            default [] (recovery_attempts m' !! indexer_id)
              = default [] (recovery_attempts m !! indexer_id) ++ [now w]).
  { intros m' H1 H2 H3 H4. repeat split; auto.
    - intros other Hne. rewrite H4. now rewrite lookup_insert_ne by congruence.
    - rewrite H4. now rewrite lookup_insert_eq. }
  destruct (node_of indexer_id (indexer_nodes m)) as [x|];
    [|apply Hfinal; simpl; auto].
  destruct (is_status (status (probe w x)) HEALTHY); [|apply Hfinal; simpl; auto].
  destruct (circuit_breakers m !! indexer_id) as [cb|];
    apply Hfinal; simpl; auto using insert_keeps_keys.
Qed.

Lemma check_failover_conditions_steady indexer_id health w m :
  steady m (snd (_check_failover_conditions indexer_id health w m)).
Proof.
  unfold _check_failover_conditions.
  destruct (status health); try apply steady_refl.
  - destruct (existsb _ (failover_history m)) eqn:E; [|apply steady_refl].
    destruct (attempt_recovery_keeps indexer_id w m) as (H1 & _ & H3 & _).
    split; [exact H1|]. split; [exact H3|]. intros Hm. exfalso.
    apply existsb_exists in E. destruct E as (event & Hin & Hev).
    unfold marked in Hm. rewrite List.Forall_forall in Hm.
    rewrite (Hm event Hin) in Hev. simpl in Hev.
    now rewrite andb_false_r in Hev.
  - destruct (failure_threshold m <=? consecutive_failures health);
      [apply trigger_failover_steady | apply steady_refl].
  - destruct (failure_threshold m <=? consecutive_failures health);
      [apply trigger_failover_steady | apply steady_refl].
Qed.

Lemma process_health_result_steady indexer_id health w m :
  steady m (process_health_result indexer_id health w m).
Proof.
  unfold process_health_result. cbn [circuit_breakers with_health].
  destruct (circuit_breakers m !! indexer_id) as [cb|]; [|steady_frame].
  eapply steady_trans; [|apply check_failover_conditions_steady].
  steady_frame.
Qed.

Lemma run_health_checks_steady worlds m : steady m (run_health_checks worlds m).
Proof.
  unfold run_health_checks. generalize (indexer_nodes m) as nodes.
  intros nodes. revert m. induction nodes as [|[k v] rest IH]; intros m; simpl.
  - apply steady_refl.
  - eapply steady_trans; [apply process_health_result_steady | apply IH].
Qed.

Lemma get_available_indexers_steady ef w m :
  steady m (snd (get_available_indexers ef w m)).
Proof.
  unfold get_available_indexers.
  pose proof (available_from_kept ef w (health_metrics m) (indexer_nodes m)
                (circuit_breakers m) []) as [_ Hkeys].
  destruct (available_from ef w (health_metrics m) (indexer_nodes m)
              (circuit_breakers m) []) as [r breakers'].
  simpl in *. split; [reflexivity|]. split; [intros k; apply Hkeys|].
  intros Hm. split; [exact Hm | reflexivity].
Qed.

Lemma route_request_steady excluded w m :
  steady m (snd (route_request excluded w m)).
Proof.
  unfold route_request.
  pose proof (get_available_indexers_steady true w m) as Hs.
  destruct (get_available_indexers true w m) as [[available|] m1]; simpl in Hs;
    [|exact Hs].
  destruct (match excluded with Some _ => _ | None => _ end) as [|first rest];
    [exact Hs|].
  eapply steady_trans; [exact Hs|].
  destruct (select_indexer (first :: rest) (health_metrics m1) (load_balancer m1))
    as [[[selected|]|] lb']; steady_frame.
Qed.

Lemma record_request_result_steady indexer_id ok ms w m :
  steady m (snd (record_request_result indexer_id ok ms w m)).
Proof.
  unfold record_request_result. cbn [circuit_breakers with_load_balancer].
  destruct (circuit_breakers m !! indexer_id) as [cb|]; steady_frame.
Qed.

Lemma prune_history_steady w m : steady m (prune_history w m).
Proof.
  split; [reflexivity|]. split; [auto|]. intros Hm. split; [|reflexivity].
  unfold marked, prune_history in *. simpl.
  rewrite List.Forall_forall in *. intros e He.
  apply List.filter_In in He. now apply Hm.
Qed.

Lemma dict_set_keys node_id x nodes k v :
  In (k, v) (dict_set node_id x nodes) ->
  k = node_id \/ exists v', In (k, v') nodes.
Proof.
  induction nodes as [|[j u] rest IH]; simpl.
  - intros [[= <- <-]|[]]. now left.
  - destruct (Z.eqb_spec j node_id) as [->|Hne].
    + intros [[= <- <-]|Hin]; [now left|]. right. eauto.
    + intros [[= <- <-]|Hin]; [right; eauto|].
      destruct (IH Hin) as [->|[v' Hv']]; [now left | right; eauto].
Qed.

Lemma load_rows_keeps rows :
  forall m,
    every_node_has_breaker m ->
    every_node_has_breaker (load_rows rows m) /\
    failover_history (load_rows rows m) = failover_history m /\
    recovery_attempts (load_rows rows m) = recovery_attempts m.
Proof.
  induction rows as [|row rows IH]; intros m Hm; simpl; [auto|].
  match goal with
  | |- context [load_rows rows ?m1] =>
      assert (H1 : every_node_has_breaker m1 /\
                   failover_history m1 = failover_history m /\
                   recovery_attempts m1 = recovery_attempts m)
  end.
  { simpl.
    destruct (circuit_breakers m !! row_id row) as [cb|] eqn:Hcb.
    - split; [|split; reflexivity]. intros k v Hin. simpl in *.
      destruct (dict_set_keys _ _ _ _ _ Hin) as [->|[v' Hv']]; [eauto|].
      eapply Hm, Hv'.
    - split; [|split; reflexivity]. intros k v Hin. simpl in *.
      destruct (dict_set_keys _ _ _ _ _ Hin) as [->|[v' Hv']].
      + rewrite lookup_insert_eq. eauto.
      + apply insert_keeps_keys. eapply Hm, Hv'. }
  destruct H1 as (H1 & H2 & H3).
  destruct (IH _ H1) as (H4 & H5 & H6). split; [exact H4|]. split; congruence.
Qed.

(** What holds of a manager whatever is done with it. *)
Lemma apply_op_invariant m o :
  every_node_has_breaker m -> marked m ->
  every_node_has_breaker (apply_op m o) /\ marked (apply_op m o) /\
  recovery_attempts (apply_op m o) = recovery_attempts m.
Proof.
  intros Hb Hm.
  assert (Hsteady : forall m', steady m m' ->
            every_node_has_breaker m' /\ marked m' /\
            recovery_attempts m' = recovery_attempts m).
  { intros m' (H1 & H2 & H3). destruct (H3 Hm) as [H4 H5].
    split; [|split; assumption]. intros k v Hin. rewrite H1 in Hin.
    eapply H2, Hb, Hin. }
  destruct o; cbn [apply_op].
  - unfold load_indexer_configurations. destruct rows as [rows|].
    + destruct (load_rows_keeps rows (with_nodes [] m)) as (H1 & H2 & H3).
      { intros k v []. }
      split; [exact H1|]. split; [|exact H3]. unfold marked. now rewrite H2.
    + split; [intros k v []|]. split; [exact Hm | reflexivity].
  - apply Hsteady, run_health_checks_steady.
  - apply Hsteady, check_failover_conditions_steady.
  - apply Hsteady, trigger_failover_steady.
  - apply Hsteady, route_request_steady.
  - apply Hsteady, record_request_result_steady.
  - apply Hsteady, get_available_indexers_steady.
  - apply Hsteady, prune_history_steady.
Qed.

Lemma run_invariant ops :
  forall m,
    every_node_has_breaker m -> marked m ->
    every_node_has_breaker (run m ops) /\ marked (run m ops) /\
    recovery_attempts (run m ops) = recovery_attempts m.
Proof.
  induction ops as [|o ops IH]; intros m Hb Hm; simpl; [auto|].
  destruct (apply_op_invariant m o Hb Hm) as (H1 & H2 & H3).
  destruct (IH _ H1 H2) as (H4 & H5 & H6). split; [exact H4|].
  split; [exact H5 | congruence].
Qed.

(** X22. Whatever is done with a fresh manager, every failover event it
    has recorded is marked successful, and no recovery attempt has been
    recorded: the recovery branch of [_check_failover_conditions] is never
    taken. *)
Theorem recovery_is_never_attempted (threshold timeout attempts : Z)
  (strategy : FailoverStrategy) (ops : list op) :
  let m := run (init threshold timeout attempts strategy) ops in
  Forall (fun event => success event = true) (failover_history m) /\
  recovery_attempts m = ∅ /\
  forall indexer_id health w,
    status health = HEALTHY ->
    _check_failover_conditions indexer_id health w m = (Returns tt, m).
Proof.
  intros m.
  destruct (run_invariant ops (init threshold timeout attempts strategy))
    as (_ & Hm & Hr); [intros k v [] | constructor |].
  fold m in Hm, Hr. split; [exact Hm|]. split; [exact Hr|].
  intros indexer_id health w Hs. unfold _check_failover_conditions. rewrite Hs.
  destruct (existsb _ (failover_history m)) eqn:E; [|reflexivity].
  exfalso. apply existsb_exists in E. destruct E as (event & Hin & Hev).
  unfold marked in Hm. rewrite List.Forall_forall in Hm.
  rewrite (Hm event Hin) in Hev. simpl in Hev. now rewrite andb_false_r in Hev.
Qed.

(** X23. Whatever is done with a fresh manager, every configured node has
    a circuit breaker, so that [get_available_indexers] and
    [route_request] return and never raise. *)
Theorem routing_never_raises (threshold timeout attempts : Z)
  (strategy : FailoverStrategy) (ops : list op)
  (exclude_failed : bool) (excluded : option (gset Z)) (w : World) :
  let m := run (init threshold timeout attempts strategy) ops in
  (exists available,
      fst (get_available_indexers exclude_failed w m) = Returns available) /\
  (exists selected, fst (route_request excluded w m) = Returns selected).
Proof.
  intros m.
  destruct (run_invariant ops (init threshold timeout attempts strategy))
    as (Hb & _ & _); [intros k v [] | constructor |].
  fold m in Hb.
  assert (Hav : forall ef, exists available,
            fst (get_available_indexers ef w m) = Returns available).
  { intros ef. unfold get_available_indexers.
    destruct (available_from_returns ef w (health_metrics m) (indexer_nodes m)
                (circuit_breakers m) [] Hb) as [r Hr].
    destruct (available_from ef w (health_metrics m) (indexer_nodes m)
                (circuit_breakers m) []) as [r' breakers'].
    simpl in *. eauto. }
  split; [apply Hav|].
  unfold route_request. destruct (Hav true) as [available Ha].
  destruct (get_available_indexers true w m) as [r m1]. simpl in Ha. subst r.
  destruct (match excluded with Some _ => _ | None => _ end) as [|first rest] eqn:E;
    [simpl; eauto|].
  destruct (select_indexer_some (first :: rest) (health_metrics m1) (load_balancer m1))
    as (x & lb' & -> & _); [discriminate|].
  simpl. eauto.
Qed.

Lemma recovery_is_never_attempted_witness :
  _check_failover_conditions 1 (metrics 1 HEALTHY 10) quiet
    (run (init 3 300 5 INTELLIGENT)
       [LoadIndexerConfigurations (Returns [sample_row 1 5; sample_row 2 3]);
        RunHealthChecks (fun _ => quiet)])
  = (Returns tt,
     run (init 3 300 5 INTELLIGENT)
       [LoadIndexerConfigurations (Returns [sample_row 1 5; sample_row 2 3]);
        RunHealthChecks (fun _ => quiet)]).
Proof.
  apply (proj2 (proj2 (recovery_is_never_attempted 3 300 5 INTELLIGENT
    [LoadIndexerConfigurations (Returns [sample_row 1 5; sample_row 2 3]);
     RunHealthChecks (fun _ => quiet)]))).
  reflexivity.
Defined.

Lemma filter_length_mono {A : Type} (p q : A -> bool) (l : list A) :
  (forall a, In a l -> p a = true -> q a = true) ->
  (length (List.filter p l) <= length (List.filter q l))%nat.
Proof.
  induction l as [|a l IH]; intros H; simpl; [lia|].
  assert (IH' : (length (List.filter p l) <= length (List.filter q l))%nat).
  { apply IH. intros b Hb. apply H. now right. }
  destruct (p a) eqn:Hp.
  - rewrite (H a (or_introl eq_refl) Hp). simpl. lia.
  - destruct (q a); simpl; lia.
Qed.

Lemma attempt_recoveries_bound indexer_id worlds :
  forall m,
    0 <= max_recovery_attempts m ->
    (forall t, Z.of_nat (length (attempts_in_hour m indexer_id t))
               <= max_recovery_attempts m) ->
    forall t,
      Z.of_nat (length (attempts_in_hour
                          (attempt_recoveries indexer_id worlds m) indexer_id t))
      <= max_recovery_attempts m.
Proof.
  induction worlds as [|w worlds IH]; intros m Hmax Hm t; [apply Hm|].
  change (attempt_recoveries indexer_id (w :: worlds) m)
    with (attempt_recoveries indexer_id worlds (snd (_attempt_recovery indexer_id w m))).
  destruct (attempt_recovery_keeps indexer_id w m) as (_ & Hsame & _ & _ & Hatt).
  rewrite <- Hsame. apply IH; rewrite Hsame; [exact Hmax|].
  clear t IH. intros t. unfold attempts_in_hour. rewrite Hatt. cbv zeta.
  destruct (Z.leb_spec (max_recovery_attempts m)
              (Z.of_nat (length (List.filter (fun attempt => now w - attempt <? HOUR)
                                   (default [] (recovery_attempts m !! indexer_id))))))
    as [Hfull|Hroom]; [apply Hm|].
  rewrite List.filter_app, length_app. simpl.
  destruct ((t - HOUR <? now w) && (now w <=? t))%bool eqn:Hin; simpl;
    [|specialize (Hm t); unfold attempts_in_hour in Hm; lia].
  apply andb_prop in Hin. destruct Hin as [Hlo Hhi].
  apply Z.ltb_lt in Hlo. apply Z.leb_le in Hhi.
  pose proof (filter_length_mono
                (fun attempt => (t - HOUR <? attempt) && (attempt <=? t))%bool
                (fun attempt => now w - attempt <? HOUR)
                (default [] (recovery_attempts m !! indexer_id))) as Hmono.
  match type of Hmono with ?P -> _ => assert (Himp : P) end.
  { cbv beta. intros a _ Ha. apply andb_prop in Ha. destruct Ha as [Ha _].
    apply Z.ltb_lt in Ha. apply Z.ltb_lt. lia. }
  specialize (Hmono Himp). specialize (Hm t). unfold attempts_in_hour in Hm.
  lia.
Qed.

(** X24. With a limit that is not negative, and for an indexer without
    recorded attempts, whatever the clock readings of a series of
    [_attempt_recovery] calls, the attempts recorded within any one hour
    never exceed [max_recovery_attempts]. *)
Theorem recovery_attempts_rate_limited (indexer_id : Z) (worlds : list World)
  (m : t) (t : Z) :
  0 <= max_recovery_attempts m ->
  recovery_attempts m !! indexer_id = None ->
  Z.of_nat (length (attempts_in_hour
                      (attempt_recoveries indexer_id worlds m) indexer_id t))
  <= max_recovery_attempts m.
Proof.
  intros Hmax Hnone. apply attempt_recoveries_bound; [exact Hmax|].
  intros t'. unfold attempts_in_hour. rewrite Hnone. simpl. exact Hmax.
Qed.

Lemma recovery_attempts_rate_limited_witness :
  Z.of_nat (length (attempts_in_hour
                      (attempt_recoveries 1 (repeat quiet 9) two_nodes) 1 0))
  <= 5.
Proof.
  apply (recovery_attempts_rate_limited 1 (repeat quiet 9) two_nodes 0);
    [vm_compute; discriminate | vm_compute; reflexivity].
Defined.

End FailoverManagerFacts.

Module DuplicateDetectorMoreFacts.
Import Py PyFacts DuplicateDetector DuplicateDetectorFacts DuplicateOrder.

Lemma key_lt_precedes a b :
  key_lt (sort_key a) (sort_key b) = false <-> precedes a b.
Proof.
  unfold key_lt, sort_key, precedes. cbn [fst snd].
  assert (Hq : match (similarity_score a ?= similarity_score b)%Q with
               | Lt => true
               | _ => false
               end = false <-> (similarity_score b <= similarity_score a)%Q).
  { rewrite Qle_alt,
      <- (Qcompare_antisym (similarity_score a) (similarity_score b)).
    destruct (similarity_score a ?= similarity_score b)%Q; simpl;
      split; congruence. }
  destruct (confidence a), (confidence b); cbn;
    try (rewrite Hq; split; [intros H; right; split; [reflexivity | exact H]
                            | intros [H | [_ H]]; [lia | exact H]]);
    try (split; [intros _; left; lia | reflexivity]);
    try (split; [discriminate | intros [H | [H _]]; [lia | discriminate]]).
Qed.

Lemma precedes_trans a b c : precedes a b -> precedes b c -> precedes a c.
Proof.
  unfold precedes. intros [H1 | [E1 Q1]] [H2 | [E2 Q2]].
  - left. lia.
  - left. rewrite <- E2. exact H1.
  - left. rewrite E1. exact H2.
  - right. split; [congruence | eapply Qle_trans; eauto].
Qed.

Lemma key_lt_true_precedes x y :
  key_lt (sort_key x) (sort_key y) = true -> precedes y x.
Proof.
  intros H. destruct (key_lt (sort_key y) (sort_key x)) eqn:E;
    [|now apply key_lt_precedes].
  exfalso. revert H E. unfold key_lt, sort_key. cbn [fst snd].
  rewrite <- (Qcompare_antisym (similarity_score x) (similarity_score y)).
  destruct (confidence x), (confidence y); cbn; try discriminate;
    destruct (similarity_score x ?= similarity_score y)%Q; simpl; discriminate.
Qed.

Lemma insert_desc_sorted x l :
  StronglySorted precedes l -> StronglySorted precedes (insert_desc x l).
Proof.
  induction l as [|y l IH]; intros Hs; simpl.
  - constructor; constructor.
  - apply StronglySorted_inv in Hs. destruct Hs as [Hl Hy].
    destruct (key_lt (sort_key x) (sort_key y)) eqn:E.
    + constructor; [now apply IH|].
      rewrite List.Forall_forall. intros z Hz.
      apply (Permutation_in _ (insert_desc_perm x l)) in Hz.
      destruct Hz as [<- | Hz]; [now apply key_lt_true_precedes|].
      rewrite List.Forall_forall in Hy. now apply Hy.
    + apply key_lt_precedes in E.
      constructor; [constructor; assumption|].
      constructor; [exact E|].
      eapply List.Forall_impl; [|exact Hy]. intros z Hz.
      eapply precedes_trans; eauto.
Qed.

Lemma sort_desc_sorted l : StronglySorted precedes (sort_desc l).
Proof.
  induction l as [|x l IH]; simpl; [constructor|].
  now apply insert_desc_sorted.
Qed.

(** X25. The list returned by [detect_duplicates] is ordered by the
    string of the confidence and then by the score, greatest first: every
    MEDIUM match comes before every LOW match, every LOW match before every
    HIGH match, and among matches of one confidence a match never has a
    lower score than one after it. *)
Theorem detected_matches_order
  (find_isbn find_asin : BookRecord -> list BookRecord -> list DuplicateMatch)
  (find_fuzzy find_content :
     BookRecord -> list BookRecord -> nat -> list DuplicateMatch)
  (enable_isbn_matching enable_content_hash_matching : bool)
  (books : list BookRecord) :
  StronglySorted
    (fun a b =>
       rank (confidence b) < rank (confidence a) \/
       (confidence a = confidence b /\
        (similarity_score b <= similarity_score a)%Q))
    (detect_duplicates find_isbn find_asin find_fuzzy find_content
       enable_isbn_matching enable_content_hash_matching books).
Proof.
  unfold detect_duplicates. apply sort_desc_sorted.
Qed.

Lemma dedup_loop_first matches : forall seen m,
  In m (dedup_loop matches seen) <->
  exists before after,
    matches = before ++ m :: after /\
    (canonical_pair m ∉ seen) /\
    ~ In (canonical_pair m) (map canonical_pair before).
Proof.
  induction matches as [|x rest IH]; intros seen m; simpl.
  - split; [tauto|]. intros (before & after & H & _). now destruct before.
  - destruct (decide (canonical_pair x ∈ seen)) as [Hin|Hnin].
    + rewrite IH. split.
      * intros (before & after & -> & Hs & Hb).
        exists (x :: before), after. repeat split; auto.
        simpl. intros [E|H]; [rewrite E in Hin; contradiction | contradiction].
      * intros (before & after & Heq & Hs & Hb).
        destruct before as [|y before]; simpl in Heq.
        -- injection Heq as -> ->. contradiction.
        -- injection Heq as -> ->. exists before, after.
           repeat split; auto. intros H. apply Hb. now right.
    + simpl. rewrite IH. split.
      * intros [<- | (before & after & -> & Hs & Hb)].
        -- exists [], rest. repeat split; auto.
        -- apply not_elem_of_union in Hs. destruct Hs as [Hx Hs].
           apply not_elem_of_singleton in Hx.
           exists (x :: before), after. repeat split; [exact Hs|].
           simpl. intros [E|H]; [|contradiction]. congruence.
      * intros (before & after & Heq & Hs & Hb).
        destruct before as [|y before]; simpl in Heq.
        -- injection Heq as -> ->. now left.
        -- injection Heq as -> ->. right. exists before, after.
           split; [reflexivity|]. split.
           ++ apply not_elem_of_union. split; [|exact Hs].
              apply not_elem_of_singleton. intros E. apply Hb. left. congruence.
           ++ intros H. apply Hb. now right.
Qed.

Lemma dedup_loop_sublist matches : forall seen,
  sublist (dedup_loop matches seen) matches.
Proof.
  induction matches as [|x rest IH]; intros seen; simpl; [constructor|].
  destruct (decide (canonical_pair x ∈ seen)).
  - apply sublist_cons, IH.
  - apply sublist_skip, IH.
Qed.

(** X26. [_deduplicate_matches] keeps, in their order, exactly the matches
    that are the first of their pair of books: a match is kept if and only
    if no earlier match of the list has the same canonical pair. *)
Theorem deduplicate_keeps_first (matches : list DuplicateMatch) (m : DuplicateMatch) :
  sublist (_deduplicate_matches matches) matches /\
  (In m (_deduplicate_matches matches) <->
   exists before after,
     matches = before ++ m :: after /\
     ~ In (canonical_pair m) (map canonical_pair before)).
Proof.
  split; [apply dedup_loop_sublist|].
  unfold _deduplicate_matches. rewrite dedup_loop_first. split.
  - intros (before & after & H1 & _ & H2). eauto.
  - intros (before & after & H1 & H2). exists before, after.
    repeat split; auto. apply not_elem_of_empty.
Qed.

Lemma deduplicate_keeps_first_witness :
  In (found 1 2 HIGH 1) (_deduplicate_matches [found 1 2 HIGH 1; found 2 1 LOW 0]).
Proof.
  apply (proj2 (proj2 (deduplicate_keeps_first
                         [found 1 2 HIGH 1; found 2 1 LOW 0] (found 1 2 HIGH 1)))).
  exists [], [found 2 1 LOW 0]. split; [reflexivity | simpl; tauto].
Defined.

Lemma current_row_from_bounded c1 s2 :
  forall previous current_j i j,
    length previous = S (length s2) ->
    bounded_row i j previous ->
    0 <= current_j <= Z.max (i + 1) j ->
    bounded_row (i + 1) (j + 1) (current_row_from c1 s2 previous current_j) /\
    length (current_row_from c1 s2 previous current_j) = length s2.
Proof.
  induction s2 as [|c2 s2 IH]; intros previous current_j i j Hlen Hprev Hcur.
  - destruct previous; simpl; auto.
  - destruct previous as [|p_j [|p_j1 previous]]; simpl in Hlen; try lia.
    cbn [current_row_from].
    destruct Hprev as [Hpj Hrest]. pose proof Hrest as [Hpj1 _].
    set (v := Z.min (Z.min (p_j1 + 1) (current_j + 1))
                (p_j + (if ascii_eqb c1 c2 then 0 else 1))).
    assert (Hv : 0 <= v <= Z.max (i + 1) (j + 1)).
    { subst v. destruct (ascii_eqb c1 c2); lia. }
    destruct (IH (p_j1 :: previous) v i (j + 1)) as [H1 H2];
      [simpl; lia | exact Hrest | lia |].
    cbn [bounded_row length]. split; [split; [exact Hv | exact H1] | lia].
Qed.

Lemma rows_bounded s2 s1 :
  forall i previous_row,
    length previous_row = S (length s2) ->
    bounded_row i 0 previous_row ->
    0 <= i ->
    bounded_row (i + Z.of_nat (length s1)) 0 (rows i s1 s2 previous_row) /\
    length (rows i s1 s2 previous_row) = S (length s2).
Proof.
  induction s1 as [|c1 s1 IH]; intros i previous_row Hlen Hprev Hi.
  - simpl. rewrite Z.add_0_r. auto.
  - cbn [rows].
    destruct (current_row_from_bounded c1 s2 previous_row (i + 1) i 0 Hlen Hprev)
      as [H1 H2]; [lia|].
    destruct (IH (i + 1) ((i + 1) :: current_row_from c1 s2 previous_row (i + 1)))
      as [H3 H4]; [simpl; lia | | lia |].
    { cbn [bounded_row]. split; [lia | exact H1]. }
    split; [|exact H4].
    replace (i + Z.of_nat (length (c1 :: s1))) with (i + 1 + Z.of_nat (length s1))
      by (cbn [length]; lia).
    exact H3.
Qed.

Lemma range_bounded n : forall a,
  bounded_row 0 (Z.of_nat a) (map Z.of_nat (seq a n)).
Proof.
  induction n as [|n IH]; intros a; simpl; [exact I|].
  split; [lia|]. replace (Z.of_nat a + 1) with (Z.of_nat (S a)) by lia. apply IH.
Qed.

Lemma bounded_row_last row : forall i j,
  row <> [] -> bounded_row i j row ->
  0 <= List.last row 0 <= Z.max i (j + Z.of_nat (length row) - 1).
Proof.
  induction row as [|v row IH]; intros i j Hne Hb; [congruence|].
  destruct Hb as [Hv Hrest]. destruct row as [|v' row].
  - simpl. lia.
  - change (List.last (v :: v' :: row) 0) with (List.last (v' :: row) 0).
    specialize (IH i (j + 1) ltac:(discriminate) Hrest).
    cbn [length] in *. lia.
Qed.

Lemma levenshtein_distance_ordered s1 s2 :
  (length s2 <= length s1)%nat ->
  0 <= (if (length s2 =? 0)%nat then Z.of_nat (length s1)
        else List.last (rows 0 s1 s2 (range_Z (length s2 + 1))) 0)
    <= Z.of_nat (length s1).
Proof.
  intros Hle. destruct (length s2 =? 0)%nat; [lia|].
  destruct (rows_bounded s2 s1 0 (range_Z (length s2 + 1))) as [H1 H2].
  - unfold range_Z. rewrite length_map, length_seq. lia.
  - apply (range_bounded (length s2 + 1) 0).
  - lia.
  - pose proof (bounded_row_last (rows 0 s1 s2 (range_Z (length s2 + 1)))
                  (0 + Z.of_nat (length s1)) 0) as Hlast.
    rewrite H2 in Hlast.
    destruct Hlast as [Hlo Hhi];
      [intros E; rewrite E in H2; discriminate | exact H1 |].
    split; [exact Hlo | lia].
Qed.

Lemma levenshtein_distance_bounds s1 s2 :
  0 <= levenshtein_distance s1 s2
    <= Z.of_nat (Nat.max (length s1) (length s2)).
Proof.
  unfold levenshtein_distance.
  destruct (Nat.ltb_spec (length s1) (length s2)) as [Hlt|Hge].
  - pose proof (levenshtein_distance_ordered s2 s1 ltac:(lia)). lia.
  - pose proof (levenshtein_distance_ordered s1 s2 Hge). lia.
Qed.

Lemma levenshtein_similarity_bounds str1 str2 :
  (0 <= _levenshtein_similarity str1 str2 <= 1)%Q.
Proof.
  pose proof (levenshtein_distance_bounds str1 str2) as [Hlo Hhi].
  unfold _levenshtein_similarity.
  destruct (Nat.eqb_spec (Nat.max (length str1) (length str2)) 0) as [E|Hne];
    [split; discriminate|].
  set (d := levenshtein_distance str1 str2) in *.
  set (n := Z.of_nat (Nat.max (length str1) (length str2))) in *.
  assert (Hn : 0 < n) by lia.
  assert (Hq : (0 < inject_Z n)%Q)
    by (change 0%Q with (inject_Z 0); rewrite <- Zlt_Qlt; exact Hn).
  assert (Hd0 : (0 <= inject_Z d / inject_Z n)%Q).
  { apply Qle_shift_div_l; [exact Hq|]. rewrite Qmult_0_l.
    change 0%Q with (inject_Z 0). rewrite <- Zle_Qle. exact Hlo. }
  assert (Hd1 : (inject_Z d / inject_Z n <= 1)%Q).
  { apply Qle_shift_div_r; [exact Hq|]. rewrite Qmult_1_l.
    rewrite <- Zle_Qle. exact Hhi. }
  split; lra.
Qed.

(** X27. The Levenshtein distance computed for two strings lies between 0
    and the length of the longer one, so that [_levenshtein_similarity]
    lies between 0 and 1. *)
Theorem levenshtein_similarity_range (str1 str2 : str) :
  0 <= levenshtein_distance str1 str2
    <= Z.of_nat (Nat.max (length str1) (length str2)) /\
  (0 <= _levenshtein_similarity str1 str2 <= 1)%Q.
Proof.
  split; [apply levenshtein_distance_bounds | apply levenshtein_similarity_bounds].
Qed.

Lemma remove_commas_then_authors s :
  remove_chars (fun c => negb (author_char c)) (lower (nfkd (remove_chars is_comma s)))
  = remove_chars (fun c => negb (author_char c)) (lower (nfkd s)).
Proof.
  unfold remove_chars, lower, nfkd.
  induction s as [|c s IH]; simpl; [reflexivity|].
  destruct (is_comma c) eqn:Hc; simpl.
  - rewrite IH.
    assert (Ha : author_char (lower_char c) = false).
    { unfold is_comma in Hc. apply N.eqb_eq in Hc.
      assert (c = ascii_of_N 44) as -> by (rewrite <- Hc; unfold code;
        now rewrite ascii_N_embedding).
      reflexivity. }
    now rewrite Ha.
  - now rewrite IH.
Qed.

(** X28. [_normalize_author] drops commas like any other punctuation
    before it looks for the form "Last, First": its result holds no comma,
    the names are never swapped, and an author written in 7-bit characters
    gives the same result with and without its commas. *)
Theorem normalize_author_ignores_commas (author : str) :
  existsb is_comma (_normalize_author author) = false /\
  _normalize_author author
    = strip (collapse_ws
        (remove_chars (fun c => negb (author_char c)) (lower (nfkd author)))) /\
  (ascii_text author = true ->
   _normalize_author (remove_chars is_comma author) = _normalize_author author).
Proof.
  rewrite !normalize_author_steps. split; [|split; [reflexivity|]].
  - pose proof (author_chars author) as Hall.
    induction Hall as [|x l [_ Hx] _ IH]; simpl; [reflexivity|].
    now rewrite (author_char_no_comma _ Hx).
  - intros _. now rewrite remove_commas_then_authors.
Qed.

Lemma normalize_author_ignores_commas_witness :
  _normalize_author (remove_chars is_comma (lit "Tolkien, J.R.R."))
  = _normalize_author (lit "Tolkien, J.R.R.").
Proof.
  apply (proj2 (proj2 (normalize_author_ignores_commas (lit "Tolkien, J.R.R.")))).
  reflexivity.
Defined.

End DuplicateDetectorMoreFacts.

Module SimilarityScoresFacts.
Import Py PyFacts DuplicateDetector DuplicateDetectorFacts DuplicateOrder
  DuplicateDetectorMoreFacts SimilarityScores.

Lemma py_max_cases a b : py_max a b = a \/ py_max a b = b.
Proof. unfold py_max. destruct (b ?= a)%Q; auto. Qed.

Lemma py_max_range a b :
  (0 <= a <= 1)%Q -> (0 <= b <= 1)%Q -> (0 <= py_max a b <= 1)%Q.
Proof. intros Ha Hb. destruct (py_max_cases a b) as [-> | ->]; assumption. Qed.

Lemma string_similarity_bounds seq_ratio n str1 str2 cache :
  (forall a b, (0 <= seq_ratio a b <= 1)%Q) ->
  cache_in_range cache ->
  (0 <= fst (_calculate_string_similarity seq_ratio n str1 str2 cache) <= 1)%Q /\
  cache_in_range (snd (_calculate_string_similarity seq_ratio n str1 str2 cache)) /\
  cache ⊆ snd (_calculate_string_similarity seq_ratio n str1 str2 cache) /\
  ((size cache <= n)%nat ->
   (size (snd (_calculate_string_similarity seq_ratio n str1 str2 cache)) <= n)%nat).
Proof.
  intros Hratio Hcache. unfold _calculate_string_similarity.
  assert (Hsame : cache_in_range cache /\ cache ⊆ cache /\
                  ((size cache <= n)%nat -> (size cache <= n)%nat))
    by (split; [exact Hcache | split; [reflexivity | auto]]).
  destruct (negb (truthy str1) || negb (truthy str2))%bool;
    [simpl; split; [lra | exact Hsame]|].
  destruct (str_eqb str1 str2); [simpl; split; [lra | exact Hsame]|].
  destruct (cache !! (str1 ++ lit "::" ++ str2)) as [cached|] eqn:Hkey.
  { simpl. split; [apply (Hcache _ _ Hkey) | exact Hsame]. }
  set (similarity := if ((length str1 <? 100)%nat && (length str2 <? 100)%nat)%bool
                     then py_max (seq_ratio str1 str2)
                            (_levenshtein_similarity str1 str2)
                     else seq_ratio str1 str2).
  assert (Hs : (0 <= similarity <= 1)%Q).
  { subst similarity.
    destruct ((length str1 <? 100)%nat && (length str2 <? 100)%nat)%bool;
      [|apply Hratio].
    apply py_max_range; [apply Hratio|].
    apply levenshtein_similarity_bounds. }
  cbn [fst snd]. split; [exact Hs|].
  destruct (Nat.ltb_spec (size cache) n) as [Hroom|Hfull].
  - split; [|split].
    + intros key value Hk. destruct (decide (key = str1 ++ lit "::" ++ str2)) as [->|Hne].
      * rewrite lookup_insert_eq in Hk. injection Hk as <-. exact Hs.
      * rewrite lookup_insert_ne in Hk by congruence. eapply Hcache, Hk.
    + now apply insert_subseteq.
    + intros _. rewrite map_size_insert_None by exact Hkey. lia.
  - exact Hsame.
Qed.

Lemma half_in_range a b : (0 <= half a b <= 1)%Q.
Proof. unfold half. split; lra. Qed.

Lemma empty_cache_in_range : cache_in_range ∅.
Proof. intros key value H. rewrite lookup_empty in H. discriminate. Qed.

(** X29. When [SequenceMatcher.ratio] answers between 0 and 1 and the
    cache holds such values only, [_calculate_string_similarity] returns a
    value between 0 and 1, the cache still holds such values only, keeps
    every entry it had, and stays within [similarity_cache_size] entries if
    it was. *)
Theorem string_similarity_range (seq_ratio : str -> str -> Q) (n : nat)
  (str1 str2 : str) (cache : gmap str Q) :
  (forall a b, (0 <= seq_ratio a b <= 1)%Q) ->
  (forall key value, cache !! key = Some value -> (0 <= value <= 1)%Q) ->
  (size cache <= n)%nat ->
  let result := _calculate_string_similarity seq_ratio n str1 str2 cache in
  (0 <= fst result <= 1)%Q /\
  (forall key value, snd result !! key = Some value -> (0 <= value <= 1)%Q) /\
  cache ⊆ snd result /\
  (size (snd result) <= n)%nat.
Proof.
  intros Hratio Hcache Hsize result.
  destruct (string_similarity_bounds seq_ratio n str1 str2 cache Hratio Hcache)
    as (H1 & H2 & H3 & H4).
  subst result. split; [exact H1|]. split; [exact H2|]. split; [exact H3 | auto].
Qed.

Lemma string_similarity_range_witness :
  (0 <= fst (_calculate_string_similarity half 10 (lit "dune") (lit "dune messiah") ∅)
   <= 1)%Q.
Proof.
  apply (string_similarity_range half 10 (lit "dune") (lit "dune messiah") ∅
           half_in_range empty_cache_in_range).
  rewrite map_size_empty. lia.
Defined.

Section Ranges.

Variable seq_ratio : str -> str -> Q.
Variable n : nat.
Hypothesis ratio_in_range : forall a b, (0 <= seq_ratio a b <= 1)%Q.

Lemma best_among_bounds author1 norm_authors2 :
  forall max_similarity cache,
    (0 <= max_similarity <= 1)%Q -> cache_in_range cache ->
    (0 <= fst (best_among seq_ratio n author1 norm_authors2 max_similarity cache)
     <= 1)%Q /\
    cache_in_range
      (snd (best_among seq_ratio n author1 norm_authors2 max_similarity cache)).
Proof.
  induction norm_authors2 as [|author2 rest IH]; intros max_similarity cache Hm Hc;
    simpl; [auto|].
  destruct (string_similarity_bounds seq_ratio n author1 author2 cache
              ratio_in_range Hc) as (H1 & H2 & _).
  destruct (_calculate_string_similarity seq_ratio n author1 author2 cache)
    as [similarity cache'].
  simpl in H1, H2. apply IH; [now apply py_max_range | exact H2].
Qed.

Lemma best_pair_bounds norm_authors1 norm_authors2 :
  forall max_similarity cache,
    (0 <= max_similarity <= 1)%Q -> cache_in_range cache ->
    (0 <= fst (best_pair seq_ratio n norm_authors1 norm_authors2 max_similarity cache)
     <= 1)%Q /\
    cache_in_range
      (snd (best_pair seq_ratio n norm_authors1 norm_authors2 max_similarity cache)).
Proof.
  induction norm_authors1 as [|author1 rest IH]; intros max_similarity cache Hm Hc;
    simpl; [auto|].
  destruct (best_among_bounds author1 norm_authors2 max_similarity cache Hm Hc)
    as [H1 H2].
  destruct (best_among seq_ratio n author1 norm_authors2 max_similarity cache)
    as [best cache'].
  simpl in H1, H2. now apply IH.
Qed.

Lemma author_similarity_bounds authors1 authors2 cache :
  cache_in_range cache ->
  (0 <= fst (_calculate_author_similarity seq_ratio n authors1 authors2 cache)
   <= 1)%Q /\
  cache_in_range (snd (_calculate_author_similarity seq_ratio n authors1 authors2 cache)).
Proof.
  intros Hc. unfold _calculate_author_similarity.
  destruct authors1, authors2; try (simpl; split; [lra | exact Hc]).
  apply best_pair_bounds; [lra | exact Hc].
Qed.

Lemma weighted_average_range t a i d p :
  (0 <= t <= 1)%Q -> (0 <= a <= 1)%Q -> (0 <= i <= 1)%Q ->
  (0 <= d <= 1)%Q -> (0 <= p <= 1)%Q ->
  (0 <= match (0 ?= py_sum weights)%Q with
        | Lt => py_sum (zip_with Qmult [t; a; i; d; p] weights) / py_sum weights
        | _ => 0
        end <= 1)%Q.
Proof.
  intros Ht Ha Hi Hd Hp.
  change (0 ?= py_sum weights)%Q with Lt.
  assert (Hpos : (0 < py_sum weights)%Q) by reflexivity.
  split.
  - apply Qle_shift_div_l; [exact Hpos|].
    unfold py_sum, weights. cbn [zip_with fold_left]. lra.
  - apply Qle_shift_div_r; [exact Hpos|].
    unfold py_sum, weights. cbn [zip_with fold_left]. lra.
Qed.

Lemma overall_similarity_bounds book1 book2 titles cache :
  cache_in_range cache ->
  (0 <= fst (_calculate_overall_similarity seq_ratio n book1 book2 titles cache)
   <= 1)%Q /\
  cache_in_range
    (snd (snd (_calculate_overall_similarity seq_ratio n book1 book2 titles cache))).
Proof.
  intros Hc. unfold _calculate_overall_similarity.
  destruct (_normalize_title n (title book1) titles) as [title1 titles1].
  destruct (_normalize_title n (title book2) titles1) as [title2 titles2].
  destruct (string_similarity_bounds seq_ratio n title1 title2 cache
              ratio_in_range Hc) as (Ht & Hc1 & _).
  destruct (_calculate_string_similarity seq_ratio n title1 title2 cache)
    as [title_sim cache1].
  simpl in Ht, Hc1.
  destruct (author_similarity_bounds (authors book1) (authors book2) cache1 Hc1)
    as [Ha Hc2].
  destruct (_calculate_author_similarity seq_ratio n (authors book1) (authors book2)
              cache1) as [author_sim cache2].
  simpl in Ha, Hc2.
  set (isbn_sim := if (present (isbn_13 book1) && present (isbn_13 book2))%bool
                   then _ else _).
  assert (Hi : (0 <= isbn_sim <= 1)%Q).
  { subst isbn_sim.
    destruct (present (isbn_13 book1) && present (isbn_13 book2))%bool;
      [destruct (str_eqb _ _); split; lra|].
    destruct (present (isbn_10 book1) && present (isbn_10 book2))%bool;
      [destruct (str_eqb _ _); split; lra | split; lra]. }
  clearbody isbn_sim.
  set (date_sim := if (present (publication_date book1)
                       && present (publication_date book2))%bool
                   then _ else _).
  assert (Hd : (0 <= date_sim <= 1)%Q).
  { subst date_sim.
    destruct (present (publication_date book1)
              && present (publication_date book2))%bool;
      [destruct (str_eqb _ _); split; lra | split; lra]. }
  clearbody date_sim.
  assert (Hp : (0 <= fst (if (present (publisher book1)
                              && present (publisher book2))%bool
                          then _calculate_string_similarity seq_ratio n
                                 (text (publisher book1)) (text (publisher book2)) cache2
                          else (0%Q, cache2)) <= 1)%Q /\
               cache_in_range
                 (snd (if (present (publisher book1)
                           && present (publisher book2))%bool
                       then _calculate_string_similarity seq_ratio n
                              (text (publisher book1)) (text (publisher book2)) cache2
                       else (0%Q, cache2)))).
  { destruct (present (publisher book1) && present (publisher book2))%bool.
    - destruct (string_similarity_bounds seq_ratio n (text (publisher book1))
                  (text (publisher book2)) cache2 ratio_in_range Hc2) as (H1 & H2 & _).
      auto.
    - simpl. split; [lra | exact Hc2]. }
  destruct (if (present (publisher book1) && present (publisher book2))%bool
            then _ else _) as [pub_sim cache3].
  simpl in Hp. destruct Hp as [Hp Hc3]. cbn [fst snd].
  split; [|exact Hc3].
  now apply weighted_average_range.
Qed.

End Ranges.

(** X30. When [SequenceMatcher.ratio] answers between 0 and 1 and the
    similarity cache holds such values only,
    [_calculate_author_similarity] and [_calculate_overall_similarity]
    return values between 0 and 1 and leave such a cache. *)
Theorem overall_similarity_range (seq_ratio : str -> str -> Q) (n : nat)
  (book1 book2 : BookRecord) (titles : gmap str str) (cache : gmap str Q) :
  (forall a b, (0 <= seq_ratio a b <= 1)%Q) ->
  (forall key value, cache !! key = Some value -> (0 <= value <= 1)%Q) ->
  let authors_result :=
    _calculate_author_similarity seq_ratio n (authors book1) (authors book2) cache in
  let result := _calculate_overall_similarity seq_ratio n book1 book2 titles cache in
  (0 <= fst authors_result <= 1)%Q /\
  (0 <= fst result <= 1)%Q /\
  (forall key value, snd (snd result) !! key = Some value -> (0 <= value <= 1)%Q).
Proof.
  intros Hratio Hcache authors_result result.
  destruct (author_similarity_bounds seq_ratio n Hratio (authors book1)
              (authors book2) cache Hcache) as [Ha _].
  destruct (overall_similarity_bounds seq_ratio n Hratio book1 book2 titles cache
              Hcache) as [Ho Hc].
  subst authors_result result. split; [exact Ha|]. split; [exact Ho | exact Hc].
Qed.

Lemma overall_similarity_range_witness :
  (0 <= fst (_calculate_overall_similarity half 10
               (described 1 "Dune" "Frank Herbert")
               (described 2 "Dune Messiah" "Herbert, Frank") ∅ ∅) <= 1)%Q.
Proof.
  apply (proj1 (proj2 (overall_similarity_range half 10
           (described 1 "Dune" "Frank Herbert")
           (described 2 "Dune Messiah" "Herbert, Frank") ∅ ∅
           half_in_range empty_cache_in_range))).
Defined.

End SimilarityScoresFacts.
